(** * graph2tac.tfgnn.tasks: ragged scoring, losses, metrics and tactic selection

    A shallow embedding of the tensor algebra of [graph2tac/tfgnn/tasks.py]
    and the properties of its losses, metrics, joint normalisation and
    top-k tactic selection.

    Tensors are nested lists.  A ragged tensor of shape [batch, None(args)]
    is a [list (list A)], one of shape [batch, None(args), None(context)] a
    [list (list (list A))].  A dense tensor of rank 3 also records the static
    sizes of its two inner axes, which nested lists lose when an outer axis
    is empty.

    Scores are modelled by [float]: finite values are real numbers (rounding
    is not modelled), and the three special values of IEEE arithmetic that
    the code relies on (log 0 = -inf, -inf padding, inf - inf = NaN) are
    kept. *)

From Stdlib Require Import String.
From Stdlib Require Import Reals Lra Lia ZArith Bool Arith List.
From Stdlib Require Import Sorting.Permutation.
Import ListNotations.

(* ===================================================================== *)
(** * Part I: the model *)
(* ===================================================================== *)

(** ** Errors raised by the code or by the tensor runtime *)

Inductive error : Type :=
| InvalidArgumentError          (* shape or index error of the tensor runtime *)
| ValueError (msg : string)
| Exception (msg : string).

Definition result (A : Type) : Type := (error + A)%type.

Definition ret {A} (a : A) : result A := inr a.
Definition raise {A} (e : error) : result A := inl e.
Definition bind {A B} (m : result A) (k : A -> result B) : result B :=
  match m with
  | inl e => inl e
  | inr a => k a
  end.

Declare Scope result_scope.
Delimit Scope result_scope with result.
Notation "x <- m ;; k" := (bind m (fun x => k))
  (at level 61, m at next level, right associativity) : result_scope.
Notation "' p <- m ;; k" := (bind m (fun x => match x with p => k end))
  (at level 61, p pattern, m at next level, right associativity) : result_scope.
Local Open Scope result_scope.

Fixpoint mapM {A B} (f : A -> result B) (l : list A) : result (list B) :=
  match l with
  | [] => ret []
  | a :: t => b <- f a ;; bs <- mapM f t ;; ret (b :: bs)
  end.

(** Element-wise combination of two tensors along one axis; the runtime
    refuses operands whose sizes differ. *)
Definition zipM {A B C} (f : A -> B -> result C) (l1 : list A) (l2 : list B)
  : result (list C) :=
  if length l1 =? length l2
  then mapM (fun p => f (fst p) (snd p)) (combine l1 l2)
  else raise InvalidArgumentError.

(** ** Scores *)

Inductive float : Type :=
| Fin (r : R)
| PInf
| NInf
| NaN.

Definition is_finite (x : float) : bool :=
  match x with Fin _ => true | _ => false end.

Definition fadd (x y : float) : float :=
  match x, y with
  | NaN, _ | _, NaN => NaN
  | PInf, NInf | NInf, PInf => NaN
  | PInf, _ | _, PInf => PInf
  | NInf, _ | _, NInf => NInf
  | Fin a, Fin b => Fin (a + b)
  end.

Definition fneg (x : float) : float :=
  match x with
  | Fin a => Fin (- a)
  | PInf => NInf
  | NInf => PInf
  | NaN => NaN
  end.

Definition fsub (x y : float) : float := fadd x (fneg y).

(** The product of an infinity ([pos] tells its sign) with a finite value. *)
Definition inf_times (pos : bool) (a : R) : float :=
  if Rlt_dec 0 a then (if pos then PInf else NInf)
  else if Rlt_dec a 0 then (if pos then NInf else PInf)
  else NaN.

Definition fmul (x y : float) : float :=
  match x, y with
  | NaN, _ | _, NaN => NaN
  | Fin a, Fin b => Fin (a * b)
  | PInf, Fin a | Fin a, PInf => inf_times true a
  | NInf, Fin a | Fin a, NInf => inf_times false a
  | PInf, PInf | NInf, NInf => PInf
  | PInf, NInf | NInf, PInf => NInf
  end.

Definition fexp (x : float) : float :=
  match x with
  | Fin a => Fin (exp a)
  | PInf => PInf
  | NInf => Fin 0
  | NaN => NaN
  end.

Definition flog (x : float) : float :=
  match x with
  | Fin a => if Rlt_dec 0 a then Fin (ln a)
             else if Req_dec_T a 0 then NInf else NaN
  | PInf => PInf
  | NInf => NaN
  | NaN => NaN
  end.

(** Comparisons; every comparison with NaN is false. *)
Definition fge (x y : float) : bool :=
  match x, y with
  | NaN, _ | _, NaN => false
  | PInf, _ => true
  | _, NInf => true
  | NInf, _ => false
  | Fin _, PInf => false
  | Fin a, Fin b => if Rle_dec b a then true else false
  end.

Definition fgt (x y : float) : bool :=
  match x, y with
  | NaN, _ | _, NaN => false
  | PInf, PInf | NInf, NInf => false
  | PInf, _ => true
  | _, PInf => false
  | _, NInf => true
  | NInf, _ => false
  | Fin a, Fin b => if Rlt_dec b a then true else false
  end.

(** Maximum; NaN propagates. *)
Definition fmax (x y : float) : float :=
  match x, y with
  | NaN, _ | _, NaN => NaN
  | _, _ => if fge x y then x else y
  end.

Definition cast_bool (b : bool) : float := if b then Fin 1 else Fin 0.

(** [tf.reduce_max] over the last axis; -inf over an empty axis. *)
Definition reduce_max (l : list float) : float := fold_right fmax NInf l.

(** [tf.reduce_sum] over the last axis; 0 over an empty axis. *)
Definition reduce_sum (l : list float) : float := fold_right fadd (Fin 0) l.

(** [tf.argmax] over the last axis: the first position of the largest
    value; the runtime refuses an empty axis. *)
Fixpoint argmax_from (l : list float) (i : nat) (bi : nat) (bv : float) : nat :=
  match l with
  | [] => bi
  | x :: t => if fgt x bv then argmax_from t (S i) i x
              else argmax_from t (S i) bi bv
  end.

Definition argmax (l : list float) : result Z :=
  match l with
  | [] => raise InvalidArgumentError
  | x :: t => ret (Z.of_nat (argmax_from t 1 0 x))
  end.

(** [tf.math.log_softmax] over the last axis, with the shift by the maximum
    that keeps it stable. *)
Definition log_softmax (l : list float) : list float :=
  let m := reduce_max l in
  let shifted := map (fun x => fsub x m) l in
  let lse := flog (reduce_sum (map fexp shifted)) in
  map (fun x => fsub x lse) shifted.

(** Square root; NaN below zero. *)
Definition fsqrt (x : float) : float :=
  match x with
  | Fin a => if Rlt_dec a 0 then NaN else Fin (sqrt a)
  | PInf => PInf
  | NInf => NaN
  | NaN => NaN
  end.

(** Division.  Zero carries no sign here: a non-zero finite value or an
    infinity divided by zero is the infinity of the sign of the dividend. *)
Definition fdiv (x y : float) : float :=
  match x, y with
  | NaN, _ | _, NaN => NaN
  | Fin a, Fin b =>
      if Req_dec_T b 0
      then (if Rlt_dec 0 a then PInf else if Rlt_dec a 0 then NInf else NaN)
      else Fin (a / b)
  | Fin _, PInf | Fin _, NInf => Fin 0
  | PInf, Fin b => if Rlt_dec b 0 then NInf else PInf
  | NInf, Fin b => if Rlt_dec b 0 then PInf else NInf
  | PInf, PInf | PInf, NInf | NInf, PInf | NInf, NInf => NaN
  end.

(** [tf.math.divide_no_nan]: 0 wherever the denominator is 0. *)
Definition divide_no_nan (x y : float) : float :=
  match y with
  | Fin b => if Req_dec_T b 0 then Fin 0 else fdiv x y
  | _ => fdiv x y
  end.

(** [tf.reduce_min] of int64 values over the last axis; the largest int64
    over an empty axis. *)
Definition INT64_MAX : Z := 9223372036854775807%Z.

Definition reduce_min (l : list Z) : Z := fold_right Z.min INT64_MAX l.

(** [tf.cast(x, tf.int32)] of an int64 value: the 32 low bits of the value,
    read as a signed number. *)
Definition cast_int32 (z : Z) : Z :=
  ((z + 2147483648) mod 4294967296 - 2147483648)%Z.

(** [tf.cumsum(x, exclusive=True)]: the sum of the entries before each
    position. *)
Fixpoint cumsum_exclusive_from (acc : Z) (l : list Z) : list Z :=
  match l with
  | [] => []
  | x :: t => acc :: cumsum_exclusive_from (acc + x) t
  end.

Definition cumsum_exclusive (l : list Z) : list Z := cumsum_exclusive_from 0 l.

(** ** Ragged and dense tensors *)

(** The sentinel label for "no ground-truth value". *)
Definition sentinel : Z := (-1)%Z.

Record Dense3 : Type := mkDense3 {
  d_args : nat;                       (* size of axis 1 *)
  d_ctx : nat;                        (* size of the last axis *)
  d_data : list (list (list float))   (* [batch, d_args, d_ctx] *)
}.

(** A list paired with the positions of its cells, counted from [i]. *)
Definition enumerate_from {A} (i : nat) (l : list A) : list (nat * A) :=
  combine (seq i (length l)) l.

Definition enumerate {A} (l : list A) : list (nat * A) := enumerate_from 0 l.

Section Ragged.
Context {A : Type}.

Definition row_lengths (rt : list (list A)) : list nat :=
  map (@length A) rt.

(** [rt.values]: the flat values of a ragged tensor. *)
Definition values (rt : list (list A)) : list A := concat rt.

(** [rt.value_rowids()]: for every flat value the row it belongs to. *)
Definition value_rowids (rt : list (list A)) : list nat :=
  flat_map (fun p => repeat (fst p) (length (snd p))) (enumerate_from 0 rt).

(** The bounding width of a ragged tensor. *)
Definition max_row_length (rt : list (list A)) : nat :=
  fold_right Nat.max 0 (row_lengths rt).

(** [rt.to_tensor(default_value)] on one ragged axis. *)
Definition to_tensor (default : A) (rt : list (list A)) : list (list A) :=
  let n := max_row_length rt in
  map (fun row => row ++ repeat default (n - length row)) rt.

(** [tf.RaggedTensor.from_tensor(t, lengths=...)]: row [i] keeps its first
    [lengths[i]] cells (a length beyond the width keeps the whole row). *)
Definition from_tensor (t : list (list A)) (lengths : list nat)
  : result (list (list A)) :=
  if length t =? length lengths
  then ret (map (fun p => firstn (snd p) (fst p)) (combine t lengths))
  else raise InvalidArgumentError.

(** Cuts a flat list into rows of the given lengths. *)
Fixpoint split_rows (lengths : list nat) (flat : list A) : list (list A) :=
  match lengths with
  | [] => []
  | n :: t => firstn n flat :: split_rows t (skipn n flat)
  end.

(** [tf.gather(params, indices)] along the first axis. *)
Definition gather (params : list A) (indices : list nat) : result (list A) :=
  mapM (fun i => match nth_error params i with
                 | Some a => ret a
                 | None => raise InvalidArgumentError
                 end) indices.

(** [tf.gather_nd(t, positions)] with positions of depth 2. *)
Definition gather_nd (t : list (list A)) (positions : list (nat * nat))
  : result (list A) :=
  mapM (fun p => match nth_error t (fst p) with
                 | Some row => match nth_error row (snd p) with
                               | Some a => ret a
                               | None => raise InvalidArgumentError
                               end
                 | None => raise InvalidArgumentError
                 end) positions.

(** [tf.RaggedTensor.from_value_rowids(values, value_rowids, nrows)] for
    row ids in increasing order, as [tf.where] produces them. *)
Definition from_value_rowids (vals : list A) (rowids : list nat) (nrows : nat)
  : list (list A) :=
  map (fun b => map snd (filter (fun p => fst p =? b) (combine rowids vals)))
      (seq 0 nrows).
End Ragged.

(** [rt.with_values(new_values)]: the row partition of [rt] over new flat
    values; their number has to be that of [rt]. *)
Definition with_values {A B} (rt : list (list A)) (new_values : list B)
  : result (list (list B)) :=
  if length new_values =? length (values rt)
  then ret (split_rows (row_lengths rt) new_values)
  else raise InvalidArgumentError.

(** [tf.where(mask)] on a matrix: the coordinates of the true cells in
    row-major order. *)
Definition tf_where (mask : list (list bool)) : list (nat * nat) :=
  flat_map (fun p => map (fun q => (fst p, fst q))
                         (filter (fun q => snd q) (enumerate (snd p))))
           (enumerate mask).

Definition not_equal (v : Z) (x : list (list Z)) : list (list bool) :=
  map (map (fun y => negb (y =? v)%Z)) x.

(** Indexing by a label; negative labels are out of range. *)
Definition lookup {A} (l : list A) (i : Z) : result A :=
  if (i <? 0)%Z then raise InvalidArgumentError
  else match nth_error l (Z.to_nat i) with
       | Some a => ret a
       | None => raise InvalidArgumentError
       end.

(** ** Module-level functions *)

(** [arguments_filter].  [y_true] has shape [batch, 1, None(num_arguments)]
    in the source; its axis of size 1, which the source squeezes away, is
    left out here. *)
Definition arguments_filter (y_true : list (list Z)) (y_pred : Dense3)
  : result (list Z * list (list float)) :=
  let arguments_tensor := to_tensor sentinel y_true in
  let positions := tf_where (not_equal sentinel arguments_tensor) in
  arguments_true <- gather_nd arguments_tensor positions ;;
  arguments_pred <- gather_nd (d_data y_pred) positions ;;
  ret (arguments_true, arguments_pred).

(** [ragged_logits] *)
Definition ragged_logits (y_true : list (list Z)) (y_pred : Dense3)
  : result (list (list (list float))) :=
  if d_ctx y_pred =? 0
  then
    let zeros := map (map (fun _ : Z => Fin 0)) y_true in
    let logs := map (map flog) zeros in
    ret (map (map (fun x => [x])) logs)
  else
    from_tensor (d_data y_pred) (row_lengths y_true).

(** [tf.nn.sparse_softmax_cross_entropy_with_logits(labels, logits)] *)
Definition sparse_softmax_cross_entropy_with_logits
  (labels : list Z) (logits : list (list float)) : result (list float) :=
  zipM (fun label row => x <- lookup (log_softmax row) label ;; ret (fneg x))
       labels logits.

Module LocalArgumentSparseCategoricalCrossentropy.
(** [call]; [tf.size(arguments_pred)] is the number of kept positions times
    the size of the context axis. *)
Definition call (y_true : list (list Z)) (y_pred : Dense3)
  : result (list float) :=
  ' (arguments_true, arguments_pred) <- arguments_filter y_true y_pred ;;
  if length arguments_pred * d_ctx y_pred =? 0
  then ret (map (fun _ : Z => Fin 0) arguments_true)
  else sparse_softmax_cross_entropy_with_logits arguments_true arguments_pred.
End LocalArgumentSparseCategoricalCrossentropy.

(** [convert_ragged_logits_to_dense]: the context axis is padded with -inf,
    then the argument axis with rows of 0. *)
Definition convert_ragged_logits_to_dense (logits : list (list (list float)))
  : result Dense3 :=
  let nctx := max_row_length (values logits) in
  padded <- with_values logits (to_tensor NInf (values logits)) ;;
  ret (mkDense3 (max_row_length padded) nctx
                (to_tensor (repeat (Fin 0) nctx) padded)).

(** [_local_arguments_pred]: the arg-max over the context axis, or zeros of
    the shape of [y_true] when the context axis is empty. *)
Definition _local_arguments_pred (y_true : list (list Z)) (y_pred : Dense3)
  : result (list (list Z)) :=
  if 0 <? d_ctx y_pred
  then mapM (mapM argmax) (d_data y_pred)
  else ret (map (map (fun _ : Z => 0%Z)) y_true).

(** [rt.to_tensor(default_value)] on a tensor with two ragged axes: both
    axes are padded with the default value. *)
Definition to_tensor3 (default : float) (rt : list (list (list float))) : Dense3 :=
  let nargs := max_row_length rt in
  let nctx := max_row_length (values rt) in
  mkDense3 nargs nctx
    (map (fun rows =>
            map (fun row => row ++ repeat default (nctx - length row)) rows
            ++ repeat (repeat default nctx) (nargs - length rows))
         rt).

Module ArgumentSparseCategoricalCrossentropy.
(** The static method [arguments_filter] on ragged predictions. *)
Definition arguments_filter
  (y_true : list (list Z)) (y_pred : list (list (list float)))
  : result (list (list Z) * list (list (list float))) :=
  let arguments_tensor := to_tensor sentinel y_true in
  let nrows := length y_true in
  let positions := tf_where (not_equal sentinel arguments_tensor) in
  let row_ids := map fst positions in
  vals_true <- gather_nd arguments_tensor positions ;;
  vals_pred <- gather_nd y_pred positions ;;
  ret (from_value_rowids vals_true row_ids nrows,
       from_value_rowids vals_pred row_ids nrows).

(** [call]; [tf.gather(arguments_pred, arguments_true, batch_dims=2)] picks
    for every kept position the logit at its label. *)
Definition call (sum_loss_over_tactic : bool)
  (y_true : list (list Z)) (y_pred : list (list (list float)))
  : result (list float) :=
  ' (arguments_true, arguments_pred) <- arguments_filter y_true y_pred ;;
  gathered <- zipM (fun preds labels => zipM (@lookup float) preds labels)
                   arguments_pred arguments_true ;;
  let arg_losses := map (map fneg) gathered in
  if sum_loss_over_tactic
  then ret (map reduce_sum arg_losses)
  else ret (values arg_losses).
End ArgumentSparseCategoricalCrossentropy.

Module ArgumentSparseCategoricalAccuracy.
(** [update_state] without sample weights: the labels and logits handed to
    the [update_state] of [tf.keras.metrics.SparseCategoricalAccuracy], or
    [None] when that call is skipped.  [tf.shape(arguments_pred)[-1]] is
    the width that the context axis is padded to. *)
Definition update_state
  (y_true : list (list Z)) (y_pred : list (list (list float)))
  : result (option (list (list Z) * list (list (list float)))) :=
  ' (arguments_true, arguments_pred) <-
    ArgumentSparseCategoricalCrossentropy.arguments_filter y_true y_pred ;;
  let width := max_row_length (values arguments_pred) in
  arguments_pred <-
    with_values arguments_pred (to_tensor NInf (values arguments_pred)) ;;
  if 0 <? width
  then ret (Some (arguments_true, arguments_pred))
  else ret None.
End ArgumentSparseCategoricalAccuracy.

Module DefinitionNormSquaredLoss.
(** [call]: the squared norm of every row of [y_pred]; [y_true] is not
    read. *)
Definition call (y_true y_pred : list (list float)) : list float :=
  map (fun row => reduce_sum (map (fun x => fmul x x) row)) y_pred.
End DefinitionNormSquaredLoss.

(** [tf.keras.metrics.sparse_categorical_accuracy] for one example. *)
Definition sparse_categorical_accuracy (y_true : Z) (logits : list float)
  : result float :=
  p <- argmax logits ;; ret (cast_bool (p =? y_true)%Z).

(** Element-wise operations on ragged tensors of shape [batch, None(args)];
    the runtime refuses operands with different row partitions. *)
Definition ragged_map2 {A B C} (f : A -> B -> C)
  (x : list (list A)) (y : list (list B)) : result (list (list C)) :=
  zipM (zipM (fun a b => ret (f a b))) x y.

(** [tf.where(cond, x, y)] on ragged tensors. *)
Definition ragged_where {A} (cond : list (list bool)) (x y : list (list A))
  : result (list (list A)) :=
  xy <- ragged_map2 pair x y ;;
  ragged_map2 (fun (c : bool) p => if c then fst p else snd p) cond xy.

(** [tf.reduce_all(x, axis=-1)] on a ragged tensor. *)
Definition reduce_all (x : list (list bool)) : list bool :=
  map (forallb (fun b => b)) x.

Module LocalArgumentModel.
(** [compute_metrics]: the values fed to the two running means.  The
    labels are padded with 0, the logits are dense, of shape [batch,
    max(num_arguments), context_size]; labels and predictions are compared
    cell by cell.  Tensors of different shapes, which the training model
    does not produce, are outside this model, which returns an error for
    them: the broadcast of an axis of size 1 is not modelled. *)
Definition compute_metrics
  (tactic : list Z) (tactic_logits : list (list float))
  (local_arguments : list (list Z)) (local_arguments_logits : Dense3)
  : result (list float * list float) :=
  tactic_accuracy <- zipM sparse_categorical_accuracy tactic tactic_logits ;;
  let local_arguments_true := to_tensor 0%Z local_arguments in
  local_arguments_pred <-
    _local_arguments_pred local_arguments_true local_arguments_logits ;;
  equal <- ragged_map2 Z.eqb local_arguments_true local_arguments_pred ;;
  let arguments_seq_accuracy := map cast_bool (reduce_all equal) in
  let arguments_seq_mask :=
    map (fun row => cast_bool (reduce_min row >? -1)%Z) local_arguments_true in
  masked_seq_accuracy <-
    zipM (fun m s => ret (fmul m s)) arguments_seq_mask arguments_seq_accuracy ;;
  strict_accuracy <-
    zipM (fun ms t => ret (fmul ms t)) masked_seq_accuracy tactic_accuracy ;;
  ret (masked_seq_accuracy, strict_accuracy).
End LocalArgumentModel.

Module GlobalArgumentModel.
(** [compute_metrics]: the values fed to the two running means, namely the
    per-example sequence accuracy and strict accuracy.  The labels have
    shape [batch, 1, None(args)] in the source; their axis of size 1 is
    left out, so that [tf.squeeze(_, 1)] is the identity. *)
Definition compute_metrics
  (tactic : list Z) (tactic_logits : list (list float))
  (local_arguments global_arguments : list (list Z))
  (local_arguments_logits global_arguments_logits : list (list (list float)))
  : result (list float * list float) :=
  (* tactic accuracy *)
  tactic_accuracy <- zipM sparse_categorical_accuracy tactic tactic_logits ;;
  (* local arguments *)
  let local_arguments_logits := to_tensor3 NInf local_arguments_logits in
  let local_true := local_arguments in
  local_logits <- ragged_logits local_arguments local_arguments_logits ;;
  let local_best_logit := map (map reduce_max) local_logits in
  local_pred <- mapM (mapM argmax) local_logits ;;
  (* global arguments *)
  let global_arguments_logits := to_tensor3 NInf global_arguments_logits in
  let global_true := global_arguments in
  global_logits <- ragged_logits global_arguments global_arguments_logits ;;
  let global_best_logit := map (map reduce_max) global_logits in
  global_pred <- mapM (mapM argmax) global_logits ;;
  (* all arguments *)
  arg_true_is_local <- ragged_map2 Z.geb local_true global_true ;;
  arg_true_ix <- ragged_where arg_true_is_local local_true global_true ;;
  arg_pred_is_local <- ragged_map2 fge local_best_logit global_best_logit ;;
  arg_pred_ix <- ragged_where arg_pred_is_local local_pred global_pred ;;
  (* strict accuracies *)
  eq_is_local <- ragged_map2 Bool.eqb arg_true_is_local arg_pred_is_local ;;
  let seq_arg_accuracy_is_local := reduce_all eq_is_local in
  eq_ix <- ragged_map2 Z.eqb arg_true_ix arg_pred_ix ;;
  let seq_arg_accuracy_ix := reduce_all eq_ix in
  both <- zipM (fun a b => ret (cast_bool (a && b)))
               seq_arg_accuracy_is_local seq_arg_accuracy_ix ;;
  let seq_arg_accuracy := both in
  strict_accuracy <- zipM (fun t s => ret (fmul t s))
                          tactic_accuracy seq_arg_accuracy ;;
  ret (seq_arg_accuracy, strict_accuracy).
End GlobalArgumentModel.

(** ** Tactic selection *)

(** [tf.math.top_k(x, k)]: the [k] largest entries with their positions,
    largest first, equal values in the order of their positions; the runtime
    refuses a [k] beyond the width. *)
Fixpoint insert_desc (p : nat * float) (l : list (nat * float))
  : list (nat * float) :=
  match l with
  | [] => [p]
  | q :: t => if fge (snd p) (snd q) then p :: l else q :: insert_desc p t
  end.

Definition sort_desc (l : list (nat * float)) : list (nat * float) :=
  fold_right insert_desc [] l.

Definition top_k (x : list float) (k : nat) : result (list Z * list float) :=
  if k <=? length x
  then
    let best := firstn k (sort_desc (enumerate x)) in
    ret (map (fun p => Z.of_nat (fst p)) best, map snd best)
  else raise InvalidArgumentError.

(** The class [GraphConstants] is declared in [graph2tac.loader.data_classes];
    only the fields read by this file are kept. *)
Record GraphConstants : Type := mkGraphConstants {
  tactic_num : nat;
  tactic_index_to_numargs : list Z;
  global_context : list Z
}.

(** [x & y] on boolean matrices of the same shape. *)
Definition logical_and (x y : list (list bool)) : result (list (list bool)) :=
  ragged_map2 andb x y.

Module TacticPrediction.
(** [_top_k_tactics], for every example of the batch. *)
Definition _top_k_tactics (tactic_logits : list (list float))
  (tactic_mask : list (list bool)) (tactic_expand_bound : nat)
  : result (list (list Z) * list (list float)) :=
  let log_mask := map (map (fun b => flog (cast_bool b))) tactic_mask in
  masked <- ragged_map2 fadd tactic_logits log_mask ;;
  let tactic_logits := map log_softmax masked in
  top <- mapM (fun row => top_k row tactic_expand_bound) tactic_logits ;;
  ret (map fst top, map snd top).

(** The mask that [create_inference_model] hands to [_top_k_tactics];
    [total_num_components] is the number of examples of the batch. *)
Definition inference_tactic_mask (graph_constants : GraphConstants)
  (total_num_components : nat) (tactic_mask : list (list bool))
  : result (list (list bool)) :=
  let no_argument_tactics_mask :=
    map (fun n => (n =? 0)%Z) (tactic_index_to_numargs graph_constants) in
  let proofstate_tactic_mask :=
    repeat no_argument_tactics_mask total_num_components in
  logical_and proofstate_tactic_mask tactic_mask.

(** The tactic stage of [create_inference_model]. *)
Definition create_inference_model (graph_constants : GraphConstants)
  (tactic_expand_bound : nat) (tactic_logits : list (list float))
  (tactic_mask : list (list bool))
  : result (list (list Z) * list (list float)) :=
  mask <- inference_tactic_mask graph_constants (length tactic_logits)
                                tactic_mask ;;
  _top_k_tactics tactic_logits mask tactic_expand_bound.
End TacticPrediction.

(** [tf.where(cond, x, y)] with [cond] of shape [batch, 1] and [x], [y] of
    shape [1, tactic_num]. *)
Definition where_rows {A} (cond : list bool) (x y : list A)
  : result (list (list A)) :=
  if length x =? length y
  then ret (map (fun c : bool => if c then x else y) cond)
  else raise InvalidArgumentError.

Module LocalArgumentPrediction.
(** The mask that [create_inference_model] hands to [_top_k_tactics]. *)
Definition inference_tactic_mask (graph_constants : GraphConstants)
  (local_context_ids : list (list Z)) (tactic_mask : list (list bool))
  : result (list (list bool)) :=
  let no_argument_tactics_mask :=
    map (fun n => (n =? 0)%Z) (tactic_index_to_numargs graph_constants) in
  let all_tactics_mask := repeat true (tactic_num graph_constants) in
  let no_context_proofstates :=
    map (fun n => n =? 0) (row_lengths local_context_ids) in
  proofstate_tactic_mask <-
    where_rows no_context_proofstates no_argument_tactics_mask
               all_tactics_mask ;;
  logical_and proofstate_tactic_mask tactic_mask.

(** The tactic stage of [create_inference_model]. *)
Definition create_inference_model (graph_constants : GraphConstants)
  (tactic_expand_bound : nat) (tactic_logits : list (list float))
  (local_context_ids : list (list Z)) (tactic_mask : list (list bool))
  : result (list (list Z) * list (list float)) :=
  mask <- inference_tactic_mask graph_constants local_context_ids
                                tactic_mask ;;
  TacticPrediction._top_k_tactics tactic_logits mask tactic_expand_bound.

(** [_local_context_hidden]: [sizes] are the node counts of the graphs of
    the batch, [hidden_state] the hidden states of all their nodes, graph
    after graph.  The offsets and the rows of ids have to agree in number:
    the broadcast of a batch with a single row is not modelled. *)
Definition _local_context_hidden (sizes : list nat)
  (local_context_ids : list (list Z)) (hidden_state : list (list float))
  : result (list (list (list float))) :=
  let sizes := map Z.of_nat sizes in
  let cumulative_sizes := cumsum_exclusive sizes in
  local_context_ids <-
    zipM (fun offset ids => ret (map (fun i => (offset + i)%Z) ids))
         cumulative_sizes local_context_ids ;;
  mapM (mapM (lookup hidden_state)) local_context_ids.
End LocalArgumentPrediction.

(** ** Query-key products *)

(** The contraction over the hidden axis shared by the three [tf.einsum]
    calls: the sum of the products of paired coordinates.  Query and key
    vectors have the static width of the hidden axis. *)
Definition dot (x y : list float) : float :=
  reduce_sum (map (fun p => fmul (fst p) (snd p)) (combine x y)).

Module GlobalEmbeddings.
(** [call]: the embeddings of all definitions, once per example of the
    batch; of [global_context] only the number of rows is read. *)
Definition call (all_embeddings : list (list float))
  (global_context : list (list Z)) : list (list (list float)) :=
  let batch_size := length global_context in
  repeat all_embeddings batch_size.
End GlobalEmbeddings.

Module QueryKeyMul.
Record t : Type := mk { method : string }.

(** The constructor stores its selector. *)
Definition __init__ (method : string) : result t := ret (mk method).

(** [_mul_map_fn]: per example, [einsum("ij, kj -> ik", queries, keys)]. *)
Definition _mul_map_fn (queries keys : list (list (list float)))
  : result (list (list (list float))) :=
  let linear_op q k := map (fun qi => map (fun kk => dot qi kk) k) q in
  zipM (fun q k => ret (linear_op q k)) queries keys.

(** [_mul_broadcast_ragged] *)
Definition _mul_broadcast_ragged (queries keys : list (list (list float)))
  : result (list (list (list float))) :=
  keys_values <- gather keys (value_rowids queries) ;;
  queries_values_values <-
    gather (values queries) (value_rowids keys_values) ;;
  logits_values_values <-
    zipM (fun k q => ret (dot k q)) (values keys_values)
         queries_values_values ;;
  logits_values <- with_values keys_values logits_values_values ;;
  with_values queries logits_values.

(** [_mul_ragged_to_dense_to_ragged]; [hdim] is the static size of the
    hidden axis, the width of the rows of zeros that pad the dense
    tensors. *)
Definition _mul_ragged_to_dense_to_ragged (hdim : nat)
  (queries keys : list (list (list float)))
  : result (list (list (list float))) :=
  let queries_dense := to_tensor (repeat (Fin 0) hdim) queries in
  let keys_dense := to_tensor (repeat (Fin 0) hdim) keys in
  logits_dense <-
    zipM (fun q k => ret (map (fun qj => map (fun kk => dot qj kk) k) q))
         queries_dense keys_dense ;;
  logits_part_ragged <- from_tensor logits_dense (row_lengths queries) ;;
  key_lengths <- gather (row_lengths keys) (value_rowids queries) ;;
  lengths <- with_values queries key_lengths ;;
  logits_values <-
    from_tensor (values logits_part_ragged) (values lengths) ;;
  with_values logits_part_ragged logits_values.

Definition call (self : t) (hdim : nat)
  (queries keys : list (list (list float)))
  : result (list (list (list float))) :=
  if String.eqb (method self) "map_fn" then _mul_map_fn queries keys
  else if String.eqb (method self) "broadcast_ragged"
       then _mul_broadcast_ragged queries keys
  else if String.eqb (method self) "ragged_to_dense_to_ragged"
       then _mul_ragged_to_dense_to_ragged hdim queries keys
  else raise (Exception ("Unsupported multiplication method: " ++ method self)).
End QueryKeyMul.

Module QueryKeyMulGlobal.
(** [normalize_tensor]: every row divided by its Euclidean norm. *)
Definition normalize_tensor (x : list (list float)) : list (list float) :=
  map (fun row =>
         let x_norm := fsqrt (reduce_sum (map (fun v => fmul v v) row)) in
         map (fun v => divide_no_nan v x_norm) row)
      x.

(** [normalize_ragged]: [normalize_tensor] on the flat values. *)
Definition normalize_ragged (rt : list (list (list float)))
  : result (list (list (list float))) :=
  with_values rt (normalize_tensor (values rt)).

(** [call]; the layer holds a [QueryKeyMul] with the default method, and,
    with cosine similarity, the temperature [temp]. *)
Definition call (cosine_similarity : bool) (temp : float) (hdim : nat)
  (queries keys : list (list (list float)))
  : result (list (list (list float))) :=
  keys <- (if cosine_similarity then normalize_ragged keys else ret keys) ;;
  queries <-
    (if cosine_similarity then normalize_ragged queries else ret queries) ;;
  logits <-
    QueryKeyMul.call (QueryKeyMul.mk "broadcast_ragged") hdim queries keys ;;
  if cosine_similarity
  then ret (map (map (map (fun x => fdiv x temp))) logits)
  else ret logits.
End QueryKeyMulGlobal.

(** ** Global arguments *)

(** [tf.scatter_nd(indices, updates, shape)] on a matrix: every cell holds
    the sum of the updates sent to it; the runtime refuses an index outside
    the shape. *)
Definition scatter_nd (indices : list (nat * Z)) (updates : list float)
  (nrows ncols : nat) : result (list (list float)) :=
  if negb (length indices =? length updates) then raise InvalidArgumentError
  else if forallb (fun p => (fst p <? nrows)
                            && (0 <=? snd p)%Z && (snd p <? Z.of_nat ncols)%Z)
                  indices
  then ret (map (fun b =>
             map (fun j =>
                    reduce_sum
                      (map snd
                         (filter (fun p => (fst (fst p) =? b)
                                           && (snd (fst p) =? Z.of_nat j)%Z)
                                 (combine indices updates))))
                 (seq 0 ncols))
             (seq 0 nrows))
  else raise InvalidArgumentError.

Module GlobalArgumentPrediction.
(** The mask that [create_inference_model] hands to [_top_k_tactics]. *)
Definition inference_tactic_mask (graph_constants : GraphConstants)
  (local_context_ids : list (list Z)) (tactic_mask : list (list bool))
  : result (list (list bool)) :=
  let no_argument_tactics_mask :=
    map (fun n => (n =? 0)%Z) (tactic_index_to_numargs graph_constants) in
  let all_tactics_mask := repeat true (tactic_num graph_constants) in
  let no_local_context_proofstates :=
    map (fun n => n =? 0) (row_lengths local_context_ids) in
  let no_global_context_proofstates :=
    repeat (length (global_context graph_constants) =? 0)
           (length local_context_ids) in
  no_context_proofstates <-
    zipM (fun a b => ret (a && b)) no_local_context_proofstates
         no_global_context_proofstates ;;
  proofstate_tactic_mask <-
    where_rows no_context_proofstates no_argument_tactics_mask
               all_tactics_mask ;;
  logical_and proofstate_tactic_mask tactic_mask.

(** The tactic stage of [create_inference_model]. *)
Definition create_inference_model (graph_constants : GraphConstants)
  (tactic_expand_bound : nat) (tactic_logits : list (list float))
  (local_context_ids : list (list Z)) (tactic_mask : list (list bool))
  : result (list (list Z) * list (list float)) :=
  mask <- inference_tactic_mask graph_constants local_context_ids
                                tactic_mask ;;
  TacticPrediction._top_k_tactics tactic_logits mask tactic_expand_bound.

(** [_global_arguments_logits_mask] *)
Definition _global_arguments_logits_mask (global_context_ids : list (list Z))
  (global_context_size : nat) : result (list (list float)) :=
  let indices :=
    combine (value_rowids global_context_ids) (values global_context_ids) in
  let updates := map (fun _ : Z => Fin 1) (values global_context_ids) in
  scattered <- scatter_nd indices updates (length global_context_ids)
                          global_context_size ;;
  ret (map (map flog) scattered).

(** [_normalize_logits] at one argument position: the reductions of the
    source run over the last axis. *)
Definition normalize_position (local_arguments_logits
                                 global_arguments_logits : list float)
  : list float * list float :=
  let local_arguments_max_logit := reduce_max local_arguments_logits in
  let global_arguments_max_logit := reduce_max global_arguments_logits in
  let arguments_max_logit :=
    reduce_max [local_arguments_max_logit; global_arguments_max_logit] in
  let local_arguments_logits :=
    map (fun x => fsub x arguments_max_logit) local_arguments_logits in
  let global_arguments_logits :=
    map (fun x => fsub x arguments_max_logit) global_arguments_logits in
  let local_arguments_logits_norm :=
    reduce_sum (map fexp local_arguments_logits) in
  let global_arguments_logits_norm :=
    reduce_sum (map fexp global_arguments_logits) in
  let norm :=
    fneg (flog (fadd local_arguments_logits_norm
                     global_arguments_logits_norm)) in
  (map (fun x => fadd x norm) local_arguments_logits,
   map (fun x => fadd x norm) global_arguments_logits).

(** [_normalize_logits] on dense tensors of shapes [batch, args, local
    context] and [batch, args, global context]. *)
Definition _normalize_logits (local_arguments_logits
                                global_arguments_logits : Dense3)
  : result (Dense3 * Dense3) :=
  pairs <- zipM (zipM (fun l g => ret (normalize_position l g)))
                (d_data local_arguments_logits)
                (d_data global_arguments_logits) ;;
  ret (mkDense3 (d_args local_arguments_logits)
                (d_ctx local_arguments_logits) (map (map fst) pairs),
       mkDense3 (d_args global_arguments_logits)
                (d_ctx global_arguments_logits) (map (map snd) pairs)).

(** The step of [create_train_model] from the dense raw logits to the
    normalized ones: with a dynamic global context the mask is added to
    the global logits of every argument position first.  The mask and the
    global logits have the width of the global context; the broadcast of
    an axis of size 1 is not modelled. *)
Definition create_train_model (dynamic_global_context : bool)
  (graph_constants : GraphConstants)
  (global_context_ids : list (list Z))
  (local_arguments_logits global_arguments_logits : Dense3)
  : result (Dense3 * Dense3) :=
  global_arguments_logits <-
    (if dynamic_global_context
     then
       global_arguments_logits_mask <-
         _global_arguments_logits_mask global_context_ids
           (length (global_context graph_constants)) ;;
       data <- zipM (fun rows mask_row =>
                       mapM (fun row => zipM (fun x m => ret (fadd x m))
                                             row mask_row) rows)
                    (d_data global_arguments_logits)
                    global_arguments_logits_mask ;;
       ret (mkDense3 (d_args global_arguments_logits)
                     (d_ctx global_arguments_logits) data)
     else ret global_arguments_logits) ;;
  _normalize_logits local_arguments_logits global_arguments_logits.

(** [convert_logits_to_ragged]; [pair] holds the dense logits, the context
    ids of every example, the argument counts and the label of the pool. *)
Definition convert_logits_to_ragged
  (pair : Dense3 * list (list Z) * list nat * string)
  : result (list (list (list float))) :=
  let '(logits, context_ids, arg_cnts, label) := pair in
  logits_ <- from_tensor (d_data logits) arg_cnts ;;
  gathered <- gather context_ids (value_rowids logits_) ;;
  context_ids_ <- with_values logits_ gathered ;;
  if String.eqb label "global"
  then
    zipM (zipM (fun row ids => mapM (lookup row) ids)) logits_ context_ids_
  else
    truncated <- from_tensor (values logits_)
                             (row_lengths (values context_ids_)) ;;
    with_values context_ids_ truncated.

(** [create_train_model] from the ragged logits of the two query-key
    products to the two ragged outputs of the model: conversion to dense
    tensors, mask and joint normalization (the step above), conversion back
    to ragged tensors.  [arg_cnts] are the row lengths of the hidden state
    sequences. *)
Definition create_train_model_outputs (dynamic_global_context : bool)
  (graph_constants : GraphConstants)
  (local_context_ids global_context_ids : list (list Z)) (arg_cnts : list nat)
  (local_arguments_logits global_arguments_logits : list (list (list float)))
  : result (list (list (list float)) * list (list (list float))) :=
  local_arguments_logits <-
    convert_ragged_logits_to_dense local_arguments_logits ;;
  global_arguments_logits <-
    convert_ragged_logits_to_dense global_arguments_logits ;;
  ' (normalized_local_arguments_logits, normalized_global_arguments_logits) <-
    create_train_model dynamic_global_context graph_constants
      global_context_ids local_arguments_logits global_arguments_logits ;;
  new_local_arguments_logits <-
    convert_logits_to_ragged
      (normalized_local_arguments_logits, local_context_ids, arg_cnts,
       "local"%string) ;;
  new_global_arguments_logits <-
    convert_logits_to_ragged
      (normalized_global_arguments_logits, global_context_ids, arg_cnts,
       "global"%string) ;;
  ret (new_local_arguments_logits, new_global_arguments_logits).
End GlobalArgumentPrediction.

Module DefinitionTask.
(** [_mask_defined_embeddings]: [sizes] are the node counts of the
    definition graphs, [hidden_state] the embedded states of all their
    nodes, graph after graph; the result is the new [hidden_state]
    feature.  The counts [num_definitions] are cast to int32 before they
    are compared with the node positions.  Operands are combined entry by
    entry and have to agree in size: the broadcast of an operand with a
    single entry is not modelled. *)
Definition _mask_defined_embeddings (sizes : list nat)
  (num_definitions : list Z) (hidden_state : list (list float))
  : result (list (list float)) :=
  let num_definitions := map cast_int32 num_definitions in
  let ranges := map (fun n => map Z.of_nat (seq 0 n)) sizes in
  is_defined <-
    zipM (fun row n => ret (map (fun j => (j <? n)%Z) row))
         ranges num_definitions ;;
  let mask := map (fun b => fsub (Fin 1) (cast_bool b)) (values is_defined) in
  zipM (fun row m => ret (map (fun x => fmul x m) row)) hidden_state mask.
End DefinitionTask.

(** ** Task construction *)

Definition BASE_TACTIC_PREDICTION : string := "base_tactic_prediction".
Definition LOCAL_ARGUMENT_PREDICTION : string := "local_argument_prediction".
Definition GLOBAL_ARGUMENT_PREDICTION : string := "global_argument_prediction".

(** The three task classes, as the values that
    [get_prediction_task_constructor] returns. *)
Inductive prediction_task_constructor : Type :=
| TacticPredictionClass
| LocalArgumentPredictionClass
| GlobalArgumentPredictionClass.

Definition get_prediction_task_constructor (prediction_task_type : string)
  : result prediction_task_constructor :=
  if String.eqb prediction_task_type BASE_TACTIC_PREDICTION
  then ret TacticPredictionClass
  else if String.eqb prediction_task_type LOCAL_ARGUMENT_PREDICTION
  then ret LocalArgumentPredictionClass
  else if String.eqb prediction_task_type GLOBAL_ARGUMENT_PREDICTION
  then ret GlobalArgumentPredictionClass
  else raise (ValueError (prediction_task_type
                          ++ " is not a valid prediction task type")).

(** ** Notions used in the statements *)

(** A label that is not the sentinel. *)
Definition is_valid (label : Z) : bool := negb (label =? sentinel)%Z.

(** The cells of [cells] that sit at the positions of the valid labels. *)
Definition select {A} (labels : list Z) (cells : list A) : list A :=
  map snd (filter (fun p => is_valid (fst p)) (combine labels cells)).

(** The cells of [cells] at the true positions of a boolean row. *)
Definition select_mask {A} (mask : list bool) (cells : list A) : list A :=
  map snd (filter (fun p => fst p) (combine mask cells)).

(** The logits that one example's valid labels point at: for every
    argument position whose label is not the sentinel, the entry of that
    position's row of normalized logits at the label. *)
Definition label_logits (labels : list Z) (rows : list (list float))
  : result (list float) :=
  mapM (fun p => lookup (snd p) (fst p))
       (filter (fun p => is_valid (fst p)) (combine labels rows)).


(** A list of scores that never increases. *)
Inductive sorted_desc : list float -> Prop :=
| sorted_desc_nil : sorted_desc []
| sorted_desc_one x : sorted_desc [x]
| sorted_desc_cons x y l :
    fge x y = true -> sorted_desc (y :: l) -> sorted_desc (x :: y :: l).

(** A score that is a real number. *)
Definition finite (x : float) : Prop := exists r, x = Fin r.

(** A score that is a real number or -inf: the logit of a candidate, or of
    a padded or masked entry. *)
Definition below_inf (x : float) : Prop :=
  match x with Fin _ | NInf => True | _ => False end.

(** The probability that a normalized logit stands for, as a real number. *)
Definition prob (x : float) : R :=
  match x with Fin a => exp a | _ => 0%R end.

Definition total_prob (l : list float) : R :=
  fold_right Rplus 0%R (map prob l).

(** The number of permitted tactics of a mask row. *)
Definition count_permitted (mask : list bool) : nat :=
  length (filter (fun b : bool => b) mask).

(** The row of logits at example [b] and argument position [a]. *)
Definition position {A} (t : list (list A)) (b a : nat) : option A :=
  match nth_error t b with
  | Some rows => nth_error rows a
  | None => None
  end.

(** The additive mask of one example in the words of the specification:
    log 1 = 0 at a listed entry of the global vocabulary, log 0 = -inf at
    any other. *)
Definition spec_mask_row (global_context_size : nat) (ids : list Z)
  : list float :=
  map (fun j => if existsb (fun id => (id =? Z.of_nat j)%Z) ids
                then Fin 0 else NInf)
      (seq 0 global_context_size).

(** The logits of the query-key product in the words of the claim: the
    entry at example [b], argument position [a] and candidate [c] is the dot
    product of query vector [(b, a)] with key vector [(b, c)]. *)
Definition spec_logits (queries keys : list (list (list float)))
  : list (list (list float)) :=
  map (fun p => map (fun q => map (fun k => dot q k) (snd p)) (fst p))
      (combine queries keys).

(** Every (key, query) pair of a batch, example after example, query after
    query, key after key. *)
Definition key_query_pairs (L : list (list (list float) * list (list float)))
  : list (list float * list float) :=
  concat (map (fun p => concat (map (fun qv => map (fun k => (k, qv)) (snd p))
                                    (fst p)))
              L).

(** The number of times the entry [j] of the global vocabulary is listed
    among the ids of an example. *)
Definition listings (ids : list Z) (j : nat) : nat :=
  length (filter (fun id => (id =? Z.of_nat j)%Z) ids).

(** A dense tensor of logits with the constant [c] added to every entry. *)
Definition shift_logits (c : R) (t : Dense3) : Dense3 :=
  mkDense3 (d_args t) (d_ctx t)
           (map (map (map (fun x => fadd x (Fin c)))) (d_data t)).

(** The scores over which [_top_k_tactics] selects for one example: the
    log-softmax of the logits plus the logarithm of the mask. *)
Definition masked_log_softmax (x : list float) (m : list bool) : list float :=
  log_softmax (map (fun q => fadd (fst q) (snd q))
                   (combine x (map (fun b => flog (cast_bool b)) m))).

(* ===================================================================== *)
(** * Part II: properties *)
(* ===================================================================== *)

(** ** The error monad and lists *)

Lemma bind_ret {A B} (a : A) (k : A -> result B) : bind (ret a) k = k a.
Proof. reflexivity. Qed.

Lemma bind_inv {A B} (m : result A) (k : A -> result B) (b : B) :
  bind m k = ret b -> exists a, m = ret a /\ k a = ret b.
Proof.
  destruct m as [e | a]; simpl; intros H.
  - discriminate.
  - exists a. split; [reflexivity | exact H].
Qed.

(** A successful bind: names its intermediate value [x] and the equation
    [Hx] that produced it, and leaves the continuation in [H]. *)
Ltac invert_bind H x Hx :=
  apply bind_inv in H; destruct H as [x [Hx H]].

Lemma mapM_app {A B} (f : A -> result B) (l1 l2 : list A) :
  mapM f (l1 ++ l2) =
  (x <- mapM f l1 ;; y <- mapM f l2 ;; ret (x ++ y)).
Proof.
  induction l1 as [| a l1 IH]; simpl.
  - destruct (mapM f l2); reflexivity.
  - destruct (f a) as [e | b]; simpl; [reflexivity |].
    rewrite IH. destruct (mapM f l1) as [e | x]; simpl; [reflexivity |].
    destruct (mapM f l2); reflexivity.
Qed.

Lemma mapM_map {A B C} (g : A -> B) (f : B -> result C) (l : list A) :
  mapM f (map g l) = mapM (fun a => f (g a)) l.
Proof.
  induction l as [| a l IH]; simpl; [reflexivity |].
  rewrite IH. reflexivity.
Qed.

Lemma mapM_ext_in {A B} (f g : A -> result B) (l : list A) :
  (forall a, In a l -> f a = g a) -> mapM f l = mapM g l.
Proof.
  induction l as [| a l IH]; simpl; intros H; [reflexivity |].
  rewrite (H a (or_introl eq_refl)), IH; [reflexivity |].
  intros b Hb. apply H. right. exact Hb.
Qed.

Lemma mapM_ret {A B} (f : A -> B) (l : list A) :
  mapM (fun a => ret (f a)) l = ret (map f l).
Proof.
  induction l as [| a l IH]; simpl; [reflexivity |].
  rewrite IH. reflexivity.
Qed.

Lemma mapM_length {A B} (f : A -> result B) (l : list A) (r : list B) :
  mapM f l = ret r -> length r = length l.
Proof.
  revert r. induction l as [| a l IH]; simpl; intros r H.
  - inversion H. reflexivity.
  - destruct (f a) as [e | b]; simpl in H; [discriminate |].
    destruct (mapM f l) as [e | bs]; simpl in H; [discriminate |].
    inversion H. simpl. f_equal. apply IH. reflexivity.
Qed.

Lemma mapM_nth {A B} (f : A -> result B) (l : list A) (r : list B) :
  mapM f l = ret r ->
  forall i a, nth_error l i = Some a ->
              exists b, nth_error r i = Some b /\ f a = ret b.
Proof.
  revert r. induction l as [| x l IH]; simpl; intros r H i a Hi.
  - destruct i; discriminate.
  - destruct (f x) as [e | b] eqn:Hf; simpl in H; [discriminate |].
    destruct (mapM f l) as [e | bs] eqn:Hm; simpl in H; [discriminate |].
    inversion H; subst r. destruct i as [| i]; simpl in *.
    + inversion Hi; subst. exists b. split; [reflexivity | exact Hf].
    + apply (IH bs eq_refl i a Hi).
Qed.

Lemma zipM_ret {A B C} (f : A -> B -> C) (l1 : list A) (l2 : list B) :
  length l1 = length l2 ->
  zipM (fun a b => ret (f a b)) l1 l2
  = ret (map (fun p => f (fst p) (snd p)) (combine l1 l2)).
Proof.
  intros H. unfold zipM. rewrite H, Nat.eqb_refl.
  apply (mapM_ret (fun p => f (fst p) (snd p))).
Qed.

Lemma zipM_length {A B C} (f : A -> B -> result C) l1 l2 r :
  zipM f l1 l2 = ret r -> length l1 = length l2 /\ length r = length l1.
Proof.
  unfold zipM. destruct (length l1 =? length l2) eqn:E; [| discriminate].
  apply Nat.eqb_eq in E. intros H. split; [exact E |].
  apply mapM_length in H. rewrite H, length_combine. lia.
Qed.

Lemma zipM_nth {A B C} (f : A -> B -> result C) l1 l2 r :
  zipM f l1 l2 = ret r ->
  forall i a b, nth_error l1 i = Some a -> nth_error l2 i = Some b ->
                exists c, nth_error r i = Some c /\ f a b = ret c.
Proof.
  unfold zipM. destruct (length l1 =? length l2) eqn:E; [| discriminate].
  intros H i a b Ha Hb.
  apply (mapM_nth _ _ _ H i (a, b)).
  clear H E. revert l2 i Ha Hb.
  induction l1 as [| x l1 IH]; intros l2 i Ha Hb.
  - destruct i; discriminate.
  - destruct l2 as [| y l2]; [destruct i; discriminate |].
    destruct i as [| i]; simpl in *.
    + inversion Ha; inversion Hb; reflexivity.
    + apply IH; assumption.
Qed.

Lemma nth_error_same_length {A B} (l1 : list A) (l2 : list B) i a :
  length l1 = length l2 -> nth_error l1 i = Some a ->
  exists b, nth_error l2 i = Some b.
Proof.
  intros Hl Ha.
  destruct (nth_error l2 i) as [b |] eqn:E; [exists b; reflexivity |].
  apply nth_error_None in E.
  assert (i < length l1) by (apply nth_error_Some; congruence). lia.
Qed.

(** ** Scores: basic facts *)

Lemma flog_zero : flog (Fin 0) = NInf.
Proof.
  unfold flog. destruct (Rlt_dec 0 0) as [H | _]; [lra |].
  destruct (Req_dec_T 0 0) as [_ | H]; [reflexivity | contradiction].
Qed.

Lemma flog_one : flog (Fin 1) = Fin 0.
Proof.
  unfold flog. destruct (Rlt_dec 0 1) as [_ | H]; [| lra].
  rewrite ln_1. reflexivity.
Qed.

Lemma flog_pos (a : R) : (0 < a)%R -> flog (Fin a) = Fin (ln a).
Proof.
  intros H. unfold flog. destruct (Rlt_dec 0 a); [reflexivity | contradiction].
Qed.

Lemma fge_fin (a b : R) : fge (Fin a) (Fin b) = true <-> (b <= a)%R.
Proof.
  simpl. destruct (Rle_dec b a); split; intros; try assumption;
    try reflexivity; try discriminate; contradiction.
Qed.

Lemma fgt_fin (a b : R) : fgt (Fin a) (Fin b) = true <-> (b < a)%R.
Proof.
  simpl. destruct (Rlt_dec b a); split; intros; try assumption;
    try reflexivity; try discriminate; contradiction.
Qed.

(** ** Configuration errors *)

(** C8, as stated, fails for the multiplication method: the constructor of
    [QueryKeyMul] accepts a selector that no branch of [call] knows. *)
Lemma unknown_method_is_constructed :
  "cosine"%string <> "map_fn"%string
  /\ "cosine"%string <> "broadcast_ragged"%string
  /\ "cosine"%string <> "ragged_to_dense_to_ragged"%string
  /\ QueryKeyMul.__init__ "cosine" = ret (QueryKeyMul.mk "cosine")
  /\ forall e, QueryKeyMul.__init__ "cosine" <> raise e.
Proof.
  repeat split; discriminate.
Qed.

(** C8, amended: an unknown task kind is refused by
    [get_prediction_task_constructor] with a [ValueError] that names it,
    before any task is built.  An unknown multiplication method is accepted
    by the constructor of [QueryKeyMul]; the layer's [call] refuses it with
    an exception that names it, whatever the queries and keys. *)
Theorem configuration_errors (kind method : string) :
  kind <> BASE_TACTIC_PREDICTION ->
  kind <> LOCAL_ARGUMENT_PREDICTION ->
  kind <> GLOBAL_ARGUMENT_PREDICTION ->
  method <> "map_fn"%string ->
  method <> "broadcast_ragged"%string ->
  method <> "ragged_to_dense_to_ragged"%string ->
  get_prediction_task_constructor kind
  = raise (ValueError (kind ++ " is not a valid prediction task type"))
  /\ QueryKeyMul.__init__ method = ret (QueryKeyMul.mk method)
  /\ forall hdim queries keys,
      QueryKeyMul.call (QueryKeyMul.mk method) hdim queries keys
      = raise (Exception ("Unsupported multiplication method: " ++ method)).
Proof.
  intros K1 K2 K3 M1 M2 M3.
  apply String.eqb_neq in K1, K2, K3, M1, M2, M3.
  split; [| split].
  - unfold get_prediction_task_constructor. rewrite K1, K2, K3. reflexivity.
  - reflexivity.
  - intros hdim queries keys. unfold QueryKeyMul.call. simpl.
    rewrite M1, M2, M3. reflexivity.
Qed.

Lemma configuration_errors_witness :
  get_prediction_task_constructor "tactic"
  = raise (ValueError "tactic is not a valid prediction task type")
  /\ QueryKeyMul.__init__ "cosine" = ret (QueryKeyMul.mk "cosine")
  /\ forall hdim queries keys,
      QueryKeyMul.call (QueryKeyMul.mk "cosine") hdim queries keys
      = raise (Exception "Unsupported multiplication method: cosine").
Proof.
  apply (configuration_errors "tactic" "cosine"); discriminate.
Defined.

(** The known selectors are accepted. *)
Lemma get_prediction_task_constructor_known :
  get_prediction_task_constructor BASE_TACTIC_PREDICTION
  = ret TacticPredictionClass
  /\ get_prediction_task_constructor LOCAL_ARGUMENT_PREDICTION
     = ret LocalArgumentPredictionClass
  /\ get_prediction_task_constructor GLOBAL_ARGUMENT_PREDICTION
     = ret GlobalArgumentPredictionClass.
Proof. repeat split. Qed.

(** ** [ragged_logits] *)

Lemma combine_map_snd {A B C} (f : B -> C) (l1 : list A) (l2 : list B) :
  combine l1 (map f l2) = map (fun p => (fst p, f (snd p))) (combine l1 l2).
Proof.
  revert l2. induction l1 as [| a l1 IH]; intros [| b l2]; simpl;
    try reflexivity.
  rewrite IH. reflexivity.
Qed.

Lemma combine_map_fst {A B C} (f : A -> C) (l1 : list A) (l2 : list B) :
  combine (map f l1) l2 = map (fun p => (f (fst p), snd p)) (combine l1 l2).
Proof.
  revert l2. induction l1 as [| a l1 IH]; intros [| b l2]; simpl;
    try reflexivity.
  rewrite IH. reflexivity.
Qed.

Lemma from_tensor_ok {A} (t : list (list A)) (lengths : list nat) :
  length t = length lengths ->
  from_tensor t lengths
  = ret (map (fun p => firstn (snd p) (fst p)) (combine t lengths)).
Proof.
  intros H. unfold from_tensor. rewrite H, Nat.eqb_refl. reflexivity.
Qed.

(** C10: with a context axis of size 0 the result has the row lengths of
    the ground truth and one dummy candidate per position, of logit
    log 0 = -inf; otherwise every example keeps as many rows of the input
    logits as it has ground-truth arguments. *)
Theorem ragged_logits_spec (y_true : list (list Z)) (y_pred : Dense3) :
  (d_ctx y_pred = 0 ->
   exists logits,
     ragged_logits y_true y_pred = ret logits
     /\ row_lengths logits = row_lengths y_true
     /\ Forall (Forall (fun row => row = [flog (Fin 0)] /\ row = [NInf]))
               logits)
  /\ (d_ctx y_pred <> 0 ->
      length (d_data y_pred) = length y_true ->
      ragged_logits y_true y_pred
      = ret (map (fun p => firstn (length (snd p)) (fst p))
                 (combine (d_data y_pred) y_true))).
Proof.
  split.
  - intros H0. unfold ragged_logits. rewrite H0. cbn [Nat.eqb].
    eexists. split; [reflexivity |]. split.
    + unfold row_lengths. rewrite !map_map. apply map_ext.
      intros row. rewrite !length_map. reflexivity.
    + rewrite !map_map. apply Forall_forall. intros rows Hrows.
      apply in_map_iff in Hrows. destruct Hrows as [labels [<- _]].
      rewrite !map_map. apply Forall_forall. intros row Hrow.
      apply in_map_iff in Hrow. destruct Hrow as [label [<- _]].
      rewrite flog_zero. split; reflexivity.
  - intros Hn Hb. unfold ragged_logits.
    destruct (d_ctx y_pred =? 0) eqn:E; [apply Nat.eqb_eq in E; contradiction |].
    rewrite from_tensor_ok by (unfold row_lengths; rewrite length_map; exact Hb).
    f_equal. unfold row_lengths. rewrite combine_map_snd, map_map.
    reflexivity.
Qed.

Lemma ragged_logits_spec_witness :
  (exists logits,
      ragged_logits [[3; -1]; []]%Z (mkDense3 2 0 [[[]; []]; [[]; []]])
      = ret logits
      /\ row_lengths logits = row_lengths [[3; -1]; []]%Z
      /\ Forall (Forall (fun row => row = [flog (Fin 0)] /\ row = [NInf]))
                logits)
  /\ ragged_logits [[3]; []]%Z
       (mkDense3 2 1 [[[Fin 1]; [Fin 2]]; [[Fin 0]; [Fin 0]]])
     = ret [[[Fin 1]]; []].
Proof.
  split.
  - apply (proj1 (ragged_logits_spec [[3; -1]; []]%Z
                    (mkDense3 2 0 [[[]; []]; [[]; []]]))).
    reflexivity.
  - apply (proj2 (ragged_logits_spec [[3]; []]%Z
                    (mkDense3 2 1 [[[Fin 1]; [Fin 2]]; [[Fin 0]; [Fin 0]]]))).
    + simpl. discriminate.
    + reflexivity.
Defined.

(** ** Filtering out the sentinel *)

Lemma enumerate_from_cons {A} (i : nat) (x : A) (l : list A) :
  enumerate_from i (x :: l) = (i, x) :: enumerate_from (S i) l.
Proof. reflexivity. Qed.

Lemma enumerate_from_app {A} (i : nat) (l1 l2 : list A) :
  enumerate_from i (l1 ++ l2)
  = enumerate_from i l1 ++ enumerate_from (i + length l1) l2.
Proof.
  revert i. induction l1 as [| x l1 IH]; intros i.
  - simpl. rewrite Nat.add_0_r. reflexivity.
  - rewrite <- app_comm_cons, !enumerate_from_cons, IH. simpl.
    rewrite Nat.add_succ_r. reflexivity.
Qed.

Lemma enumerate_from_map {A B} (f : A -> B) (i : nat) (l : list A) :
  enumerate_from i (map f l)
  = map (fun p => (fst p, f (snd p))) (enumerate_from i l).
Proof.
  unfold enumerate_from. rewrite length_map. apply combine_map_snd.
Qed.

Lemma filter_enumerate_false (i k : nat) :
  filter (fun q : nat * bool => snd q) (enumerate_from i (repeat false k)) = [].
Proof.
  revert i. induction k as [| k IH]; intros i; [reflexivity |].
  simpl repeat. rewrite enumerate_from_cons. simpl. apply IH.
Qed.

Lemma tf_where_padding (rows : list (list Z)) (n : nat) :
  tf_where (not_equal sentinel
              (map (fun row => row ++ repeat sentinel (n - length row)) rows))
  = tf_where (not_equal sentinel rows).
Proof.
  unfold tf_where, not_equal, enumerate. rewrite map_map.
  rewrite !enumerate_from_map, !flat_map_concat_map, !map_map.
  f_equal. apply map_ext. intros [b row]. simpl.
  rewrite map_app, enumerate_from_app, filter_app, map_app.
  rewrite map_repeat. simpl. rewrite filter_enumerate_false. simpl.
  apply app_nil_r.
Qed.

Lemma gather_row {A} (mask : list bool) :
  forall (row pre : list A),
    length mask <= length row ->
    mapM (fun q : nat * bool =>
            match nth_error (pre ++ row) (fst q) with
            | Some a => ret a
            | None => raise InvalidArgumentError
            end)
         (filter (fun q => snd q) (enumerate_from (length pre) mask))
    = ret (select_mask mask row).
Proof.
  induction mask as [| c mask IH]; intros row pre Hlen; [reflexivity |].
  destruct row as [| x row]; [simpl in Hlen; lia |].
  rewrite enumerate_from_cons.
  assert (Hrec :
    mapM (fun q : nat * bool =>
            match nth_error (pre ++ x :: row) (fst q) with
            | Some a => ret a
            | None => raise InvalidArgumentError
            end)
         (filter (fun q => snd q) (enumerate_from (S (length pre)) mask))
    = ret (select_mask mask row)).
  { specialize (IH row (pre ++ [x])).
    rewrite <- app_assoc, length_app in IH. simpl in IH.
    rewrite Nat.add_1_r in IH. apply IH. simpl in Hlen. lia. }
  unfold select_mask in *. destruct c; simpl.
  - rewrite nth_error_app2 by lia. rewrite Nat.sub_diag. simpl.
    rewrite Hrec. reflexivity.
  - exact Hrec.
Qed.

Lemma gather_nd_where {A} (mask : list (list bool)) :
  forall (t pre : list (list A)),
    Forall2 (fun m row => length m <= length row) mask t ->
    gather_nd (pre ++ t)
      (flat_map (fun p => map (fun q => (fst p, fst q))
                              (filter (fun q : nat * bool => snd q)
                                      (enumerate (snd p))))
                (enumerate_from (length pre) mask))
    = ret (concat (map (fun p => select_mask (fst p) (snd p))
                       (combine mask t))).
Proof.
  unfold gather_nd.
  induction mask as [| m mask IH]; intros t pre Hall; [reflexivity |].
  inversion Hall as [| m' row mask' t' Hm Hrest]; subst.
  rewrite enumerate_from_cons. simpl flat_map. rewrite mapM_app.
  rewrite mapM_map. simpl fst.
  rewrite nth_error_app2 by lia. rewrite Nat.sub_diag. simpl nth_error.
  unfold enumerate.
  pose proof (gather_row m row [] Hm) as Hrow. simpl in Hrow.
  rewrite Hrow, bind_ret.
  specialize (IH t' (pre ++ [row])).
  rewrite <- app_assoc, length_app in IH. simpl in IH.
  rewrite Nat.add_1_r in IH. unfold enumerate in IH.
  rewrite (IH Hrest). reflexivity.
Qed.

Lemma gather_nd_tf_where {A} (mask : list (list bool)) (t : list (list A)) :
  Forall2 (fun m row => length m <= length row) mask t ->
  gather_nd t (tf_where mask)
  = ret (concat (map (fun p => select_mask (fst p) (snd p))
                     (combine mask t))).
Proof. intros H. apply (gather_nd_where mask t [] H). Qed.

Lemma select_mask_labels {A} (labels : list Z) (cells : list A) :
  select_mask (map (fun y => negb (y =? sentinel)%Z) labels) cells
  = select labels cells.
Proof.
  unfold select_mask, select, is_valid. revert cells.
  induction labels as [| y labels IH]; intros [| c cells]; simpl;
    try reflexivity.
  destruct (y =? sentinel)%Z; simpl; rewrite IH; reflexivity.
Qed.

Lemma select_self_padded (labels : list Z) (k : nat) :
  select labels (labels ++ repeat sentinel k) = filter is_valid labels.
Proof.
  unfold select. induction labels as [| y labels IH]; simpl.
  - reflexivity.
  - destruct (is_valid y); simpl; rewrite IH; reflexivity.
Qed.

Lemma combine_map_same {A B C} (f : A -> B) (g : A -> C) (l : list A) :
  combine (map f l) (map g l) = map (fun x => (f x, g x)) l.
Proof.
  induction l as [| a l IH]; simpl; [reflexivity |].
  rewrite IH. reflexivity.
Qed.

Lemma combine_app {A B} (l1 l2 : list A) (r1 r2 : list B) :
  length l1 = length r1 ->
  combine (l1 ++ l2) (r1 ++ r2) = combine l1 r1 ++ combine l2 r2.
Proof.
  revert r1. induction l1 as [| a l1 IH]; intros [| b r1] H; simpl in *;
    try discriminate; [reflexivity |].
  rewrite IH by lia. reflexivity.
Qed.

Lemma Forall2_padded_labels (y_true : list (list Z)) (n : nat) :
  Forall2 (fun (m : list bool) (row : list Z) => length m <= length row)
          (not_equal sentinel y_true)
          (map (fun row => row ++ repeat sentinel (n - length row)) y_true).
Proof.
  unfold not_equal. induction y_true as [| row rows IH]; simpl; constructor.
  - rewrite length_map, length_app. lia.
  - exact IH.
Qed.

Lemma Forall2_mask_rows {A} (y_true : list (list Z)) (t : list (list A)) :
  Forall2 (fun labels rows => length labels <= length rows) y_true t ->
  Forall2 (fun (m : list bool) rows => length m <= length rows)
          (not_equal sentinel y_true) t.
Proof.
  unfold not_equal. induction 1; simpl; constructor.
  - rewrite length_map. assumption.
  - assumption.
Qed.

Lemma gather_labels (y_true : list (list Z)) :
  gather_nd (to_tensor sentinel y_true)
            (tf_where (not_equal sentinel (to_tensor sentinel y_true)))
  = ret (concat (map (filter is_valid) y_true)).
Proof.
  unfold to_tensor. rewrite tf_where_padding.
  rewrite gather_nd_tf_where by apply Forall2_padded_labels.
  f_equal. f_equal. unfold not_equal.
  rewrite combine_map_same, map_map. apply map_ext. intros row. simpl.
  rewrite select_mask_labels. apply select_self_padded.
Qed.

Lemma gather_cells {A} (y_true : list (list Z)) (t : list (list A)) :
  Forall2 (fun labels rows => length labels <= length rows) y_true t ->
  gather_nd t (tf_where (not_equal sentinel (to_tensor sentinel y_true)))
  = ret (concat (map (fun p => select (fst p) (snd p)) (combine y_true t))).
Proof.
  intros H. unfold to_tensor. rewrite tf_where_padding.
  rewrite gather_nd_tf_where by (apply Forall2_mask_rows; exact H).
  f_equal. f_equal. unfold not_equal.
  rewrite combine_map_fst, map_map. apply map_ext. intros [labels rows].
  simpl. apply select_mask_labels.
Qed.

(** The dense filter keeps, example after example, the labels that are not
    the sentinel and the logit rows of their positions. *)
Lemma arguments_filter_spec (y_true : list (list Z)) (y_pred : Dense3) :
  Forall2 (fun labels rows => length labels <= length rows)
          y_true (d_data y_pred) ->
  arguments_filter y_true y_pred
  = ret (concat (map (filter is_valid) y_true),
         concat (map (fun p => select (fst p) (snd p))
                     (combine y_true (d_data y_pred)))).
Proof.
  intros H. unfold arguments_filter.
  rewrite gather_labels, bind_ret, (gather_cells _ _ H). reflexivity.
Qed.




(** *** Regrouping by row ids *)

Lemma filter_combine_repeat {A} (i b : nat) (r : list A) :
  filter (fun p : nat * A => fst p =? b) (combine (repeat i (length r)) r)
  = if i =? b then combine (repeat i (length r)) r else [].
Proof.
  induction r as [| x r IH]; simpl.
  - destruct (i =? b); reflexivity.
  - rewrite IH. destruct (i =? b); reflexivity.
Qed.

Lemma map_snd_combine_repeat {A} (i : nat) (r : list A) :
  map snd (combine (repeat i (length r)) r) = r.
Proof.
  induction r as [| x r IH]; simpl; [reflexivity |].
  rewrite IH. reflexivity.
Qed.

Lemma rowids_from_cons {A} (i : nat) (r : list A) (rs : list (list A)) :
  flat_map (fun p : nat * list A => repeat (fst p) (length (snd p)))
           (enumerate_from i (r :: rs))
  = repeat i (length r)
    ++ flat_map (fun p : nat * list A => repeat (fst p) (length (snd p)))
                (enumerate_from (S i) rs).
Proof. reflexivity. Qed.

Lemma filter_later_rows {A} (rs : list (list A)) :
  forall j b, b < j ->
    filter (fun p : nat * A => fst p =? b)
      (combine (flat_map (fun p : nat * list A =>
                            repeat (fst p) (length (snd p)))
                         (enumerate_from j rs))
               (concat rs))
    = [].
Proof.
  induction rs as [| r rs IH]; intros j b Hb; [reflexivity |].
  rewrite rowids_from_cons. simpl concat.
  rewrite combine_app by apply repeat_length.
  rewrite filter_app, filter_combine_repeat.
  destruct (j =? b) eqn:E; [apply Nat.eqb_eq in E; lia |].
  simpl. apply IH. lia.
Qed.

Lemma from_value_rowids_from {A} (rs : list (list A)) :
  forall i,
    map (fun b =>
           map snd
             (filter (fun p : nat * A => fst p =? b)
                (combine (flat_map (fun p : nat * list A =>
                                      repeat (fst p) (length (snd p)))
                                   (enumerate_from i rs))
                         (concat rs))))
        (seq i (length rs))
    = rs.
Proof.
  induction rs as [| r rs IH]; intros i; [reflexivity |].
  rewrite rowids_from_cons. simpl concat. simpl length. simpl seq.
  rewrite combine_app by apply repeat_length. simpl map. f_equal.
  - rewrite filter_app, filter_combine_repeat, Nat.eqb_refl.
    rewrite filter_later_rows by lia.
    rewrite app_nil_r. apply map_snd_combine_repeat.
  - rewrite <- (IH (S i)) at 2. apply map_ext_in. intros b Hb.
    apply in_seq in Hb. rewrite filter_app, filter_combine_repeat.
    destruct (i =? b) eqn:E; [apply Nat.eqb_eq in E; lia |].
    reflexivity.
Qed.

Lemma from_value_rowids_rows {A} (rs : list (list A)) :
  from_value_rowids (concat rs) (value_rowids rs) (length rs) = rs.
Proof. apply (from_value_rowids_from rs 0). Qed.

Lemma where_row_ids_row (m : list bool) (b : nat) :
  forall j,
    map fst (map (fun q : nat * bool => (b, fst q))
                 (filter (fun q => snd q) (enumerate_from j m)))
    = repeat b (length (filter (fun c : bool => c) m)).
Proof.
  induction m as [| c m IH]; intros j; [reflexivity |].
  rewrite enumerate_from_cons. destruct c; simpl; rewrite IH; reflexivity.
Qed.

Lemma where_row_ids_from {A} (mask : list (list bool)) (rs : list (list A)) :
  Forall2 (fun m r => length (filter (fun c : bool => c) m) = length r)
          mask rs ->
  forall i,
    map fst
        (flat_map (fun p => map (fun q => (fst p, fst q))
                                (filter (fun q : nat * bool => snd q)
                                        (enumerate (snd p))))
                  (enumerate_from i mask))
    = flat_map (fun p : nat * list A => repeat (fst p) (length (snd p)))
               (enumerate_from i rs).
Proof.
  induction 1 as [| m r mask rs Hm _ IH]; intros i; [reflexivity |].
  rewrite !enumerate_from_cons. simpl flat_map. rewrite map_app.
  unfold enumerate at 1. rewrite where_row_ids_row, Hm, IH. reflexivity.
Qed.

Lemma where_row_ids {A} (mask : list (list bool)) (rs : list (list A)) :
  Forall2 (fun m r => length (filter (fun c : bool => c) m) = length r)
          mask rs ->
  map fst (tf_where mask) = value_rowids rs.
Proof. intros H. apply (where_row_ids_from _ _ H 0). Qed.

Lemma count_valid_labels (labels : list Z) :
  length (filter (fun c : bool => c)
                 (map (fun y => negb (y =? sentinel)%Z) labels))
  = length (filter is_valid labels).
Proof.
  unfold is_valid. induction labels as [| y l IH]; simpl; [reflexivity |].
  destruct (y =? sentinel)%Z; simpl; rewrite IH; reflexivity.
Qed.

Lemma length_select {A} (labels : list Z) (cells : list A) :
  length labels <= length cells ->
  length (select labels cells) = length (filter is_valid labels).
Proof.
  unfold select. revert cells.
  induction labels as [| y l IH]; intros [| c cells] H; simpl in *;
    try reflexivity; try lia.
  destruct (is_valid y); simpl; rewrite IH by lia; reflexivity.
Qed.

(** The ragged filter keeps the row grouping: row [b] of its results holds
    the valid labels of example [b] and the logit rows of their positions. *)
Lemma ragged_arguments_filter_spec
  (y_true : list (list Z)) (y_pred : list (list (list float))) :
  Forall2 (fun labels rows => length labels <= length rows) y_true y_pred ->
  ArgumentSparseCategoricalCrossentropy.arguments_filter y_true y_pred
  = ret (map (filter is_valid) y_true,
         map (fun p => select (fst p) (snd p)) (combine y_true y_pred)).
Proof.
  intros H. unfold ArgumentSparseCategoricalCrossentropy.arguments_filter.
  rewrite gather_labels, bind_ret, (gather_cells _ _ H), bind_ret.
  unfold to_tensor. rewrite tf_where_padding.
  f_equal. f_equal.
  - rewrite (where_row_ids (not_equal sentinel y_true)
                           (map (filter is_valid) y_true)).
    + rewrite <- (length_map (filter is_valid) y_true).
      apply from_value_rowids_rows.
    + unfold not_equal. clear H.
      induction y_true as [| l ls IH]; simpl; constructor;
        [apply count_valid_labels | exact IH].
  - rewrite (where_row_ids (not_equal sentinel y_true)
               (map (fun p => select (fst p) (snd p)) (combine y_true y_pred))).
    + replace (length y_true)
        with (length (map (fun p : list Z * list (list float) =>
                             select (fst p) (snd p))
                          (combine y_true y_pred))).
      * apply from_value_rowids_rows.
      * rewrite length_map, length_combine.
        apply Forall2_length in H. lia.
    + unfold not_equal.
      induction H as [| l r ls rs Hl _ IH]; simpl; constructor;
        [| exact IH].
      rewrite count_valid_labels. symmetry. apply length_select. exact Hl.
Qed.

(** ** The argument losses *)

Lemma fadd_0_r (x : float) : fadd x (Fin 0) = x.
Proof. destruct x; simpl; try reflexivity. f_equal. lra. Qed.

Lemma zipM_map_same {A B C D} (f : B -> C -> result D)
  (g : A -> B) (h : A -> C) (l : list A) :
  zipM f (map g l) (map h l) = mapM (fun x => f (g x) (h x)) l.
Proof.
  unfold zipM. rewrite !length_map, Nat.eqb_refl.
  rewrite combine_map_same, mapM_map. reflexivity.
Qed.

Lemma map_fst_combine {A B C} (f : A -> C) (l1 : list A) (l2 : list B) :
  length l1 = length l2 ->
  map f l1 = map (fun p => f (fst p)) (combine l1 l2).
Proof.
  revert l2. induction l1 as [| a l1 IH]; intros [| b l2] H; simpl in *;
    try discriminate; [reflexivity |].
  rewrite (IH l2) by lia. reflexivity.
Qed.

Lemma zipM_select (labels : list Z) (rows : list (list float)) :
  length labels <= length rows ->
  zipM (@lookup float) (select labels rows) (filter is_valid labels)
  = label_logits labels rows.
Proof.
  intros H. unfold zipM, label_logits.
  rewrite (length_select _ _ H), Nat.eqb_refl.
  replace (combine (select labels rows) (filter is_valid labels))
    with (map (fun p : Z * list float => (snd p, fst p))
              (filter (fun p => is_valid (fst p)) (combine labels rows))).
  - rewrite mapM_map. reflexivity.
  - unfold select. revert rows H.
    induction labels as [| y l IH]; intros [| r rows] H; simpl in *;
      try reflexivity; try lia.
    destruct (is_valid y); simpl; rewrite IH by lia; reflexivity.
Qed.

Lemma ragged_loss_gather (y_true : list (list Z))
  (y_pred : list (list (list float))) :
  Forall2 (fun labels rows => length labels <= length rows) y_true y_pred ->
  zipM (fun preds labels => zipM (@lookup float) preds labels)
       (map (fun p => select (fst p) (snd p)) (combine y_true y_pred))
       (map (filter is_valid) y_true)
  = mapM (fun p => label_logits (fst p) (snd p)) (combine y_true y_pred).
Proof.
  intros H.
  rewrite (map_fst_combine (filter is_valid) y_true y_pred
             (Forall2_length H)).
  rewrite (zipM_map_same (fun preds labels => zipM (@lookup float) preds labels)
             (fun p : list Z * list (list float) => select (fst p) (snd p))
             (fun p => filter is_valid (fst p))).
  apply mapM_ext_in. intros [labels rows] Hin. simpl.
  apply zipM_select.
  clear - H Hin. induction H as [| l r ls rs Hl _ IH]; simpl in Hin.
  - contradiction.
  - destruct Hin as [Heq | Hin]; [inversion Heq; subst; exact Hl | auto].
Qed.

(** C3: the per-position loss of a non-sentinel argument is the negated
    normalized logit at its label.  With [sum_loss_over_tactic] the loss has
    one entry per example, the sum of that example's per-position losses
    (0 when it has none); without it the loss has one entry per
    non-sentinel argument of the batch, in order, and nothing for an
    example without valid positions.  For the losses [a], [b] of one
    example followed by an example without valid positions this is
    [a + b; 0] against [a; b]. *)
Theorem argument_loss_policies
  (y_true : list (list Z)) (y_pred : list (list (list float)))
  (logits : list (list float)) :
  Forall2 (fun labels rows => length labels <= length rows) y_true y_pred ->
  mapM (fun p => label_logits (fst p) (snd p)) (combine y_true y_pred)
  = ret logits ->
  let losses := map (map fneg) logits in
  ArgumentSparseCategoricalCrossentropy.call true y_true y_pred
  = ret (map reduce_sum losses)
  /\ ArgumentSparseCategoricalCrossentropy.call false y_true y_pred
     = ret (concat losses)
  /\ length (map reduce_sum losses) = length y_true
  /\ (forall a b, losses = [[a; b]; []] ->
                  map reduce_sum losses = [fadd a b; Fin 0]
                  /\ concat losses = [a; b]).
Proof.
  intros Hshape Hlog losses.
  assert (Hcall : forall flag,
    ArgumentSparseCategoricalCrossentropy.call flag y_true y_pred
    = ret (if flag then map reduce_sum losses else concat losses)).
  { intros flag. unfold ArgumentSparseCategoricalCrossentropy.call.
    rewrite (ragged_arguments_filter_spec _ _ Hshape), bind_ret.
    rewrite (ragged_loss_gather _ _ Hshape), Hlog, bind_ret.
    destruct flag; reflexivity. }
  split; [apply (Hcall true) |]. split; [apply (Hcall false) |]. split.
  - unfold losses. rewrite !length_map.
    apply mapM_length in Hlog. rewrite Hlog, length_combine.
    apply Forall2_length in Hshape. lia.
  - intros a b ->. simpl. rewrite fadd_0_r. split; reflexivity.
Qed.

Lemma argument_loss_policies_witness :
  ArgumentSparseCategoricalCrossentropy.call true
    [[1; 0]; [-1]]%Z
    [[[Fin (-1); Fin (-2)]; [Fin (-3)]]; [[Fin (-4)]]]
  = ret [fadd (Fin (- -2)) (fadd (Fin (- -3)) (Fin 0)); Fin 0]
  /\ ArgumentSparseCategoricalCrossentropy.call false
       [[1; 0]; [-1]]%Z
       [[[Fin (-1); Fin (-2)]; [Fin (-3)]]; [[Fin (-4)]]]
     = ret [Fin (- -2); Fin (- -3)].
Proof.
  assert (Hshape :
    Forall2 (fun (labels : list Z) (rows : list (list float)) =>
               length labels <= length rows)
            [[1; 0]; [-1]]%Z
            [[[Fin (-1); Fin (-2)]; [Fin (-3)]]; [[Fin (-4)]]]).
  { repeat constructor. }
  destruct (@argument_loss_policies
              [[1; 0]; [-1]]%Z
              [[[Fin (-1); Fin (-2)]; [Fin (-3)]]; [[Fin (-4)]]]
              [[Fin (-2); Fin (-3)]; []] Hshape eq_refl)
    as [Hsum [Hflat _]].
  split; [exact Hsum | exact Hflat].
Defined.








(** ** The mask of permitted tactics *)

Lemma zipM_cons {A B C} (f : A -> B -> result C) a b l1 l2 :
  length l1 = length l2 ->
  zipM f (a :: l1) (b :: l2)
  = (c <- f a b ;; cs <- zipM f l1 l2 ;; ret (c :: cs)).
Proof.
  intros H. unfold zipM. simpl. rewrite H, Nat.eqb_refl. reflexivity.
Qed.

Lemma map_snd_combine {A B C} (g : B -> C) (l1 : list A) (l2 : list B) :
  length l1 = length l2 ->
  map (fun q => g (snd q)) (combine l1 l2) = map g l2.
Proof.
  revert l2. induction l1 as [| a l1 IH]; intros [| b l2] H; simpl in *;
    try discriminate; [reflexivity |].
  rewrite IH by lia. reflexivity.
Qed.







(** ** Top-k tactic selection *)

Lemma fge_total (x y : float) :
  below_inf x -> below_inf y -> fge x y = false -> fge y x = true.
Proof.
  destruct x, y; simpl; try contradiction; try discriminate; intros _ _;
    try reflexivity.
  destruct (Rle_dec r0 r), (Rle_dec r r0); try reflexivity; try discriminate.
  lra.
Qed.

Lemma insert_desc_perm (p : nat * float) (l : list (nat * float)) :
  Permutation (p :: l) (insert_desc p l).
Proof.
  induction l as [| r l IH]; simpl; [apply Permutation_refl |].
  destruct (fge (snd p) (snd r)); [apply Permutation_refl |].
  eapply Permutation_trans; [apply perm_swap |].
  apply perm_skip. exact IH.
Qed.

Lemma sort_desc_perm (l : list (nat * float)) :
  Permutation l (sort_desc l).
Proof.
  induction l as [| p l IH]; simpl; [apply Permutation_refl |].
  eapply Permutation_trans; [apply perm_skip; exact IH |].
  apply insert_desc_perm.
Qed.

Lemma insert_desc_sorted (p : nat * float) (l : list (nat * float)) :
  below_inf (snd p) -> Forall (fun q => below_inf (snd q)) l ->
  sorted_desc (map snd l) -> sorted_desc (map snd (insert_desc p l)).
Proof.
  intros Hp Hl Hs. induction l as [| q l IH]; simpl.
  - constructor.
  - inversion Hl as [| ? ? Hq Hl']; subst.
    destruct (fge (snd p) (snd q)) eqn:E; simpl.
    + constructor; assumption.
    + assert (Hqp : fge (snd q) (snd p) = true)
        by (apply fge_total; assumption).
      assert (Hs' : sorted_desc (map snd l))
        by (simpl in Hs; inversion Hs; subst; [constructor | assumption]).
      specialize (IH Hl' Hs').
      destruct l as [| r l]; simpl in *.
      * constructor; [exact Hqp | constructor].
      * destruct (fge (snd p) (snd r)); simpl in *.
        -- constructor; [exact Hqp | exact IH].
        -- constructor; [| exact IH]. inversion Hs; assumption.
Qed.

Lemma sort_desc_sorted (l : list (nat * float)) :
  Forall (fun q => below_inf (snd q)) l ->
  sorted_desc (map snd (sort_desc l)).
Proof.
  induction 1 as [| p l Hp Hl IH]; simpl; [constructor |].
  apply insert_desc_sorted; [exact Hp | | exact IH].
  apply Forall_forall. intros q Hq.
  apply (Permutation_in q (Permutation_sym (sort_desc_perm l))) in Hq.
  revert q Hq. apply Forall_forall. exact Hl.
Qed.

Lemma sorted_desc_firstn (k : nat) (l : list float) :
  sorted_desc l -> sorted_desc (firstn k l).
Proof.
  intros H. revert k. induction H as [| x | x y l Hxy Hs IH]; intros k.
  - rewrite firstn_nil. constructor.
  - destruct k as [| [| k]]; simpl; constructor.
  - destruct k as [| [| k]]; simpl; try constructor; [exact Hxy |].
    apply (IH (S k)).
Qed.

(** ** Sums of exponentials over candidates *)

Lemma below_inf_finite (x : float) : finite x -> below_inf x.
Proof. intros [r ->]. exact I. Qed.

Lemma prob_nonneg (x : float) : (0 <= prob x)%R.
Proof.
  destruct x; simpl; try lra. left. apply exp_pos.
Qed.

Lemma total_prob_nonneg (l : list float) : (0 <= total_prob l)%R.
Proof.
  unfold total_prob. induction l as [| x l IH]; simpl; [lra |].
  pose proof (prob_nonneg x). lra.
Qed.

Lemma total_prob_pos (l : list float) :
  Exists finite l -> (0 < total_prob l)%R.
Proof.
  unfold total_prob. induction 1 as [x l [r ->] | x l _ IH]; simpl.
  - pose proof (exp_pos r). pose proof (total_prob_nonneg l).
    unfold total_prob in *. lra.
  - pose proof (prob_nonneg x). lra.
Qed.

Lemma total_prob_app (l1 l2 : list float) :
  total_prob (l1 ++ l2) = (total_prob l1 + total_prob l2)%R.
Proof.
  unfold total_prob. induction l1 as [| x l IH]; simpl; [lra |].
  rewrite IH. lra.
Qed.

Lemma reduce_sum_exp (l : list float) :
  Forall below_inf l -> reduce_sum (map fexp l) = Fin (total_prob l).
Proof.
  unfold total_prob, reduce_sum.
  induction 1 as [| x l Hx _ IH]; simpl; [reflexivity |].
  rewrite IH. destruct x; simpl in *; try contradiction; reflexivity.
Qed.

Lemma fmax_below_inf (x y : float) :
  below_inf x -> below_inf y -> below_inf (fmax x y).
Proof.
  destruct x, y; simpl; try contradiction; intros _ _; try exact I.
  destruct (Rle_dec r0 r); exact I.
Qed.

Lemma reduce_max_below_inf (l : list float) :
  Forall below_inf l -> below_inf (reduce_max l).
Proof.
  induction 1 as [| x l Hx _ IH]; simpl; [exact I |].
  apply fmax_below_inf; assumption.
Qed.

Lemma fmax_finite_l (x y : float) :
  finite x -> below_inf y -> finite (fmax x y).
Proof.
  intros [a ->]. destruct y; simpl; try contradiction; intros _.
  - destruct (Rle_dec r a); eexists; reflexivity.
  - eexists; reflexivity.
Qed.

Lemma fmax_finite_r (x y : float) :
  below_inf x -> finite y -> finite (fmax x y).
Proof.
  intros Hx [b ->]. destruct x; simpl in *; try contradiction.
  - destruct (Rle_dec b r); eexists; reflexivity.
  - eexists; reflexivity.
Qed.

Lemma reduce_max_finite (l : list float) :
  Forall below_inf l -> Exists finite l -> finite (reduce_max l).
Proof.
  intros Hall Hex. induction Hex as [x l Hx | x l _ IH]; simpl;
    inversion Hall; subst.
  - apply fmax_finite_l; [exact Hx |]. apply reduce_max_below_inf. assumption.
  - apply fmax_finite_r; [assumption |]. apply IH. assumption.
Qed.

Lemma shift_below_inf (c : R) (l : list float) :
  Forall below_inf l -> Forall below_inf (map (fun x => fadd x (Fin c)) l).
Proof.
  induction 1 as [| x l Hx _ IH]; simpl; constructor; [| exact IH].
  destruct x; simpl in *; try contradiction; exact I.
Qed.

Lemma shift_exists_finite (c : R) (l : list float) :
  Exists finite l -> Exists finite (map (fun x => fadd x (Fin c)) l).
Proof.
  induction 1 as [x l [r ->] | x l _ IH]; simpl.
  - left. eexists. reflexivity.
  - right. exact IH.
Qed.

Lemma total_prob_shift (c : R) (l : list float) :
  Forall below_inf l ->
  total_prob (map (fun x => fadd x (Fin c)) l) = (total_prob l * exp c)%R.
Proof.
  unfold total_prob. induction 1 as [| x l Hx _ IH]; simpl; [lra |].
  rewrite IH. destruct x; simpl in *; try contradiction.
  - rewrite exp_plus. lra.
  - lra.
Qed.

(** ** The maximum over candidates *)

Lemma fge_trans (x y z : float) :
  fge x y = true -> fge y z = true -> fge x z = true.
Proof.
  destruct x, y, z; simpl; try discriminate; try reflexivity.
  destruct (Rle_dec r0 r), (Rle_dec r1 r0), (Rle_dec r1 r);
    try discriminate; try reflexivity. lra.
Qed.

Lemma fmax_ge_l (x y : float) :
  below_inf x -> below_inf y -> fge (fmax x y) x = true.
Proof.
  intros Hx Hy. destruct x, y; simpl in *; try contradiction;
    try reflexivity.
  - destruct (Rle_dec r0 r) as [H | H]; simpl.
    + destruct (Rle_dec r r); [reflexivity | lra].
    + destruct (Rle_dec r r0); [reflexivity | lra].
  - destruct (Rle_dec r r); [reflexivity | lra].
Qed.

Lemma fmax_ge_r (x y : float) :
  below_inf x -> below_inf y -> fge (fmax x y) y = true.
Proof.
  intros Hx Hy. destruct x, y; simpl in *; try contradiction;
    try reflexivity.
  - destruct (Rle_dec r0 r) as [H | H]; simpl.
    + destruct (Rle_dec r0 r); [reflexivity | lra].
    + destruct (Rle_dec r0 r0); [reflexivity | lra].
  - destruct (Rle_dec r r); [reflexivity | lra].
Qed.

Lemma fmax_cases (x y : float) :
  fmax x y = x \/ fmax x y = y \/ fmax x y = NaN.
Proof.
  destruct x, y; simpl; auto; destruct (Rle_dec r0 r); auto.
Qed.

Lemma reduce_max_upper_bound (l : list float) :
  Forall below_inf l ->
  forall x, In x l -> fge (reduce_max l) x = true.
Proof.
  induction 1 as [| y l Hy Hl IH]; intros x Hin; [contradiction |].
  simpl. pose proof (reduce_max_below_inf l Hl) as Hm.
  destruct Hin as [-> | Hin].
  - apply fmax_ge_l; assumption.
  - apply (fge_trans _ (reduce_max l)); [| apply IH; exact Hin].
    apply fmax_ge_r; assumption.
Qed.

Lemma reduce_max_attained (l : list float) :
  finite (reduce_max l) -> In (reduce_max l) l.
Proof.
  induction l as [| x l IH]; simpl; intros [r Hr]; [discriminate |].
  destruct (fmax_cases x (reduce_max l)) as [H | [H | H]].
  - left. symmetry. exact H.
  - right. rewrite H. apply IH. exists r. rewrite <- H. exact Hr.
  - rewrite H in Hr. discriminate.
Qed.

Lemma fmax_ninf_r (x : float) : below_inf x -> fmax x NInf = x.
Proof. destruct x; simpl; try contradiction; reflexivity. Qed.

(** The maximum of the two pool maxima is the maximum over both pools. *)
Lemma shared_maximum (l g : list float) :
  Forall below_inf l -> Forall below_inf g -> Exists finite (l ++ g) ->
  exists M,
    reduce_max [reduce_max l; reduce_max g] = Fin M
    /\ In (Fin M) (l ++ g)
    /\ forall x, In x (l ++ g) -> fge (Fin M) x = true.
Proof.
  intros Hl Hg Hex.
  pose proof (reduce_max_below_inf l Hl) as Bl.
  pose proof (reduce_max_below_inf g Hg) as Bg.
  assert (Hm : reduce_max [reduce_max l; reduce_max g]
               = fmax (reduce_max l) (reduce_max g)).
  { simpl. rewrite (fmax_ninf_r _ Bg). reflexivity. }
  assert (Hfin : finite (fmax (reduce_max l) (reduce_max g))).
  { apply Exists_app in Hex. destruct Hex as [Hex | Hex].
    - apply fmax_finite_l; [| exact Bg]. apply reduce_max_finite; assumption.
    - apply fmax_finite_r; [exact Bl |]. apply reduce_max_finite; assumption. }
  destruct Hfin as [M HM]. exists M. rewrite Hm, HM.
  split; [reflexivity |]. split.
  - apply in_or_app.
    destruct (fmax_cases (reduce_max l) (reduce_max g)) as [H | [H | H]];
      rewrite HM in H; try discriminate.
    + left. rewrite H. apply reduce_max_attained. exists M. congruence.
    + right. rewrite H. apply reduce_max_attained. exists M. congruence.
  - intros x Hx. rewrite <- HM. apply in_app_or in Hx.
    destruct Hx as [Hx | Hx].
    + apply (fge_trans _ (reduce_max l)); [apply fmax_ge_l; assumption |].
      apply reduce_max_upper_bound; assumption.
    + apply (fge_trans _ (reduce_max g)); [apply fmax_ge_r; assumption |].
      apply reduce_max_upper_bound; assumption.
Qed.

(** ** Joint normalization *)

Lemma normalize_position_spec (l g : list float) :
  Forall below_inf l -> Forall below_inf g -> Exists finite (l ++ g) ->
  exists M norm,
    reduce_max [reduce_max l; reduce_max g] = Fin M
    /\ GlobalArgumentPrediction.normalize_position l g
       = (map (fun x => fadd (fsub x (Fin M)) (Fin norm)) l,
          map (fun x => fadd (fsub x (Fin M)) (Fin norm)) g)
    /\ fadd (reduce_sum
               (map fexp (map (fun x => fadd (fsub x (Fin M)) (Fin norm)) l)))
            (reduce_sum
               (map fexp (map (fun x => fadd (fsub x (Fin M)) (Fin norm)) g)))
       = Fin 1.
Proof.
  intros Hl Hg Hex.
  destruct (shared_maximum l g Hl Hg Hex) as [M [HM _]].
  set (sl := map (fun x => fsub x (Fin M)) l).
  set (sg := map (fun x => fsub x (Fin M)) g).
  assert (Bsl : Forall below_inf sl) by (apply shift_below_inf; exact Hl).
  assert (Bsg : Forall below_inf sg) by (apply shift_below_inf; exact Hg).
  assert (Hpos : (0 < total_prob sl + total_prob sg)%R).
  { rewrite <- total_prob_app. apply total_prob_pos.
    unfold sl, sg. rewrite <- map_app.
    apply (shift_exists_finite (- M)). exact Hex. }
  set (S := (total_prob sl + total_prob sg)%R) in *.
  exists M, (- ln S)%R.
  assert (Hnorm :
    fneg (flog (fadd (reduce_sum (map fexp sl)) (reduce_sum (map fexp sg))))
    = Fin (- ln S)).
  { rewrite (reduce_sum_exp sl Bsl), (reduce_sum_exp sg Bsg). simpl fadd.
    fold S. rewrite (flog_pos S Hpos). reflexivity. }
  split; [exact HM |]. split.
  - unfold GlobalArgumentPrediction.normalize_position.
    rewrite HM. fold sl. fold sg. rewrite Hnorm.
    unfold sl, sg. rewrite !map_map. reflexivity.
  - rewrite <- (map_map (fun x => fsub x (Fin M))
                        (fun x => fadd x (Fin (- ln S))) l).
    rewrite <- (map_map (fun x => fsub x (Fin M))
                        (fun x => fadd x (Fin (- ln S))) g).
    fold sl. fold sg.
    rewrite !reduce_sum_exp by (apply shift_below_inf; assumption).
    rewrite !total_prob_shift by assumption.
    simpl. f_equal. rewrite exp_Ropp, (exp_ln S Hpos).
    unfold S. field. fold S. lra.
Qed.

Lemma zipM2_ret {A B C} (f : A -> B -> C)
  (x : list (list A)) (y : list (list B)) :
  Forall2 (fun a b => length a = length b) x y ->
  zipM (zipM (fun a b => ret (f a b))) x y
  = ret (map (fun p => map (fun q => f (fst q) (snd q))
                           (combine (fst p) (snd p)))
             (combine x y)).
Proof.
  induction 1 as [| a b x y Hab Hxy IH]; [reflexivity |].
  rewrite zipM_cons by (apply (Forall2_length Hxy)).
  rewrite (zipM_ret f a b Hab), bind_ret, IH. reflexivity.
Qed.

Lemma nth_error_combine {A B} (l1 : list A) (l2 : list B) i a b :
  nth_error l1 i = Some a -> nth_error l2 i = Some b ->
  nth_error (combine l1 l2) i = Some (a, b).
Proof.
  revert l2 i. induction l1 as [| x l1 IH]; intros [| y l2] [| i] Ha Hb;
    simpl in *; try discriminate.
  - inversion Ha; inversion Hb; reflexivity.
  - apply IH; assumption.
Qed.

Lemma position_map2 {A B C} (h : A -> B -> C)
  (x : list (list A)) (y : list (list B)) b a u v :
  position x b a = Some u -> position y b a = Some v ->
  position (map (fun p => map (fun q => h (fst q) (snd q))
                              (combine (fst p) (snd p)))
                (combine x y)) b a
  = Some (h u v).
Proof.
  unfold position. intros Hx Hy.
  destruct (nth_error x b) as [xs |] eqn:Ex; [| discriminate].
  destruct (nth_error y b) as [ys |] eqn:Ey; [| discriminate].
  rewrite nth_error_map, (nth_error_combine _ _ _ _ _ Ex Ey). simpl.
  rewrite nth_error_map, (nth_error_combine _ _ _ _ _ Hx Hy). reflexivity.
Qed.

Lemma position_map {A B} (h : A -> B) (x : list (list A)) b a u :
  position x b a = Some u -> position (map (map h) x) b a = Some (h u).
Proof.
  unfold position. intros Hx.
  destruct (nth_error x b) as [xs |] eqn:Ex; [| discriminate].
  rewrite nth_error_map, Ex. simpl. rewrite nth_error_map, Hx. reflexivity.
Qed.

(** [_normalize_logits] at one position of a batch. *)
Lemma normalize_logits_at_position
  (local_arguments_logits global_arguments_logits : Dense3)
  (b a : nat) (lrow grow : list float) :
  Forall2 (fun lrows grows => length lrows = length grows)
          (d_data local_arguments_logits) (d_data global_arguments_logits) ->
  position (d_data local_arguments_logits) b a = Some lrow ->
  position (d_data global_arguments_logits) b a = Some grow ->
  Forall below_inf lrow -> Forall below_inf grow ->
  Exists finite (lrow ++ grow) ->
  exists normalized_local normalized_global M norm nlrow ngrow,
    GlobalArgumentPrediction._normalize_logits
      local_arguments_logits global_arguments_logits
    = ret (normalized_local, normalized_global)
    /\ position (d_data normalized_local) b a = Some nlrow
    /\ position (d_data normalized_global) b a = Some ngrow
    /\ In (Fin M) (lrow ++ grow)
    /\ (forall x, In x (lrow ++ grow) -> fge (Fin M) x = true)
    /\ nlrow = map (fun x => fadd (fsub x (Fin M)) (Fin norm)) lrow
    /\ ngrow = map (fun x => fadd (fsub x (Fin M)) (Fin norm)) grow
    /\ fadd (reduce_sum (map fexp nlrow)) (reduce_sum (map fexp ngrow))
       = Fin 1.
Proof.
  intros Hshape Hl Hg Bl Bg Hex.
  destruct (shared_maximum lrow grow Bl Bg Hex) as [M [HM [Hin Hub]]].
  destruct (normalize_position_spec lrow grow Bl Bg Hex)
    as [M' [norm [HM' [Hnp Hsum]]]].
  assert (M' = M) by congruence. subst M'.
  unfold GlobalArgumentPrediction._normalize_logits.
  rewrite (zipM2_ret GlobalArgumentPrediction.normalize_position
             _ _ Hshape), bind_ret.
  pose proof (position_map2 GlobalArgumentPrediction.normalize_position
                _ _ _ _ _ _ Hl Hg) as Hpos.
  eexists _, _, M, norm, _, _.
  split; [reflexivity |]. simpl d_data.
  split; [apply (position_map fst _ _ _ _ Hpos) |].
  split; [apply (position_map snd _ _ _ _ Hpos) |].
  rewrite Hnp. simpl fst. simpl snd.
  repeat split; try assumption.
Qed.





(** ** The mask of the available global context *)

Lemma filter_row_ids_from {A} (rs : list (list A)) :
  forall i,
    map (fun b =>
           filter (fun p : nat * A => fst p =? b)
             (combine (flat_map (fun p : nat * list A =>
                                   repeat (fst p) (length (snd p)))
                                (enumerate_from i rs))
                      (concat rs)))
        (seq i (length rs))
    = map (fun p => combine (repeat (fst p) (length (snd p))) (snd p))
          (enumerate_from i rs).
Proof.
  induction rs as [| r rs IH]; intros i; [reflexivity |].
  rewrite rowids_from_cons, enumerate_from_cons.
  simpl concat. simpl length. simpl seq.
  rewrite combine_app by apply repeat_length. simpl map. f_equal.
  - rewrite filter_app, filter_combine_repeat, Nat.eqb_refl.
    rewrite filter_later_rows by lia. apply app_nil_r.
  - rewrite <- (IH (S i)). apply map_ext_in. intros b Hb.
    apply in_seq in Hb. rewrite filter_app, filter_combine_repeat.
    destruct (i =? b) eqn:E; [apply Nat.eqb_eq in E; lia |].
    reflexivity.
Qed.

Lemma length_value_rowids {A} (rs : list (list A)) :
  length (value_rowids rs) = length (values rs).
Proof.
  unfold value_rowids, values. generalize 0.
  induction rs as [| r rs IH]; intros i; [reflexivity |].
  rewrite rowids_from_cons. simpl concat.
  rewrite !length_app, repeat_length, IH. reflexivity.
Qed.

Lemma filter_andb {A} (f g : A -> bool) (l : list A) :
  filter (fun x => f x && g x) l = filter g (filter f l).
Proof.
  induction l as [| x l IH]; simpl; [reflexivity |].
  destruct (f x); simpl; [destruct (g x) |]; rewrite IH; reflexivity.
Qed.

Lemma filter_map_comm {A B} (g : A -> B) (f : B -> bool) (l : list A) :
  filter f (map g l) = map g (filter (fun x => f (g x)) l).
Proof.
  induction l as [| x l IH]; simpl; [reflexivity |].
  destruct (f (g x)); simpl; rewrite IH; reflexivity.
Qed.

Lemma combine_const_updates {A B C} (c : C) (l : list A) (v : list B) :
  length l = length v ->
  combine l (map (fun _ => c) v) = map (fun q => (q, c)) l.
Proof.
  revert v. induction l as [| x l IH]; intros [| y v] H; simpl in *;
    try discriminate; [reflexivity |].
  rewrite IH by lia. reflexivity.
Qed.

Lemma length_filter_snd_combine_repeat {A} (h : A -> bool) (b : nat)
  (row : list A) :
  length (filter (fun q : nat * A => h (snd q))
                 (combine (repeat b (length row)) row))
  = length (filter h row).
Proof.
  induction row as [| x row IH]; simpl; [reflexivity |].
  destruct (h x); simpl; rewrite IH; reflexivity.
Qed.

Lemma filter_eq_nodup (j : Z) (row : list Z) :
  NoDup row ->
  length (filter (fun id => (id =? j)%Z) row)
  = if existsb (fun id => (id =? j)%Z) row then 1 else 0.
Proof.
  induction 1 as [| x row Hx _ IH]; simpl; [reflexivity |].
  destruct (x =? j)%Z eqn:E; simpl.
  - apply Z.eqb_eq in E. subst x.
    replace (filter (fun id => (id =? j)%Z) row) with (@nil Z);
      [reflexivity |].
    symmetry. clear IH. induction row as [| y row IH]; simpl;
      [reflexivity |].
    destruct (y =? j)%Z eqn:E.
    + apply Z.eqb_eq in E. subst y. exfalso. apply Hx. left. reflexivity.
    + apply IH. intros H. apply Hx. right. exact H.
  - exact IH.
Qed.

Lemma In_combine_rowids {A} (rs : list (list A)) :
  forall i p,
    In p (combine (flat_map (fun p : nat * list A =>
                               repeat (fst p) (length (snd p)))
                            (enumerate_from i rs))
                  (concat rs)) ->
    fst p < i + length rs /\ exists row, In row rs /\ In (snd p) row.
Proof.
  induction rs as [| r rs IH]; intros i p Hin; [contradiction |].
  rewrite rowids_from_cons in Hin. simpl concat in Hin.
  rewrite combine_app in Hin by apply repeat_length.
  apply in_app_or in Hin. destruct Hin as [Hin | Hin].
  - destruct p as [b x]. pose proof (in_combine_l _ _ _ _ Hin) as Hb.
    apply repeat_spec in Hb. apply in_combine_r in Hin. simpl in *.
    split; [lia |]. exists r. split; [left; reflexivity | exact Hin].
  - apply IH in Hin. destruct Hin as [Hlt [row [Hrow Hx]]]. simpl.
    split; [lia |]. exists row. split; [right; exact Hrow | exact Hx].
Qed.

Lemma reduce_sum_ones {A} (l : list A) :
  reduce_sum (map (fun _ => Fin 1) l) = Fin (INR (length l)).
Proof.
  unfold reduce_sum. induction l as [| x l IH]; [reflexivity |].
  simpl map. simpl fold_right. rewrite IH. simpl length. rewrite S_INR.
  simpl. f_equal. lra.
Qed.

Lemma scatter_cell (indices : list (nat * Z)) (vals : list Z) (b j : nat) :
  length indices = length vals ->
  reduce_sum
    (map snd
       (filter (fun p : (nat * Z) * float =>
                  (fst (fst p) =? b) && (snd (fst p) =? Z.of_nat j)%Z)
               (combine indices (map (fun _ : Z => Fin 1) vals))))
  = Fin (INR (length
                (filter (fun q : nat * Z => (snd q =? Z.of_nat j)%Z)
                        (filter (fun q : nat * Z => fst q =? b) indices)))).
Proof.
  intros Hlen. rewrite (combine_const_updates (Fin 1) indices vals Hlen).
  rewrite (filter_map_comm (fun q : nat * Z => (q, Fin 1))).
  rewrite map_map. simpl.
  rewrite (filter_andb (fun q : nat * Z => fst q =? b)
                       (fun q : nat * Z => (snd q =? Z.of_nat j)%Z)).
  apply reduce_sum_ones.
Qed.

Lemma mask_row_of_ids (size b : nat) (row : list Z) :
  NoDup row ->
  map (fun j =>
         flog (Fin (INR (length
                           (filter (fun q : nat * Z => (snd q =? Z.of_nat j)%Z)
                                   (combine (repeat b (length row)) row))))))
      (seq 0 size)
  = spec_mask_row size row.
Proof.
  intros Hnd. unfold spec_mask_row. apply map_ext. intros j.
  rewrite (length_filter_snd_combine_repeat
             (fun id => (id =? Z.of_nat j)%Z) b row).
  rewrite (filter_eq_nodup (Z.of_nat j) row Hnd).
  destruct (existsb (fun id => (id =? Z.of_nat j)%Z) row); simpl.
  - apply flog_one.
  - apply flog_zero.
Qed.

(** Every listed entry gets log 1 = 0 and every other entry log 0 = -inf,
    when the ids of an example are in range and pairwise different. *)
Lemma global_arguments_logits_mask_spec
  (global_context_ids : list (list Z)) (global_context_size : nat) :
  Forall (Forall (fun id => (0 <= id < Z.of_nat global_context_size)%Z))
         global_context_ids ->
  Forall (@NoDup Z) global_context_ids ->
  GlobalArgumentPrediction._global_arguments_logits_mask
    global_context_ids global_context_size
  = ret (map (spec_mask_row global_context_size) global_context_ids).
Proof.
  intros Hrange Hnd.
  unfold GlobalArgumentPrediction._global_arguments_logits_mask, scatter_nd.
  set (indices := combine (value_rowids global_context_ids)
                          (values global_context_ids)).
  assert (Hlen : length indices = length (values global_context_ids)).
  { unfold indices. rewrite length_combine, length_value_rowids. lia. }
  rewrite length_map, Hlen, Nat.eqb_refl. cbn [negb].
  assert (Hok :
    forallb (fun p : nat * Z =>
               (fst p <? length global_context_ids)
               && (0 <=? snd p)%Z
               && (snd p <? Z.of_nat global_context_size)%Z) indices = true).
  { apply forallb_forall. intros p Hp.
    apply (In_combine_rowids global_context_ids 0) in Hp.
    destruct Hp as [Hlt [row [Hrow Hx]]].
    rewrite Forall_forall in Hrange. specialize (Hrange row Hrow).
    rewrite Forall_forall in Hrange. specialize (Hrange _ Hx).
    apply andb_true_intro. split; [apply andb_true_intro; split |].
    - apply Nat.ltb_lt. exact Hlt.
    - apply Z.leb_le. lia.
    - apply Z.ltb_lt. lia. }
  rewrite Hok, bind_ret. f_equal.
  rewrite map_map.
  erewrite map_ext;
    [| intros b; rewrite map_map; apply map_ext; intros j;
       rewrite (scatter_cell indices (values global_context_ids) b j Hlen);
       reflexivity ].
  rewrite <- (map_map
                (fun b => filter (fun q : nat * Z => fst q =? b) indices)
                (fun X => map (fun j =>
                   flog (Fin (INR (length
                     (filter (fun q : nat * Z => (snd q =? Z.of_nat j)%Z) X)))))
                   (seq 0 global_context_size))).
  unfold indices, value_rowids, values.
  rewrite (filter_row_ids_from global_context_ids 0), map_map.
  unfold enumerate_from.
  erewrite map_ext_in.
  - apply (map_snd_combine (spec_mask_row global_context_size)).
    apply length_seq.
  - intros [b row] Hin. simpl. apply mask_row_of_ids.
    apply in_combine_r in Hin. rewrite Forall_forall in Hnd.
    apply Hnd. exact Hin.
Qed.

(** ** Masked global logits in the training model *)

Lemma mapM_ret_in {A B} (f : A -> result B) (g : A -> B) (l : list A) :
  (forall a, In a l -> f a = ret (g a)) -> mapM f l = ret (map g l).
Proof.
  intros H. rewrite (mapM_ext_in f (fun a => ret (g a)) l H).
  apply mapM_ret.
Qed.

Lemma zipM_ret_in {A B C} (f : A -> B -> result C) (g : A * B -> C)
  (l1 : list A) (l2 : list B) :
  length l1 = length l2 ->
  (forall p, In p (combine l1 l2) -> f (fst p) (snd p) = ret (g p)) ->
  zipM f l1 l2 = ret (map g (combine l1 l2)).
Proof.
  intros Hlen H. unfold zipM. rewrite Hlen, Nat.eqb_refl.
  apply mapM_ret_in. exact H.
Qed.

Lemma nth_error_seq0 (n j : nat) : j < n -> nth_error (seq 0 n) j = Some j.
Proof.
  intros H. rewrite (nth_error_nth' (seq 0 n) 0) by (rewrite length_seq; lia).
  rewrite seq_nth by lia. reflexivity.
Qed.

Lemma length_spec_mask_row (size : nat) (ids : list Z) :
  length (spec_mask_row size ids) = size.
Proof. unfold spec_mask_row. rewrite length_map. apply length_seq. Qed.

Lemma nth_error_spec_mask_row (size : nat) (ids : list Z) (j : nat) :
  j < size ->
  nth_error (spec_mask_row size ids) j
  = Some (if existsb (fun id => (id =? Z.of_nat j)%Z) ids
          then Fin 0 else NInf).
Proof.
  intros H. unfold spec_mask_row.
  rewrite nth_error_map, (nth_error_seq0 _ _ H). reflexivity.
Qed.

(** The raw global logits of one position after the mask was added. *)
Lemma masked_row_entries (size : nat) (ids : list Z) (grow : list float) :
  length grow = size -> Forall finite grow ->
  let masked := map (fun q => fadd (fst q) (snd q))
                    (combine grow (spec_mask_row size ids)) in
  Forall below_inf masked
  /\ forall j, j < size ->
       exists r, nth_error grow j = Some (Fin r)
                 /\ nth_error masked j
                    = Some (if existsb (fun id => (id =? Z.of_nat j)%Z) ids
                            then Fin (r + 0) else NInf).
Proof.
  intros Hlen Hfin masked. split.
  - unfold masked. apply Forall_forall. intros x Hx.
    apply in_map_iff in Hx. destruct Hx as [[g m] [<- Hin]]. simpl.
    pose proof (in_combine_l _ _ _ _ Hin) as Hg.
    pose proof (in_combine_r _ _ _ _ Hin) as Hm.
    rewrite Forall_forall in Hfin. destruct (Hfin g Hg) as [r ->].
    unfold spec_mask_row in Hm. apply in_map_iff in Hm.
    destruct Hm as [j [<- _]].
    destruct (existsb _ ids); exact I.
  - intros j Hj.
    destruct (nth_error grow j) as [g |] eqn:Eg;
      [| apply nth_error_None in Eg; lia].
    rewrite Forall_forall in Hfin.
    destruct (Hfin g (nth_error_In _ _ Eg)) as [r ->].
    exists r. split; [reflexivity |]. unfold masked.
    rewrite nth_error_map.
    rewrite (nth_error_combine _ _ _ _ _ Eg
               (nth_error_spec_mask_row _ ids _ Hj)).
    simpl. destruct (existsb _ ids); reflexivity.
Qed.

Lemma masked_row_has_candidate (size : nat) (ids : list Z) (grow : list float) :
  length grow = size -> Forall finite grow ->
  Forall (fun id => (0 <= id < Z.of_nat size)%Z) ids -> ids <> [] ->
  Exists finite (map (fun q => fadd (fst q) (snd q))
                     (combine grow (spec_mask_row size ids))).
Proof.
  intros Hlen Hfin Hrange Hne.
  destruct ids as [| id ids]; [contradiction |].
  pose proof (Forall_inv Hrange) as Hid. simpl in Hid.
  destruct (masked_row_entries _ (id :: ids) _ Hlen Hfin) as [_ Hm].
  assert (Hj : Z.to_nat id < size) by lia.
  destruct (Hm (Z.to_nat id) Hj) as [r [_ Hr]].
  replace (existsb (fun x => (x =? Z.of_nat (Z.to_nat id))%Z) (id :: ids))
    with true in Hr
    by (simpl; rewrite Z2Nat.id by lia; rewrite Z.eqb_refl; reflexivity).
  apply Exists_exists. exists (Fin (r + 0)). split.
  - apply (nth_error_In _ _ Hr).
  - eexists. reflexivity.
Qed.

Lemma existsb_not_in (ids : list Z) (j : Z) :
  ~ In j ids -> existsb (fun id => (id =? j)%Z) ids = false.
Proof.
  intros H. induction ids as [| id ids IH]; simpl; [reflexivity |].
  destruct (id =? j)%Z eqn:E.
  - apply Z.eqb_eq in E. subst. exfalso. apply H. left. reflexivity.
  - apply IH. intros Hin. apply H. right. exact Hin.
Qed.

Lemma existsb_in (ids : list Z) (j : Z) :
  In j ids -> existsb (fun id => (id =? j)%Z) ids = true.
Proof.
  intros H. apply existsb_exists. exists j. split; [exact H |].
  apply Z.eqb_refl.
Qed.

Lemma Forall2_masked_shape (F : list (list float) * list float -> list (list float))
  (ldata gdata : list (list (list float))) (mask : list (list float)) :
  (forall p, length (F p) = length (fst p)) ->
  Forall2 (fun lrows grows : list (list float) => length lrows = length grows)
          ldata gdata ->
  length gdata = length mask ->
  Forall2 (fun lrows grows : list (list float) => length lrows = length grows)
          ldata (map F (combine gdata mask)).
Proof.
  intros HF H. revert mask.
  induction H as [| l g ldata gdata Hlg _ IH]; intros [| m mask] Hlen;
    simpl in *; try discriminate; constructor.
  - rewrite HF. exact Hlg.
  - apply IH. lia.
Qed.

Lemma add_mask_to_logits (size : nat) (gdata : list (list (list float)))
  (ids : list (list Z)) :
  length gdata = length ids ->
  Forall (Forall (fun row : list float => length row = size)) gdata ->
  zipM (fun rows mask_row =>
          mapM (fun row => zipM (fun x m => ret (fadd x m)) row mask_row) rows)
       gdata (map (spec_mask_row size) ids)
  = ret (map (fun p : list (list float) * list float =>
                map (fun row => map (fun q => fadd (fst q) (snd q))
                                    (combine row (snd p)))
                    (fst p))
             (combine gdata (map (spec_mask_row size) ids))).
Proof.
  intros Hlen Hrows. apply zipM_ret_in; [rewrite length_map; exact Hlen |].
  intros [rows m] Hin. simpl. apply mapM_ret_in. intros row Hrow.
  apply zipM_ret.
  pose proof (in_combine_l _ _ _ _ Hin) as Hg.
  pose proof (in_combine_r _ _ _ _ Hin) as Hm.
  rewrite Forall_forall in Hrows. specialize (Hrows rows Hg).
  rewrite Forall_forall in Hrows. rewrite (Hrows row Hrow).
  apply in_map_iff in Hm. destruct Hm as [i [<- _]].
  symmetry. apply length_spec_mask_row.
Qed.

(** C2: with a dynamic global context, and ids that are in range and
    pairwise different, an example's mask is log 1 = 0 at the listed
    entries of the global vocabulary and log 0 = -inf at the others.  At
    a position with at least one candidate (a finite local logit or a
    listed global entry), the normalized logit of an entry that is not
    listed is -inf, its probability exactly 0, and some candidate has a
    finite, hence larger, normalized logit; the probabilities of the
    position add up to 1. *)
Theorem unavailable_global_entries_are_masked
  (graph_constants : GraphConstants) (global_context_ids : list (list Z))
  (local_arguments_logits global_arguments_logits : Dense3)
  (b a : nat) (ids : list Z) (lrow grow : list float) :
  let size := length (global_context graph_constants) in
  Forall (Forall (fun id => (0 <= id < Z.of_nat size)%Z)) global_context_ids ->
  Forall (@NoDup Z) global_context_ids ->
  Forall2 (fun lrows grows => length lrows = length grows)
          (d_data local_arguments_logits) (d_data global_arguments_logits) ->
  length (d_data global_arguments_logits) = length global_context_ids ->
  Forall (Forall (fun row : list float => length row = size))
         (d_data global_arguments_logits) ->
  nth_error global_context_ids b = Some ids ->
  position (d_data local_arguments_logits) b a = Some lrow ->
  position (d_data global_arguments_logits) b a = Some grow ->
  Forall below_inf lrow -> Forall finite grow ->
  Exists finite lrow \/ ids <> [] ->
  exists mask mask_row normalized_local normalized_global nlrow ngrow,
    GlobalArgumentPrediction._global_arguments_logits_mask
      global_context_ids size = ret mask
    /\ nth_error mask b = Some mask_row
    /\ (forall j, j < size ->
          (In (Z.of_nat j) ids ->
           nth_error mask_row j = Some (flog (Fin 1))
           /\ flog (Fin 1) = Fin 0)
          /\ (~ In (Z.of_nat j) ids ->
              nth_error mask_row j = Some (flog (Fin 0))
              /\ flog (Fin 0) = NInf))
    /\ GlobalArgumentPrediction.create_train_model true graph_constants
         global_context_ids local_arguments_logits global_arguments_logits
       = ret (normalized_local, normalized_global)
    /\ position (d_data normalized_local) b a = Some nlrow
    /\ position (d_data normalized_global) b a = Some ngrow
    /\ (forall j, j < size -> ~ In (Z.of_nat j) ids ->
          nth_error ngrow j = Some NInf /\ fexp NInf = Fin 0)
    /\ (exists y, In y (nlrow ++ ngrow) /\ fgt y NInf = true)
    /\ fadd (reduce_sum (map fexp nlrow)) (reduce_sum (map fexp ngrow))
       = Fin 1.
Proof.
  intros size Hrange Hnd Hshape Hlen Hrows Hids Hl Hg Bl Fg Hcand.
  pose proof (global_arguments_logits_mask_spec global_context_ids size
                Hrange Hnd) as Hmask.
  set (F := fun p : list (list float) * list float =>
              map (fun row => map (fun q => fadd (fst q) (snd q))
                                  (combine row (snd p)))
                  (fst p)).
  set (masked := mkDense3 (d_args global_arguments_logits)
                          (d_ctx global_arguments_logits)
                          (map F (combine (d_data global_arguments_logits)
                                    (map (spec_mask_row size)
                                         global_context_ids)))).
  set (mgrow := map (fun q => fadd (fst q) (snd q))
                    (combine grow (spec_mask_row size ids))).
  assert (Hgrow : length grow = size).
  { unfold position in Hg.
    destruct (nth_error (d_data global_arguments_logits) b) as [rows |] eqn:E;
      [| discriminate].
    rewrite Forall_forall in Hrows.
    specialize (Hrows rows (nth_error_In _ _ E)).
    rewrite Forall_forall in Hrows. apply Hrows.
    apply (nth_error_In _ _ Hg). }
  assert (Hmrow : nth_error (map (spec_mask_row size) global_context_ids) b
                  = Some (spec_mask_row size ids)).
  { rewrite nth_error_map, Hids. reflexivity. }
  assert (Hpos : position (d_data masked) b a = Some mgrow).
  { unfold position in *. simpl.
    destruct (nth_error (d_data global_arguments_logits) b) as [rows |] eqn:E;
      [| discriminate].
    rewrite nth_error_map, (nth_error_combine _ _ _ _ _ E Hmrow). simpl.
    unfold F. simpl. rewrite nth_error_map, Hg. reflexivity. }
  destruct (masked_row_entries size ids grow Hgrow Fg) as [Bm Hentries].
  fold mgrow in Bm, Hentries.
  assert (Hex : Exists finite (lrow ++ mgrow)).
  { apply Exists_app. destruct Hcand as [H | H]; [left; exact H |].
    right. apply masked_row_has_candidate; try assumption.
    rewrite Forall_forall in Hrange. apply Hrange.
    apply (nth_error_In _ _ Hids). }
  assert (Hshape' :
    Forall2 (fun lrows grows : list (list float) => length lrows = length grows)
            (d_data local_arguments_logits) (d_data masked)).
  { simpl. apply Forall2_masked_shape; [| exact Hshape |].
    - intros p. unfold F. apply length_map.
    - rewrite length_map. exact Hlen. }
  destruct (normalize_logits_at_position local_arguments_logits masked b a
              lrow mgrow Hshape' Hl Hpos Bl Bm Hex)
    as [nl [ng [M [norm [nlrow [ngrow
         [Hnorm [Hnl [Hng [_ [_ [Enl [Eng Hsum]]]]]]]]]]]]].
  exists (map (spec_mask_row size) global_context_ids),
         (spec_mask_row size ids), nl, ng, nlrow, ngrow.
  split; [exact Hmask |]. split; [exact Hmrow |]. split.
  { intros j Hj. split; intros Hin.
    - rewrite (nth_error_spec_mask_row _ ids _ Hj), (existsb_in _ _ Hin).
      rewrite flog_one. split; reflexivity.
    - rewrite (nth_error_spec_mask_row _ ids _ Hj), (existsb_not_in _ _ Hin).
      rewrite flog_zero. split; reflexivity. }
  split.
  { unfold GlobalArgumentPrediction.create_train_model.
    fold size. rewrite Hmask, bind_ret.
    rewrite (add_mask_to_logits size _ _ Hlen Hrows), !bind_ret.
    exact Hnorm. }
  split; [exact Hnl |]. split; [exact Hng |]. split.
  { intros j Hj Hin. split; [| reflexivity].
    destruct (Hentries j Hj) as [r [_ Hm]].
    rewrite (existsb_not_in _ _ Hin) in Hm.
    rewrite Eng, nth_error_map, Hm. reflexivity. }
  split; [| exact Hsum].
  apply Exists_exists in Hex. destruct Hex as [x [Hx [r ->]]].
  exists (fadd (fsub (Fin r) (Fin M)) (Fin norm)). split; [| reflexivity].
  rewrite Enl, Eng, <- map_app.
  apply (in_map (fun x => fadd (fsub x (Fin M)) (Fin norm)) _ _ Hx).
Qed.

Lemma unavailable_global_entries_are_masked_witness :
  let graph_constants := mkGraphConstants 0 [] [10; 11]%Z in
  let global_context_ids := [[1%Z]] in
  let local_logits := mkDense3 1 1 [[[Fin 0]]] in
  let global_logits := mkDense3 1 2 [[[Fin 0; Fin 0]]] in
  exists mask mask_row normalized_local normalized_global nlrow ngrow,
    GlobalArgumentPrediction._global_arguments_logits_mask
      global_context_ids 2 = ret mask
    /\ nth_error mask 0 = Some mask_row
    /\ (forall j, j < 2 ->
          (In (Z.of_nat j) [1%Z] ->
           nth_error mask_row j = Some (flog (Fin 1))
           /\ flog (Fin 1) = Fin 0)
          /\ (~ In (Z.of_nat j) [1%Z] ->
              nth_error mask_row j = Some (flog (Fin 0))
              /\ flog (Fin 0) = NInf))
    /\ GlobalArgumentPrediction.create_train_model true graph_constants
         global_context_ids local_logits global_logits
       = ret (normalized_local, normalized_global)
    /\ position (d_data normalized_local) 0 0 = Some nlrow
    /\ position (d_data normalized_global) 0 0 = Some ngrow
    /\ (forall j, j < 2 -> ~ In (Z.of_nat j) [1%Z] ->
          nth_error ngrow j = Some NInf /\ fexp NInf = Fin 0)
    /\ (exists y, In y (nlrow ++ ngrow) /\ fgt y NInf = true)
    /\ fadd (reduce_sum (map fexp nlrow)) (reduce_sum (map fexp ngrow))
       = Fin 1.
Proof.
  intros graph_constants global_context_ids local_logits global_logits.
  apply (unavailable_global_entries_are_masked graph_constants
           global_context_ids local_logits global_logits 0 0
           [1%Z] [Fin 0] [Fin 0; Fin 0]).
  - repeat constructor; simpl; lia.
  - repeat constructor; simpl; tauto.
  - repeat constructor.
  - reflexivity.
  - repeat constructor.
  - reflexivity.
  - reflexivity.
  - reflexivity.
  - repeat constructor.
  - repeat constructor; eexists; reflexivity.
  - right. discriminate.
Defined.

(** At a position without any candidate the shared maximum is -inf and the
    normalized logits are NaN: the distribution is undefined there. *)
Lemma no_candidate_position_is_nan :
  GlobalArgumentPrediction.normalize_position [] [NInf] = ([], [NaN]).
Proof. reflexivity. Qed.

(** ** Masked log-softmax and top-k *)

(** The kind of a masked score: finite where the mask permits, -inf where
    it forbids. *)
Lemma masked_kinds (x : list float) (m : list bool) :
  length x = length m -> Forall finite x ->
  Forall2 (fun (b : bool) y => if b then finite y else y = NInf) m
          (map (fun q => fadd (fst q) (snd q))
               (combine x (map (fun b => flog (cast_bool b)) m))).
Proof.
  revert m. induction x as [| y x IH]; intros [| b m] Hlen Hfin;
    simpl in *; try discriminate; constructor.
  - destruct (Forall_inv Hfin) as [r ->].
    destruct b; simpl cast_bool.
    + rewrite flog_one. eexists. reflexivity.
    + rewrite flog_zero. reflexivity.
  - apply IH; [lia | apply (Forall_inv_tail Hfin)].
Qed.

Lemma kinds_shift (c : R) (m : list bool) (l : list float) :
  Forall2 (fun (b : bool) y => if b then finite y else y = NInf) m l ->
  Forall2 (fun (b : bool) y => if b then finite y else y = NInf) m
          (map (fun y => fadd y (Fin c)) l).
Proof.
  induction 1 as [| b y m l Hb _ IH]; simpl; constructor; [| exact IH].
  destruct b.
  - destruct Hb as [r ->]. eexists. reflexivity.
  - subst y. reflexivity.
Qed.

Lemma kinds_below_inf (m : list bool) (l : list float) :
  Forall2 (fun (b : bool) y => if b then finite y else y = NInf) m l ->
  Forall below_inf l.
Proof.
  induction 1 as [| b y m l Hb _ IH]; constructor; [| exact IH].
  destruct b; [apply below_inf_finite; exact Hb | subst y; exact I].
Qed.

Lemma kinds_exists_finite (m : list bool) (l : list float) :
  Forall2 (fun (b : bool) y => if b then finite y else y = NInf) m l ->
  0 < count_permitted m -> Exists finite l.
Proof.
  unfold count_permitted.
  induction 1 as [| b y m l Hb _ IH]; simpl; intros Hc; [lia |].
  destruct b; [left; exact Hb | right; apply IH; exact Hc].
Qed.

Lemma kinds_count (m : list bool) (l : list float) :
  Forall2 (fun (b : bool) y => if b then finite y else y = NInf) m l ->
  length (filter is_finite l) = count_permitted m.
Proof.
  unfold count_permitted.
  induction 1 as [| b y m l Hb _ IH]; simpl; [reflexivity |].
  destruct b.
  - destruct Hb as [r ->]. simpl. rewrite IH. reflexivity.
  - subst y. simpl. exact IH.
Qed.

Lemma log_softmax_kinds (m : list bool) (l : list float) :
  Forall2 (fun (b : bool) y => if b then finite y else y = NInf) m l ->
  0 < count_permitted m ->
  Forall2 (fun (b : bool) y => if b then finite y else y = NInf) m
          (log_softmax l).
Proof.
  intros Hk Hc. unfold log_softmax.
  destruct (reduce_max_finite l (kinds_below_inf _ _ Hk)
              (kinds_exists_finite _ _ Hk Hc)) as [M ->].
  pose proof (kinds_shift (- M) _ _ Hk) as Hs.
  change (fun y => fadd y (Fin (- M))) with (fun y => fsub y (Fin M)) in Hs.
  rewrite (reduce_sum_exp _ (kinds_below_inf _ _ Hs)).
  rewrite flog_pos
    by (apply total_prob_pos; apply (kinds_exists_finite _ _ Hs Hc)).
  apply (kinds_shift (- ln _) _ _ Hs).
Qed.

Lemma count_finite_perm (l1 l2 : list (nat * float)) :
  Permutation l1 l2 ->
  length (filter is_finite (map snd l1))
  = length (filter is_finite (map snd l2)).
Proof.
  induction 1 as [| p l1 l2 _ IH | p q l | l1 l2 l3 _ IH1 _ IH2]; simpl.
  - reflexivity.
  - destruct (is_finite (snd p)); simpl; rewrite IH; reflexivity.
  - destruct (is_finite (snd p)), (is_finite (snd q)); reflexivity.
  - congruence.
Qed.

Lemma sorted_after_ninf (l : list float) :
  sorted_desc (NInf :: l) -> Forall below_inf l ->
  length (filter is_finite l) = 0.
Proof.
  revert l. induction l as [| y l IH]; intros Hs Hb; [reflexivity |].
  inversion Hs as [| | ? ? ? Hge Hs']; subst.
  inversion Hb as [| ? ? Hy Hb']; subst.
  destruct y; simpl in Hge, Hy; try discriminate; try contradiction.
  simpl. apply IH; assumption.
Qed.

Lemma sorted_prefix_finite (l : list float) :
  sorted_desc l -> Forall below_inf l ->
  forall k, k <= length (filter is_finite l) -> Forall finite (firstn k l).
Proof.
  induction l as [| y l IH]; intros Hs Hb k Hk.
  - rewrite firstn_nil. constructor.
  - destruct k as [| k]; [constructor |].
    assert (Hs' : sorted_desc l)
      by (inversion Hs; subst; [constructor | assumption]).
    inversion Hb as [| ? ? Hy Hb']; subst.
    destruct y; simpl in Hy; try contradiction.
    + simpl in *. constructor; [eexists; reflexivity |].
      apply IH; [assumption | assumption | lia].
    + simpl in Hk. rewrite (sorted_after_ninf l Hs Hb') in Hk. lia.
Qed.

Lemma In_enumerate_from {A} (l : list A) :
  forall s i y, In (i, y) (enumerate_from s l) ->
                s <= i /\ nth_error l (i - s) = Some y.
Proof.
  induction l as [| x l IH]; intros s i y Hin; [contradiction |].
  rewrite enumerate_from_cons in Hin. destruct Hin as [Heq | Hin].
  - inversion Heq; subst. rewrite Nat.sub_diag. split; [lia | reflexivity].
  - apply IH in Hin. destruct Hin as [Hle Hn]. split; [lia |].
    replace (i - s) with (S (i - S s)) by lia. exact Hn.
Qed.

Lemma Forall2_nth_error {A B} (P : A -> B -> Prop) l1 l2 i a :
  Forall2 P l1 l2 -> nth_error l1 i = Some a ->
  exists b, nth_error l2 i = Some b /\ P a b.
Proof.
  intros H. revert i. induction H as [| x y l1 l2 Hxy _ IH]; intros i Hi.
  - destruct i; discriminate.
  - destruct i as [| i]; simpl in *.
    + inversion Hi; subst. exists y. split; [reflexivity | exact Hxy].
    + apply IH. exact Hi.
Qed.

Lemma Forall2_nth_error_r {A B} (P : A -> B -> Prop) l1 l2 i b :
  Forall2 P l1 l2 -> nth_error l2 i = Some b ->
  exists a, nth_error l1 i = Some a /\ P a b.
Proof.
  intros H. revert i. induction H as [| x y l1 l2 Hxy _ IH]; intros i Hi.
  - destruct i; discriminate.
  - destruct i as [| i]; simpl in *.
    + inversion Hi; subst. exists x. split; [reflexivity | exact Hxy].
    + apply IH. exact Hi.
Qed.

Lemma map_snd_enumerate {A} (l : list A) : map snd (enumerate l) = l.
Proof.
  unfold enumerate, enumerate_from.
  rewrite (map_snd_combine (fun y : A => y)) by apply length_seq.
  apply map_id.
Qed.

Lemma length_log_softmax (l : list float) :
  length (log_softmax l) = length l.
Proof. unfold log_softmax. rewrite !length_map. reflexivity. Qed.

(** Top-k over the masked log-softmax of one example. *)
Lemma top_k_row (x : list float) (m : list bool) (k : nat) :
  length x = length m -> Forall finite x ->
  0 < count_permitted m -> k <= length m ->
  exists ids vals,
    top_k (log_softmax
             (map (fun q => fadd (fst q) (snd q))
                  (combine x (map (fun b => flog (cast_bool b)) m)))) k
    = ret (ids, vals)
    /\ length ids = k /\ length vals = k
    /\ sorted_desc vals
    /\ (k <= count_permitted m ->
        Forall (fun i => exists n, i = Z.of_nat n /\ nth_error m n = Some true)
               ids).
Proof.
  intros Hlen Hfin Hc Hk.
  set (v := log_softmax
              (map (fun q => fadd (fst q) (snd q))
                   (combine x (map (fun b => flog (cast_bool b)) m)))).
  assert (Hv : length v = length m).
  { unfold v. rewrite length_log_softmax, length_map, length_combine,
      length_map. lia. }
  set (s := sort_desc (enumerate v)).
  assert (Hs : length s = length v).
  { unfold s. rewrite <- (Permutation_length (sort_desc_perm (enumerate v))).
    unfold enumerate, enumerate_from. rewrite length_combine, length_seq. lia. }
  unfold top_k. replace (k <=? length v) with true
    by (symmetry; apply Nat.leb_le; lia).
  fold s. eexists _, _. split; [reflexivity |].
  split; [rewrite length_map, length_firstn; lia |].
  split; [rewrite length_map, length_firstn; lia |].
  pose proof (log_softmax_kinds m _ (masked_kinds x m Hlen Hfin) Hc) as Hkinds.
  fold v in Hkinds.
  pose proof (kinds_below_inf _ _ Hkinds) as Bv.
  assert (Be : Forall (fun q : nat * float => below_inf (snd q)) (enumerate v)).
  { apply Forall_forall. intros [i y] Hin.
    apply In_enumerate_from in Hin. destruct Hin as [_ Hn].
    rewrite Forall_forall in Bv. apply Bv. apply (nth_error_In _ _ Hn). }
  pose proof (sort_desc_sorted (enumerate v) Be) as Hsorted. fold s in Hsorted.
  assert (Bs : Forall below_inf (map snd s)).
  { apply Forall_forall. intros y Hy. apply in_map_iff in Hy.
    destruct Hy as [q [<- Hq]].
    apply (Permutation_in q (Permutation_sym (sort_desc_perm (enumerate v))))
      in Hq.
    rewrite Forall_forall in Be. apply Be. exact Hq. }
  split.
  - rewrite <- firstn_map. apply sorted_desc_firstn. exact Hsorted.
  - intros Hkc.
    assert (Hcount : k <= length (filter is_finite (map snd s))).
    { unfold s.
      rewrite <- (count_finite_perm _ _ (sort_desc_perm (enumerate v))).
      rewrite map_snd_enumerate, (kinds_count _ _ Hkinds). exact Hkc. }
    pose proof (sorted_prefix_finite _ Hsorted Bs k Hcount) as Hpre.
    rewrite firstn_map in Hpre.
    apply Forall_forall. intros i Hi. apply in_map_iff in Hi.
    destruct Hi as [[n y] [<- Hq]]. simpl. exists n. split; [reflexivity |].
    assert (Hy : finite y).
    { rewrite Forall_forall in Hpre. apply Hpre.
      apply (in_map snd _ _ Hq). }
    assert (Hq' : In (n, y) s)
      by (rewrite <- (firstn_skipn k s); apply in_or_app; left; exact Hq).
    apply (Permutation_in _ (Permutation_sym (sort_desc_perm (enumerate v))))
      in Hq'.
    apply In_enumerate_from in Hq'. destruct Hq' as [_ Hn].
    rewrite Nat.sub_0_r in Hn.
    destruct (Forall2_nth_error_r _ _ _ _ _ Hkinds Hn) as [b [Hb Kb]].
    destruct b; [exact Hb |]. subst y. destruct Hy as [r Hr]. discriminate.
Qed.

Lemma mapM_exists {A B} (f : A -> result B) (P : A -> B -> Prop) (l : list A) :
  (forall a, In a l -> exists b, f a = ret b /\ P a b) ->
  exists bs, mapM f l = ret bs /\ Forall2 P l bs.
Proof.
  induction l as [| a l IH]; intros H.
  - exists []. split; [reflexivity | constructor].
  - destruct (H a (or_introl eq_refl)) as [b [Hb Pb]].
    destruct IH as [bs [Hbs Pbs]];
      [intros x Hx; apply H; right; exact Hx |].
    exists (b :: bs). simpl. rewrite Hb, bind_ret, Hbs. split;
      [reflexivity | constructor; assumption].
Qed.

Lemma Forall2_combine_snd {A B C} (P : B -> C -> Prop)
  (l1 : list A) (l2 : list B) (l3 : list C) :
  length l1 = length l2 ->
  Forall2 (fun p c => P (snd p) c) (combine l1 l2) l3 -> Forall2 P l2 l3.
Proof.
  revert l2 l3. induction l1 as [| a l1 IH]; intros [| b l2] l3 Hlen H;
    simpl in *; try discriminate.
  - inversion H. constructor.
  - inversion H; subst. constructor; [assumption |].
    apply IH; [lia | assumption].
Qed.

Lemma Forall2_map_r {A B C} (P : A -> C -> Prop) (f : B -> C)
  (l1 : list A) (l2 : list B) :
  Forall2 (fun a b => P a (f b)) l1 l2 -> Forall2 P l1 (map f l2).
Proof. induction 1; simpl; constructor; assumption. Qed.

Lemma Forall2_Forall_r {A B} (P : B -> Prop) (l1 : list A) (l2 : list B) :
  Forall2 (fun _ b => P b) l1 l2 -> Forall P l2.
Proof. induction 1; constructor; assumption. Qed.

Lemma Forall2_weaken {A B} (P Q : A -> B -> Prop) (l1 : list A) (l2 : list B) :
  (forall a b, P a b -> Q a b) -> Forall2 P l1 l2 -> Forall2 Q l1 l2.
Proof. intros H. induction 1; constructor; auto. Qed.

Lemma In_combine_Forall2 {A B} (P : A -> B -> Prop) l1 l2 a b :
  Forall2 P l1 l2 -> In (a, b) (combine l1 l2) -> P a b.
Proof.
  induction 1 as [| x y l1 l2 Hxy _ IH]; simpl; [contradiction |].
  intros [Heq | Hin]; [inversion Heq; subst; exact Hxy | auto].
Qed.

(** The result of [_top_k_tactics] when every example permits at least
    one tactic. *)
Lemma top_k_tactics_spec (tactic_logits : list (list float))
  (tactic_mask : list (list bool)) (tactic_expand_bound : nat) :
  Forall2 (fun x m => length x = length m) tactic_logits tactic_mask ->
  Forall (Forall finite) tactic_logits ->
  Forall (fun m => 0 < count_permitted m /\ tactic_expand_bound <= length m)
         tactic_mask ->
  exists ids vals,
    TacticPrediction._top_k_tactics tactic_logits tactic_mask
                                    tactic_expand_bound
    = ret (ids, vals)
    /\ Forall2 (fun m ids_b =>
                  length ids_b = tactic_expand_bound
                  /\ (tactic_expand_bound <= count_permitted m ->
                      Forall (fun i => exists n,
                                  i = Z.of_nat n /\ nth_error m n = Some true)
                             ids_b))
               tactic_mask ids
    /\ Forall (fun vals_b => length vals_b = tactic_expand_bound
                             /\ sorted_desc vals_b) vals.
Proof.
  intros Hshape Hfin Hk.
  unfold TacticPrediction._top_k_tactics, ragged_map2.
  rewrite zipM2_ret.
  2:{ clear Hfin Hk. induction Hshape; simpl; constructor;
      [rewrite length_map; assumption | assumption]. }
  rewrite bind_ret, combine_map_snd, !map_map, mapM_map. simpl.
  destruct (mapM_exists
    (fun p : list float * list bool =>
       top_k (log_softmax
                (map (fun q => fadd (fst q) (snd q))
                     (combine (fst p)
                              (map (fun b => flog (cast_bool b)) (snd p)))))
             tactic_expand_bound)
    (fun p r =>
       (length (fst r) = tactic_expand_bound
        /\ (tactic_expand_bound <= count_permitted (snd p) ->
            Forall (fun i => exists n, i = Z.of_nat n
                                       /\ nth_error (snd p) n = Some true)
                   (fst r)))
       /\ (length (snd r) = tactic_expand_bound /\ sorted_desc (snd r)))
    (combine tactic_logits tactic_mask)) as [rs [Hrs Prs]].
  { intros [x m] Hin. simpl.
    pose proof (In_combine_Forall2 _ _ _ _ _ Hshape Hin) as Hlen.
    rewrite Forall_forall in Hfin, Hk.
    destruct (Hk m (in_combine_r _ _ _ _ Hin)) as [Hc Hkm].
    destruct (top_k_row x m tactic_expand_bound Hlen
                (Hfin x (in_combine_l _ _ _ _ Hin)) Hc Hkm)
      as [ids [vals [Htop [Hi [Hv [Hs Hp]]]]]].
    exists (ids, vals). simpl. repeat split; assumption. }
  rewrite Hrs, bind_ret.
  exists (map fst rs), (map snd rs). split; [reflexivity |]. split.
  - apply Forall2_map_r.
    apply (Forall2_combine_snd _ tactic_logits tactic_mask rs
             (Forall2_length Hshape)).
    apply (Forall2_weaken _ _ _ _ (fun p r H => proj1 H) Prs).
  - apply Forall_map.
    apply (Forall2_Forall_r (fun r => length (snd r) = tactic_expand_bound
                                      /\ sorted_desc (snd r))
             (combine tactic_logits tactic_mask) rs).
    apply (Forall2_weaken _ _ _ _ (fun p r H => proj2 H) Prs).
Qed.

(** [_top_k_tactics] example by example: a property of the top-k of every
    example's masked log-softmax is a property of every row of the
    result. *)
Lemma top_k_tactics_rows
  (P : list float -> list bool -> list Z -> list float -> Prop)
  (tactic_logits : list (list float))
  (tactic_mask : list (list bool)) (tactic_expand_bound : nat) :
  Forall2 (fun x m => length x = length m) tactic_logits tactic_mask ->
  (forall x m, In (x, m) (combine tactic_logits tactic_mask) ->
     exists ids vals,
       top_k (masked_log_softmax x m) tactic_expand_bound = ret (ids, vals)
       /\ P x m ids vals) ->
  exists ids vals,
    TacticPrediction._top_k_tactics tactic_logits tactic_mask
                                    tactic_expand_bound
    = ret (ids, vals)
    /\ length ids = length tactic_logits
    /\ length vals = length tactic_logits
    /\ forall b x m ids_b vals_b,
         nth_error tactic_logits b = Some x ->
         nth_error tactic_mask b = Some m ->
         nth_error ids b = Some ids_b ->
         nth_error vals b = Some vals_b ->
         P x m ids_b vals_b.
Proof.
  intros Hshape Hrows.
  unfold TacticPrediction._top_k_tactics, ragged_map2.
  rewrite zipM2_ret.
  2:{ clear Hrows. induction Hshape; simpl; constructor;
      [rewrite length_map; assumption | assumption]. }
  rewrite bind_ret, combine_map_snd, !map_map, mapM_map. simpl.
  destruct (mapM_exists
    (fun p : list float * list bool =>
       top_k (log_softmax
                (map (fun q => fadd (fst q) (snd q))
                     (combine (fst p)
                              (map (fun b => flog (cast_bool b)) (snd p)))))
             tactic_expand_bound)
    (fun p r => P (fst p) (snd p) (fst r) (snd r))
    (combine tactic_logits tactic_mask)) as [rs [Hrs Prs]].
  { intros [x m] Hin. simpl.
    destruct (Hrows x m Hin) as [ids [vals [Htop HP]]].
    exists (ids, vals). split; [exact Htop | exact HP]. }
  rewrite Hrs, bind_ret.
  exists (map fst rs), (map snd rs). split; [reflexivity |].
  pose proof (Forall2_length Prs) as Hlen.
  rewrite length_combine, <- (Forall2_length Hshape), Nat.min_id in Hlen.
  split; [rewrite length_map; symmetry; exact Hlen |].
  split; [rewrite length_map; symmetry; exact Hlen |].
  intros b x m ids_b vals_b Hx Hm Hi Hv.
  rewrite nth_error_map in Hi, Hv.
  destruct (nth_error rs b) as [r |] eqn:Er; [| discriminate].
  simpl in Hi, Hv. inversion Hi; inversion Hv; subst.
  destruct (Forall2_nth_error_r _ _ _ _ _ Prs Er) as [p [Hp HP]].
  rewrite (nth_error_combine _ _ _ _ _ Hx Hm) in Hp.
  inversion Hp; subst p. exact HP.
Qed.

(** In a sorted row of scores that are real numbers or -inf, the real
    numbers come first. *)
Lemma sorted_kinds_at (l : list float) :
  sorted_desc l -> Forall below_inf l ->
  forall i y, nth_error l i = Some y ->
    if i <? length (filter is_finite l) then finite y else y = NInf.
Proof.
  induction l as [| y0 l IH]; intros Hs Hb i y Hi.
  - destruct i; discriminate.
  - assert (Hs' : sorted_desc l)
      by (inversion Hs; subst; [constructor | assumption]).
    inversion Hb as [| ? ? Hy0 Hb']; subst.
    destruct y0 as [r | | |]; simpl in Hy0; try contradiction.
    + destruct i as [| i]; simpl in Hi |- *.
      * inversion Hi. eexists. reflexivity.
      * apply (IH Hs' Hb' i y Hi).
    + simpl filter. pose proof (sorted_after_ninf l Hs Hb') as H0.
      rewrite H0. destruct i as [| i]; simpl in Hi |- *.
      * inversion Hi. reflexivity.
      * pose proof (IH Hs' Hb' i y Hi) as H. rewrite H0 in H. exact H.
Qed.

(** Top-k over the masked log-softmax of one example, result by result:
    the permitted tactics come first, with real scores; the results after
    them are forbidden tactics with the score -inf. *)
Lemma top_k_row_kinds (x : list float) (m : list bool) (k : nat) :
  length x = length m -> Forall finite x ->
  0 < count_permitted m -> k <= length m ->
  exists ids vals,
    top_k (masked_log_softmax x m) k = ret (ids, vals)
    /\ length ids = k /\ length vals = k
    /\ sorted_desc vals
    /\ (k <= count_permitted m ->
        Forall (fun i => exists n, i = Z.of_nat n /\ nth_error m n = Some true)
               ids)
    /\ forall i, i < k ->
         exists n y,
           nth_error ids i = Some (Z.of_nat n)
           /\ nth_error vals i = Some y
           /\ if i <? count_permitted m
              then nth_error m n = Some true /\ finite y
              else nth_error m n = Some false /\ y = NInf.
Proof.
  intros Hlen Hfin Hc Hk.
  destruct (top_k_row x m k Hlen Hfin Hc Hk)
    as [ids [vals [Htop [Hi [Hv [Hsd Hp]]]]]].
  exists ids, vals.
  split; [exact Htop |]. split; [exact Hi |]. split; [exact Hv |].
  split; [exact Hsd |]. split; [exact Hp |].
  pose proof (log_softmax_kinds m _ (masked_kinds x m Hlen Hfin) Hc) as Hkinds.
  fold (masked_log_softmax x m) in Htop, Hkinds.
  set (v := masked_log_softmax x m) in *.
  assert (Hlv : length v = length m) by (symmetry; apply (Forall2_length Hkinds)).
  pose proof (kinds_below_inf _ _ Hkinds) as Bv.
  set (s := sort_desc (enumerate v)).
  assert (Hperm : Permutation (enumerate v) s) by apply sort_desc_perm.
  assert (Hs : length s = length v).
  { rewrite <- (Permutation_length Hperm).
    unfold enumerate, enumerate_from. rewrite length_combine, length_seq. lia. }
  assert (Be : Forall (fun q : nat * float => below_inf (snd q)) (enumerate v)).
  { apply Forall_forall. intros [i y] Hin.
    apply In_enumerate_from in Hin. destruct Hin as [_ Hn].
    rewrite Forall_forall in Bv. apply Bv. apply (nth_error_In _ _ Hn). }
  pose proof (sort_desc_sorted (enumerate v) Be) as Hsorted. fold s in Hsorted.
  assert (Bs : Forall below_inf (map snd s)).
  { apply Forall_forall. intros y Hy. apply in_map_iff in Hy.
    destruct Hy as [q [<- Hq]].
    apply (Permutation_in q (Permutation_sym Hperm)) in Hq.
    rewrite Forall_forall in Be. apply Be. exact Hq. }
  assert (Hcount : length (filter is_finite (map snd s)) = count_permitted m).
  { unfold s. rewrite <- (count_finite_perm _ _ (sort_desc_perm (enumerate v))).
    rewrite map_snd_enumerate. apply (kinds_count _ _ Hkinds). }
  unfold top_k in Htop.
  replace (k <=? length v) with true in Htop
    by (symmetry; apply Nat.leb_le; lia).
  fold s in Htop. unfold ret in Htop. inversion Htop as [[Hids Hvals]].
  clear Htop. intros i Hik.
  destruct (nth_error s i) as [[n y] |] eqn:E;
    [| apply nth_error_None in E; lia].
  assert (Hfi : nth_error (firstn k s) i = Some (n, y)).
  { rewrite nth_error_firstn.
    replace (i <? k) with true by (symmetry; apply Nat.ltb_lt; exact Hik).
    exact E. }
  exists n, y.
  split; [rewrite nth_error_map, Hfi; reflexivity |].
  split; [rewrite nth_error_map, Hfi; reflexivity |].
  assert (Hn : nth_error v n = Some y).
  { assert (Hin : In (n, y) (enumerate v))
      by (apply (Permutation_in _ (Permutation_sym Hperm));
          apply (nth_error_In _ _ E)).
    apply In_enumerate_from in Hin. destruct Hin as [_ Hn].
    rewrite Nat.sub_0_r in Hn. exact Hn. }
  destruct (Forall2_nth_error_r _ _ _ _ _ Hkinds Hn) as [bm [Hbm Kb]].
  assert (Hy : nth_error (map snd s) i = Some y)
    by (rewrite nth_error_map, E; reflexivity).
  pose proof (sorted_kinds_at _ Hsorted Bs i y Hy) as Hkind.
  rewrite Hcount in Hkind.
  destruct (i <? count_permitted m).
  - split; [| exact Hkind]. destruct bm; [exact Hbm |].
    subst y. destruct Hkind as [r Hr]. discriminate.
  - split; [| exact Hkind]. destruct bm; [| exact Hbm].
    subst y. destruct Kb as [r Hr]. discriminate.
Qed.

(** C6, as stated, fails when fewer than K tactics are permitted: top-k
    fills the K results with forbidden tactics, at log-probability -inf.
    Here K = 2 and the mask permits tactic 0 only; tactic 1 is returned. *)
Lemma top_k_returns_masked_tactic :
  exists c,
    TacticPrediction._top_k_tactics [[Fin 0; Fin 0]] [[true; false]] 2
    = ret ([[0; 1]%Z], [[Fin c; NInf]])
    /\ nth_error [true; false] 1 = Some false
    /\ In 1%Z [0; 1]%Z.
Proof.
  assert (Hfin : Forall finite [Fin 0; Fin 0])
    by (repeat constructor; eexists; reflexivity).
  assert (Hc : 0 < count_permitted [true; false])
    by (unfold count_permitted; simpl; lia).
  pose proof (log_softmax_kinds [true; false] _
                (masked_kinds [Fin 0; Fin 0] [true; false] eq_refl Hfin) Hc)
    as Hk.
  assert (E :
    TacticPrediction._top_k_tactics [[Fin 0; Fin 0]] [[true; false]] 2
    = (top <- mapM (fun row => top_k row 2)
                 [log_softmax
                    (map (fun q => fadd (fst q) (snd q))
                         (combine [Fin 0; Fin 0]
                                  (map (fun b => flog (cast_bool b))
                                       [true; false])))] ;;
       ret (map fst top, map snd top))) by reflexivity.
  rewrite E. clear E.
  remember (log_softmax
              (map (fun q => fadd (fst q) (snd q))
                   (combine [Fin 0; Fin 0]
                            (map (fun b => flog (cast_bool b))
                                 [true; false])))) as v eqn:Ev.
  clear Ev.
  inversion Hk as [| b1 y1 m1 l1 Hy1 Hk1]; subst.
  inversion Hk1 as [| b2 y2 m2 l2 Hy2 Hk2]; subst.
  inversion Hk2; subst. simpl in Hy1. destruct Hy1 as [c ->].
  exists c. split; [reflexivity |]. split; [reflexivity |].
  right. left. reflexivity.
Qed.

(** C6, amended: when the raw logits are finite, K = [tactic_expand_bound]
    does not exceed the number of tactics and every example permits at
    least one tactic, [_top_k_tactics] returns K tactic ids and K
    log-probabilities per example, and the log-probabilities never increase
    from one result to the next.  For an example that permits at least K
    tactics, none of the returned ids is forbidden by the mask, whatever the
    raw logits.  In every example the results come in this order: first
    permitted tactics, with real log-probabilities, as many as there are
    permitted tactics (or K, if that is less); so when fewer than K tactics
    are permitted, every remaining result is a tactic that the mask
    forbids, with log-probability -inf. *)
Theorem top_k_never_returns_masked_tactic
  (tactic_logits : list (list float)) (tactic_mask : list (list bool))
  (tactic_expand_bound : nat) :
  Forall2 (fun x m => length x = length m) tactic_logits tactic_mask ->
  Forall (Forall finite) tactic_logits ->
  Forall (fun m => 0 < count_permitted m /\ tactic_expand_bound <= length m)
         tactic_mask ->
  exists ids vals,
    TacticPrediction._top_k_tactics tactic_logits tactic_mask
                                    tactic_expand_bound
    = ret (ids, vals)
    /\ length ids = length tactic_mask
    /\ length vals = length tactic_mask
    /\ forall b m ids_b vals_b,
         nth_error tactic_mask b = Some m ->
         nth_error ids b = Some ids_b ->
         nth_error vals b = Some vals_b ->
         length ids_b = tactic_expand_bound
         /\ length vals_b = tactic_expand_bound
         /\ sorted_desc vals_b
         /\ (tactic_expand_bound <= count_permitted m ->
             forall n, nth_error m n = Some false ->
                       ~ In (Z.of_nat n) ids_b)
         /\ (forall i, i < tactic_expand_bound ->
               exists n y,
                 nth_error ids_b i = Some (Z.of_nat n)
                 /\ nth_error vals_b i = Some y
                 /\ if i <? count_permitted m
                    then nth_error m n = Some true /\ finite y
                    else nth_error m n = Some false /\ y = NInf)
         /\ (count_permitted m < tactic_expand_bound ->
             forall i, count_permitted m <= i < tactic_expand_bound ->
               exists n,
                 nth_error ids_b i = Some (Z.of_nat n)
                 /\ nth_error m n = Some false
                 /\ nth_error vals_b i = Some NInf).
Proof.
  intros Hshape Hfin Hk.
  destruct (top_k_tactics_rows
              (fun (x : list float) (m : list bool) ids_b vals_b =>
                 length ids_b = tactic_expand_bound
                 /\ length vals_b = tactic_expand_bound
                 /\ sorted_desc vals_b
                 /\ (tactic_expand_bound <= count_permitted m ->
                     Forall (fun i => exists n, i = Z.of_nat n
                                                /\ nth_error m n = Some true)
                            ids_b)
                 /\ forall i, i < tactic_expand_bound ->
                      exists n y,
                        nth_error ids_b i = Some (Z.of_nat n)
                        /\ nth_error vals_b i = Some y
                        /\ if i <? count_permitted m
                           then nth_error m n = Some true /\ finite y
                           else nth_error m n = Some false /\ y = NInf)
              tactic_logits tactic_mask tactic_expand_bound Hshape)
    as [ids [vals [Htop [Hli [Hlv Hrows]]]]].
  { intros x m Hin.
    pose proof (In_combine_Forall2 _ _ _ _ _ Hshape Hin) as Hlen.
    simpl in Hlen. rewrite Forall_forall in Hfin, Hk.
    destruct (Hk m (in_combine_r _ _ _ _ Hin)) as [Hc Hkm].
    apply (top_k_row_kinds x m tactic_expand_bound Hlen
             (Hfin x (in_combine_l _ _ _ _ Hin)) Hc Hkm). }
  exists ids, vals. split; [exact Htop |].
  pose proof (Forall2_length Hshape) as Hl.
  split; [lia |]. split; [lia |].
  intros b m ids_b vals_b Hm Hi Hv.
  destruct (Forall2_nth_error_r _ _ _ _ _ Hshape Hm) as [x [Hx _]].
  destruct (Hrows b x m ids_b vals_b Hx Hm Hi Hv)
    as [Hlib [Hlvb [Hsd [Hp Hkinds]]]].
  split; [exact Hlib |]. split; [exact Hlvb |]. split; [exact Hsd |].
  split; [| split; [exact Hkinds |]].
  - intros Hkc n Hn Hin. specialize (Hp Hkc). rewrite Forall_forall in Hp.
    destruct (Hp _ Hin) as [n' [Heq Hn']].
    apply Nat2Z.inj in Heq. subst n'. congruence.
  - intros _ i [Hci Hik].
    destruct (Hkinds i Hik) as [n [y [Hidn [Hvy Hkind]]]].
    replace (i <? count_permitted m) with false in Hkind
      by (symmetry; apply Nat.ltb_ge; exact Hci).
    destruct Hkind as [Hmn ->]. exists n.
    split; [exact Hidn |]. split; [exact Hmn | exact Hvy].
Qed.

Lemma top_k_never_returns_masked_tactic_witness :
  exists ids vals,
    TacticPrediction._top_k_tactics
      [[Fin 1; Fin 2; Fin 100; Fin 3; Fin 4]]
      [[true; true; false; true; true]] 3
    = ret (ids, vals)
    /\ length ids = 1
    /\ length vals = 1
    /\ forall b m ids_b vals_b,
         nth_error [[true; true; false; true; true]] b = Some m ->
         nth_error ids b = Some ids_b ->
         nth_error vals b = Some vals_b ->
         length ids_b = 3
         /\ length vals_b = 3
         /\ sorted_desc vals_b
         /\ (3 <= count_permitted m ->
             forall n, nth_error m n = Some false ->
                       ~ In (Z.of_nat n) ids_b)
         /\ (forall i, i < 3 ->
               exists n y,
                 nth_error ids_b i = Some (Z.of_nat n)
                 /\ nth_error vals_b i = Some y
                 /\ if i <? count_permitted m
                    then nth_error m n = Some true /\ finite y
                    else nth_error m n = Some false /\ y = NInf)
         /\ (count_permitted m < 3 ->
             forall i, count_permitted m <= i < 3 ->
               exists n,
                 nth_error ids_b i = Some (Z.of_nat n)
                 /\ nth_error m n = Some false
                 /\ nth_error vals_b i = Some NInf).
Proof.
  apply (top_k_never_returns_masked_tactic
           [[Fin 1; Fin 2; Fin 100; Fin 3; Fin 4]]
           [[true; true; false; true; true]] 3).
  - repeat constructor.
  - repeat constructor; eexists; reflexivity.
  - repeat constructor; unfold count_permitted; simpl; lia.
Defined.

(** ** Query-key products: the three methods agree *)

Lemma fmul_comm (x y : float) : fmul x y = fmul y x.
Proof.
  destruct x, y; simpl; try reflexivity. f_equal. lra.
Qed.

Lemma combine_swap {A B} (l1 : list A) (l2 : list B) :
  combine l2 l1 = map (fun p => (snd p, fst p)) (combine l1 l2).
Proof.
  revert l2. induction l1 as [| a l1 IH]; intros [| b l2]; simpl;
    try reflexivity.
  rewrite IH. reflexivity.
Qed.

Lemma dot_comm (x y : list float) : dot x y = dot y x.
Proof.
  unfold dot. rewrite (combine_swap y x), map_map. f_equal.
  apply map_ext. intros [a b]. simpl. apply fmul_comm.
Qed.

Lemma mapM_repeat_nth {A} (params : list A) (i n : nat) (x : A) :
  nth_error params i = Some x ->
  mapM (fun j => match nth_error params j with
                 | Some a => ret a
                 | None => raise InvalidArgumentError
                 end) (repeat i n)
  = ret (repeat x n).
Proof.
  intros H. induction n as [| n IH]; simpl; [reflexivity |].
  rewrite H, bind_ret, IH. reflexivity.
Qed.

Lemma gather_rowids_from {A B} (rt : list (list A)) :
  forall (params pre : list B),
    length params = length rt ->
    gather (pre ++ params)
           (flat_map (fun p : nat * list A => repeat (fst p) (length (snd p)))
                     (enumerate_from (length pre) rt))
    = ret (concat (map (fun p => repeat (snd p) (length (fst p)))
                       (combine rt params))).
Proof.
  unfold gather.
  induction rt as [| r rt IH]; intros [| x params] pre Hlen;
    simpl in Hlen; try discriminate; [reflexivity |].
  rewrite rowids_from_cons, mapM_app.
  rewrite (mapM_repeat_nth (pre ++ x :: params) (length pre) (length r) x)
    by (rewrite nth_error_app2 by lia; rewrite Nat.sub_diag; reflexivity).
  rewrite bind_ret.
  specialize (IH params (pre ++ [x])).
  rewrite <- app_assoc, length_app in IH. simpl in IH.
  rewrite Nat.add_1_r in IH. rewrite IH by lia. reflexivity.
Qed.

Lemma gather_rowids {A B} (rt : list (list A)) (params : list B) :
  length params = length rt ->
  gather params (value_rowids rt)
  = ret (concat (map (fun p => repeat (snd p) (length (fst p)))
                     (combine rt params))).
Proof. intros H. apply (gather_rowids_from rt params [] H). Qed.

Lemma combine_concat {X A B} (f : X -> list A) (g : X -> list B) (L : list X) :
  (forall x, In x L -> length (f x) = length (g x)) ->
  combine (concat (map f L)) (concat (map g L))
  = concat (map (fun x => combine (f x) (g x)) L).
Proof.
  induction L as [| x L IH]; intros H; [reflexivity |].
  simpl. rewrite combine_app by (apply H; left; reflexivity).
  rewrite IH; [reflexivity |]. intros y Hy. apply H. right. exact Hy.
Qed.

Lemma split_rows_concat {A} (rows : list (list A)) :
  split_rows (map (@length A) rows) (concat rows) = rows.
Proof.
  induction rows as [| r rows IH]; [reflexivity |].
  simpl. rewrite firstn_app, firstn_all, Nat.sub_diag. simpl.
  rewrite app_nil_r. f_equal.
  rewrite skipn_app, skipn_all, Nat.sub_diag. simpl. exact IH.
Qed.

Lemma combine_repeat_l {A C} (c : C) (l : list A) :
  combine (repeat c (length l)) l = map (fun y => (c, y)) l.
Proof.
  induction l as [| y l IH]; simpl; [reflexivity |].
  rewrite IH. reflexivity.
Qed.

Lemma map_const_repeat {A C} (c : C) (l : list A) :
  map (fun _ => c) l = repeat c (length l).
Proof.
  induction l as [| y l IH]; simpl; [reflexivity |].
  rewrite IH. reflexivity.
Qed.

Lemma with_values_ok {A B} (rt : list (list A)) (new_values : list B) :
  length new_values = length (concat rt) ->
  with_values rt new_values = ret (split_rows (row_lengths rt) new_values).
Proof.
  intros H. unfold with_values, values. rewrite H, Nat.eqb_refl.
  reflexivity.
Qed.

Lemma with_values_rows {A B} (rt : list (list A)) (rows : list (list B)) :
  map (@length B) rows = row_lengths rt ->
  with_values rt (concat rows) = ret rows.
Proof.
  intros H. rewrite with_values_ok.
  - rewrite <- H. rewrite split_rows_concat. reflexivity.
  - rewrite !length_concat. unfold row_lengths in H. rewrite H.
    reflexivity.
Qed.

Lemma mul_map_fn_spec (queries keys : list (list (list float))) :
  length queries = length keys ->
  QueryKeyMul._mul_map_fn queries keys = ret (spec_logits queries keys).
Proof.
  intros H. unfold QueryKeyMul._mul_map_fn, spec_logits.
  apply (zipM_ret (fun q k => map (fun qi => map (fun kk => dot qi kk) k) q)
                  queries keys H).
Qed.

Lemma keys_values_pairs (queries keys : list (list (list float))) :
  concat (concat (map (fun p : list (list float) * list (list float) =>
                         repeat (snd p) (length (fst p)))
                      (combine queries keys)))
  = map fst (key_query_pairs (combine queries keys)).
Proof.
  unfold key_query_pairs.
  induction (combine queries keys) as [| [qs ks] L IH]; [reflexivity |].
  simpl. rewrite concat_app, map_app, IH. f_equal. clear IH.
  induction qs as [| qv qs IH]; [reflexivity |].
  simpl. rewrite map_app, IH, map_map. simpl. rewrite map_id. reflexivity.
Qed.

Lemma queries_values_pairs (queries keys : list (list (list float))) :
  length queries = length keys ->
  concat (map (fun p' : list (list float) * list float =>
                 repeat (snd p') (length (fst p')))
              (combine
                 (concat (map (fun p : list (list float) * list (list float) =>
                                 repeat (snd p) (length (fst p)))
                              (combine queries keys)))
                 (concat queries)))
  = map snd (key_query_pairs (combine queries keys)).
Proof.
  unfold key_query_pairs. revert keys.
  induction queries as [| qs queries IH]; intros [| ks keys] Hlen;
    simpl in Hlen; try discriminate; [reflexivity |].
  simpl. rewrite combine_app by apply repeat_length.
  rewrite !map_app, concat_app, (IH keys) by lia. f_equal. clear IH.
  rewrite combine_repeat_l, map_map. simpl.
  induction qs as [| qv qs IH]; [reflexivity |].
  simpl. rewrite map_app, IH, map_map. simpl.
  rewrite map_const_repeat. reflexivity.
Qed.

Lemma length_keys_values (queries keys : list (list (list float))) :
  length queries = length keys ->
  length (concat queries)
  = length (concat (map (fun p : list (list float) * list (list float) =>
                           repeat (snd p) (length (fst p)))
                        (combine queries keys))).
Proof.
  revert keys. induction queries as [| qs queries IH]; intros [| ks keys] Hlen;
    simpl in Hlen; try discriminate; [reflexivity |].
  simpl. rewrite !length_app, repeat_length, (IH keys) by lia. reflexivity.
Qed.

Lemma dots_of_pairs (L : list (list (list float) * list (list float))) :
  map (fun z => dot (fst z) (snd z)) (key_query_pairs L)
  = concat (concat (map (fun p => map (fun qv => map (fun k => dot k qv) (snd p))
                                      (fst p))
                        L)).
Proof.
  unfold key_query_pairs.
  induction L as [| [qs ks] L IH]; [reflexivity |].
  simpl. rewrite map_app, IH, !concat_app. f_equal. clear IH.
  induction qs as [| qv qs IH]; [reflexivity |].
  simpl. rewrite map_app, IH, map_map. reflexivity.
Qed.

Lemma row_lengths_keys_values (L : list (list (list float) * list (list float))) :
  map (@length float)
      (concat (map (fun p => map (fun qv => map (fun k => dot k qv) (snd p))
                                 (fst p))
                   L))
  = row_lengths (concat (map (fun p => repeat (snd p) (length (fst p))) L)).
Proof.
  unfold row_lengths.
  induction L as [| [qs ks] L IH]; [reflexivity |].
  simpl. rewrite !map_app, IH. f_equal. clear IH.
  rewrite map_map, map_repeat.
  erewrite map_ext; [apply map_const_repeat |].
  intros qv. apply length_map.
Qed.

Lemma mul_broadcast_ragged_spec (queries keys : list (list (list float))) :
  length queries = length keys ->
  QueryKeyMul._mul_broadcast_ragged queries keys
  = ret (spec_logits queries keys).
Proof.
  intros H. unfold QueryKeyMul._mul_broadcast_ragged.
  rewrite (gather_rowids queries keys (eq_sym H)), bind_ret.
  unfold values at 1.
  rewrite gather_rowids by (apply length_keys_values; exact H).
  rewrite bind_ret. unfold values.
  rewrite keys_values_pairs, (queries_values_pairs _ _ H).
  rewrite (zipM_map_same (fun k q => ret (dot k q)) fst snd).
  rewrite (mapM_ret (fun z : list float * list float => dot (fst z) (snd z))).
  rewrite bind_ret, dots_of_pairs.
  rewrite (with_values_rows _ _ (row_lengths_keys_values _)), bind_ret.
  rewrite with_values_rows.
  - unfold spec_logits. f_equal. apply map_ext. intros [qs ks]. simpl.
    apply map_ext. intros qv. apply map_ext. intros k. apply dot_comm.
  - rewrite map_map. unfold row_lengths.
    rewrite (map_fst_combine (@length (list float)) queries keys H).
    apply map_ext. intros [qs ks]. simpl. apply length_map.
Qed.

Lemma combine_map_both {A B C D} (f : A -> C) (g : B -> D)
  (l1 : list A) (l2 : list B) :
  combine (map f l1) (map g l2)
  = map (fun p => (f (fst p), g (snd p))) (combine l1 l2).
Proof.
  revert l2. induction l1 as [| a l1 IH]; intros [| b l2]; simpl;
    try reflexivity.
  rewrite IH. reflexivity.
Qed.

Lemma firstn_map_padded {A B} (f : A -> B) (l pad : list A) :
  firstn (length l) (map f (l ++ pad)) = map f l.
Proof.
  rewrite firstn_map, firstn_app, firstn_all, Nat.sub_diag. simpl.
  rewrite app_nil_r. reflexivity.
Qed.

Lemma combine_map_repeat {A B C} (r : A -> B) (c : C) (l : list A) :
  combine (map r l) (repeat c (length l)) = map (fun q => (r q, c)) l.
Proof.
  induction l as [| q l IH]; simpl; [reflexivity |].
  rewrite IH. reflexivity.
Qed.

Lemma length_part_ragged {A}
  (r : list (list float) * list (list float) -> list float -> A)
  (L : list (list (list float) * list (list float))) :
  length (concat (map (fun p => map (r p) (fst p)) L))
  = length (concat (map (fun p => repeat (length (snd p)) (length (fst p)))
                        L)).
Proof.
  induction L as [| [qs ks] L IH]; [reflexivity |].
  simpl. rewrite !length_app, IH, length_map, repeat_length. reflexivity.
Qed.

Lemma part_ragged_rows {B}
  (queries keys : list (list (list float)))
  (g : list (list float) * list (list float) -> list float -> B)
  (pad : list (list float) * list (list float) -> list (list float)) :
  length queries = length keys ->
  map (fun p : list B * nat => firstn (snd p) (fst p))
      (combine (map (fun x => map (g x) (fst x ++ pad x))
                    (combine queries keys))
               (row_lengths queries))
  = map (fun x => map (g x) (fst x)) (combine queries keys).
Proof.
  intros H. unfold row_lengths.
  rewrite (map_fst_combine (@length (list float)) queries keys H).
  rewrite combine_map_same, map_map. apply map_ext. intros [qs ks].
  simpl. apply firstn_map_padded.
Qed.

(** The second half of [_mul_ragged_to_dense_to_ragged]: the partly ragged
    logits, whose rows still have the padded width, are cut to the number of
    keys of their example. *)
Lemma dense_to_ragged_tail (queries keys : list (list (list float)))
  (row : list (list float) * list (list float) -> list float -> list float) :
  length queries = length keys ->
  (forall p qv, firstn (length (snd p)) (row p qv)
                = map (fun k => dot qv k) (snd p)) ->
  (key_lengths <- gather (row_lengths keys) (value_rowids queries) ;;
   lengths <- with_values queries key_lengths ;;
   logits_values <-
     from_tensor (values (map (fun p => map (row p) (fst p))
                              (combine queries keys)))
                 (values lengths) ;;
   with_values (map (fun p => map (row p) (fst p)) (combine queries keys))
               logits_values)
  = ret (spec_logits queries keys).
Proof.
  intros H Hrow.
  rewrite gather_rowids
    by (unfold row_lengths; rewrite length_map; symmetry; exact H).
  rewrite bind_ret.
  assert (Hlengths :
    concat (map (fun p : list (list float) * nat =>
                   repeat (snd p) (length (fst p)))
                (combine queries (row_lengths keys)))
    = concat (map (fun p : list (list float) * list (list float) =>
                     repeat (length (snd p)) (length (fst p)))
                  (combine queries keys))).
  { unfold row_lengths. rewrite combine_map_snd, map_map. reflexivity. }
  rewrite Hlengths. clear Hlengths.
  rewrite (with_values_rows queries
             (map (fun p : list (list float) * list (list float) =>
                     repeat (length (snd p)) (length (fst p)))
                  (combine queries keys))).
  2:{ rewrite map_map. unfold row_lengths.
      rewrite (map_fst_combine (@length (list float)) queries keys H).
      apply map_ext. intros [qs ks]. simpl. apply repeat_length. }
  rewrite bind_ret. unfold values.
  rewrite from_tensor_ok by (apply (length_part_ragged row)).
  rewrite bind_ret.
  rewrite (combine_concat
             (fun p : list (list float) * list (list float) =>
                map (row p) (fst p))
             (fun p => repeat (length (snd p)) (length (fst p))))
    by (intros p _; rewrite length_map, repeat_length; reflexivity).
  rewrite concat_map, map_map.
  assert (Hcut :
    map (fun x : list (list float) * list (list float) =>
           map (fun p : list float * nat => firstn (snd p) (fst p))
               (combine (map (row x) (fst x))
                        (repeat (length (snd x)) (length (fst x)))))
        (combine queries keys)
    = spec_logits queries keys).
  { unfold spec_logits. apply map_ext. intros [qs ks]. simpl.
    rewrite combine_map_repeat, map_map. simpl.
    apply map_ext. intros qv. apply (Hrow (qs, ks) qv). }
  rewrite Hcut. clear Hcut.
  apply with_values_rows.
  unfold spec_logits, row_lengths. rewrite !map_map.
  apply map_ext. intros [qs ks]. simpl. rewrite !length_map. reflexivity.
Qed.

Lemma mul_ragged_to_dense_to_ragged_spec (hdim : nat)
  (queries keys : list (list (list float))) :
  length queries = length keys ->
  QueryKeyMul._mul_ragged_to_dense_to_ragged hdim queries keys
  = ret (spec_logits queries keys).
Proof.
  intros H. unfold QueryKeyMul._mul_ragged_to_dense_to_ragged, to_tensor.
  rewrite zipM_ret by (rewrite !length_map; exact H).
  rewrite bind_ret, combine_map_both, map_map. simpl.
  rewrite from_tensor_ok
    by (unfold row_lengths; rewrite !length_map, length_combine; lia).
  rewrite bind_ret.
  rewrite (part_ragged_rows queries keys _ _ H).
  apply (dense_to_ragged_tail queries keys
           (fun p qj =>
              map (fun kk => dot qj kk)
                  (snd p ++ repeat (repeat (Fin 0) hdim)
                                   (max_row_length keys - length (snd p))))
           H).
  intros p qv. apply firstn_map_padded.
Qed.

(** C9: on queries and keys with the same number of examples the three
    multiplication methods return the same ragged logits, of shape
    [batch, None(args), None(context)], whose entry at example [b],
    argument position [a] and candidate [c] is the dot product of query
    vector [(b, a)] with key vector [(b, c)]. *)
Theorem query_key_methods_agree (hdim : nat)
  (queries keys : list (list (list float))) :
  length queries = length keys ->
  QueryKeyMul.call (QueryKeyMul.mk "map_fn") hdim queries keys
  = ret (spec_logits queries keys)
  /\ QueryKeyMul.call (QueryKeyMul.mk "broadcast_ragged") hdim queries keys
     = ret (spec_logits queries keys)
  /\ QueryKeyMul.call (QueryKeyMul.mk "ragged_to_dense_to_ragged") hdim
                      queries keys
     = ret (spec_logits queries keys)
  /\ length (spec_logits queries keys) = length queries
  /\ forall b qs ks,
       nth_error queries b = Some qs -> nth_error keys b = Some ks ->
       exists rows,
         nth_error (spec_logits queries keys) b = Some rows
         /\ length rows = length qs
         /\ forall a qv,
              nth_error qs a = Some qv ->
              exists row,
                nth_error rows a = Some row
                /\ length row = length ks
                /\ forall c kv, nth_error ks c = Some kv ->
                                nth_error row c = Some (dot qv kv).
Proof.
  intros H. split; [| split; [| split; [| split]]].
  - apply (mul_map_fn_spec queries keys H).
  - apply (mul_broadcast_ragged_spec queries keys H).
  - apply (mul_ragged_to_dense_to_ragged_spec hdim queries keys H).
  - unfold spec_logits. rewrite length_map, length_combine. lia.
  - intros b qs ks Hq Hk. unfold spec_logits.
    rewrite nth_error_map, (nth_error_combine _ _ _ _ _ Hq Hk). simpl.
    eexists. split; [reflexivity |]. split; [apply length_map |].
    intros a qv Hqv. rewrite nth_error_map, Hqv. simpl.
    eexists. split; [reflexivity |]. split; [apply length_map |].
    intros c kv Hkv. rewrite nth_error_map, Hkv. reflexivity.
Qed.

Lemma query_key_methods_agree_witness :
  let queries := [[[Fin 1; Fin 2]; [Fin 3; Fin 4]]; []] in
  let keys := [[[Fin 5; Fin 6]]; [[Fin 7; Fin 8]]] in
  QueryKeyMul.call (QueryKeyMul.mk "map_fn") 2 queries keys
  = ret (spec_logits queries keys)
  /\ QueryKeyMul.call (QueryKeyMul.mk "broadcast_ragged") 2 queries keys
     = ret (spec_logits queries keys)
  /\ QueryKeyMul.call (QueryKeyMul.mk "ragged_to_dense_to_ragged") 2
                      queries keys
     = ret (spec_logits queries keys)
  /\ spec_logits queries keys
     = [[[dot [Fin 1; Fin 2] [Fin 5; Fin 6]];
         [dot [Fin 3; Fin 4] [Fin 5; Fin 6]]]; []].
Proof.
  intros queries keys.
  destruct (query_key_methods_agree 2 queries keys eq_refl)
    as [H1 [H2 [H3 _]]].
  repeat split; assumption.
Defined.

(** ** The dense logits that reach the joint normalization *)

Lemma split_rows_incl {A} (lengths : list nat) :
  forall (flat : list A),
    Forall (fun rows => incl rows flat) (split_rows lengths flat).
Proof.
  induction lengths as [| n lengths IH]; intros flat; simpl; constructor.
  - intros x Hx. rewrite <- (firstn_skipn n flat).
    apply in_or_app. left. exact Hx.
  - specialize (IH (skipn n flat)). rewrite Forall_forall in IH.
    apply Forall_forall. intros rows Hrows x Hx.
    rewrite <- (firstn_skipn n flat). apply in_or_app. right.
    apply (IH rows Hrows x Hx).
Qed.

(** The dense logits built from finite ragged logits hold real numbers, at
    the candidates and in the rows that pad the argument axis, and -inf, in
    the padding of the context axis: nothing else reaches
    [_normalize_logits]. *)
Lemma convert_ragged_logits_to_dense_entries
  (logits : list (list (list float))) :
  Forall (Forall (Forall finite)) logits ->
  exists dense,
    convert_ragged_logits_to_dense logits = ret dense
    /\ Forall (Forall (Forall below_inf)) (d_data dense).
Proof.
  intros Hfin. unfold convert_ragged_logits_to_dense.
  rewrite with_values_ok by (unfold values, to_tensor; apply length_map).
  rewrite bind_ret. eexists. split; [reflexivity |]. simpl.
  assert (Hflat : Forall (Forall below_inf) (to_tensor NInf (values logits))).
  { unfold to_tensor, values. apply Forall_forall. intros row Hrow.
    apply in_map_iff in Hrow. destruct Hrow as [r [<- Hr]].
    apply in_concat in Hr. destruct Hr as [rows [Hrows Hr]].
    rewrite Forall_forall in Hfin. specialize (Hfin rows Hrows).
    rewrite Forall_forall in Hfin. specialize (Hfin r Hr).
    apply Forall_app. split.
    - apply (Forall_impl _ below_inf_finite Hfin).
    - apply Forall_forall. intros x Hx. apply repeat_spec in Hx.
      subst x. exact I. }
  unfold to_tensor at 1. apply Forall_forall. intros rows Hrows.
  apply in_map_iff in Hrows. destruct Hrows as [rs [<- Hrs]].
  apply Forall_app. split.
  - pose proof (split_rows_incl (row_lengths logits)
                  (to_tensor NInf (values logits))) as Hincl.
    rewrite Forall_forall in Hincl. specialize (Hincl rs Hrs).
    apply Forall_forall. intros row Hrow.
    rewrite Forall_forall in Hflat. apply Hflat. apply Hincl. exact Hrow.
  - apply Forall_forall. intros row Hrow. apply repeat_spec in Hrow.
    subst row. apply Forall_forall. intros x Hx. apply repeat_spec in Hx.
    subst x. exact I.
Qed.

(** ** Strict accuracy *)

Lemma zipM_ret_inv {A B C} (f : A -> B -> C) l1 l2 r :
  zipM (fun a b => ret (f a b)) l1 l2 = ret r ->
  length l1 = length l2
  /\ r = map (fun p => f (fst p) (snd p)) (combine l1 l2).
Proof.
  intros H. destruct (zipM_length _ _ _ _ H) as [Hlen _].
  split; [exact Hlen |].
  rewrite (zipM_ret f l1 l2 Hlen) in H. inversion H. reflexivity.
Qed.

Lemma ragged_map2_inv {A B C} (f : A -> B -> C) x y r :
  ragged_map2 f x y = ret r ->
  Forall2 (fun a b => length a = length b) x y
  /\ r = map (fun p => map (fun q => f (fst q) (snd q))
                           (combine (fst p) (snd p)))
             (combine x y).
Proof.
  unfold ragged_map2. revert y r.
  induction x as [| a x IH]; intros [| b y] r H.
  - inversion H. split; constructor.
  - apply zipM_length in H. simpl in H. lia.
  - apply zipM_length in H. simpl in H. lia.
  - pose proof (zipM_length _ _ _ _ H) as [Hlen _]. simpl in Hlen.
    rewrite zipM_cons in H by lia.
    invert_bind H c Hc. invert_bind H cs Hcs.
    inversion H; subst r.
    apply zipM_ret_inv in Hc. destruct Hc as [Hab ->].
    destruct (IH y cs Hcs) as [Hall ->].
    split; [constructor; assumption | reflexivity].
Qed.

Lemma ragged_where_inv {A} (cond : list (list bool)) (x y r : list (list A)) :
  ragged_where cond x y = ret r ->
  Forall2 (fun a b => length a = length b) x y
  /\ Forall2 (fun c a => length c = length a) cond x
  /\ r = map (fun p => map (fun q => if fst q : bool
                                     then fst (snd q) else snd (snd q))
                           (combine (fst p) (snd p)))
             (combine cond
                (map (fun p => map (fun q => (fst q, snd q))
                                   (combine (fst p) (snd p)))
                     (combine x y)))
  /\ forall b a c u v,
       position cond b a = Some c -> position x b a = Some u ->
       position y b a = Some v ->
       position r b a = Some (if c then u else v).
Proof.
  unfold ragged_where. intros H.
  invert_bind H xy Hxy.
  apply ragged_map2_inv in Hxy. destruct Hxy as [Sxy ->].
  apply ragged_map2_inv in H. destruct H as [Sc ->].
  split; [exact Sxy |]. split; [| split; [reflexivity |]].
  - clear - Sxy Sc. revert cond Sc.
    induction Sxy as [| a b x y Hab _ IH]; intros cond Sc; simpl in Sc;
      inversion Sc; subst; constructor.
    + rewrite length_map, length_combine in *. lia.
    + apply IH. assumption.
  - intros b a c u v Hc Hu Hv.
    pose proof (position_map2 (@pair A A) _ _ _ _ _ _ Hu Hv) as Hp.
    apply (position_map2 (fun (c : bool) (p : A * A) =>
                            if c then fst p else snd p)
             _ _ _ _ _ _ Hc Hp).
Qed.

Lemma position_map2_inv {A B C} (h : A -> B -> C)
  (x : list (list A)) (y : list (list B)) b a w :
  position (map (fun p => map (fun q => h (fst q) (snd q))
                              (combine (fst p) (snd p)))
                (combine x y)) b a
  = Some w ->
  exists u v, position x b a = Some u /\ position y b a = Some v
              /\ w = h u v.
Proof.
  unfold position. rewrite nth_error_map.
  destruct (nth_error (combine x y) b) as [[xs ys] |] eqn:E; simpl;
    [| discriminate].
  rewrite nth_error_map.
  destruct (nth_error (combine xs ys) a) as [[u v] |] eqn:E'; simpl;
    [| discriminate].
  intros Hw. inversion Hw; subst. exists u, v.
  assert (Hsplit : forall {X Y} (l1 : list X) (l2 : list Y) i p q,
             nth_error (combine l1 l2) i = Some (p, q) ->
             nth_error l1 i = Some p /\ nth_error l2 i = Some q).
  { intros X Y l1. induction l1 as [| x1 l1 IH]; intros [| y1 l2] i p q Hn;
      try (destruct i; discriminate).
    destruct i as [| i]; simpl in *.
    - inversion Hn; subst. split; reflexivity.
    - apply IH. exact Hn. }
  destruct (Hsplit _ _ _ _ _ _ _ E) as [Ex Ey].
  destruct (Hsplit _ _ _ _ _ _ _ E') as [Eu Ev].
  rewrite Ex, Ey. repeat split; assumption.
Qed.

Lemma position_same_shape {A B} (x : list (list A)) (y : list (list B)) b a u :
  Forall2 (fun r s => length r = length s) x y ->
  position x b a = Some u -> exists v, position y b a = Some v.
Proof.
  unfold position. intros H Hu.
  destruct (nth_error x b) as [xs |] eqn:Ex; [| discriminate].
  destruct (Forall2_nth_error _ _ _ _ _ H Ex) as [ys [Ey Hlen]].
  rewrite Ey. apply (nth_error_same_length xs ys a u Hlen Hu).
Qed.

Lemma argmax_nonneg (row : list float) (p : Z) :
  argmax row = ret p -> (0 <= p)%Z.
Proof.
  destruct row as [| x row]; simpl; intros H; inversion H. lia.
Qed.

Lemma nth_error_combine_inv {A B} (l1 : list A) :
  forall (l2 : list B) i p q,
    nth_error (combine l1 l2) i = Some (p, q) ->
    nth_error l1 i = Some p /\ nth_error l2 i = Some q.
Proof.
  induction l1 as [| x1 l1 IH]; intros [| y1 l2] i p q Hn;
    try (destruct i; discriminate).
  destruct i as [| i]; simpl in *.
  - inversion Hn; subst. split; reflexivity.
  - apply IH. exact Hn.
Qed.

Lemma nth_error_map_combine_inv {A B C} (F : A * B -> C) l1 l2 i c :
  nth_error (map F (combine l1 l2)) i = Some c ->
  exists a b, nth_error l1 i = Some a /\ nth_error l2 i = Some b
              /\ c = F (a, b).
Proof.
  rewrite nth_error_map.
  destruct (nth_error (combine l1 l2) i) as [[a b] |] eqn:E; simpl;
    [| discriminate].
  intros H. inversion H; subst. exists a, b.
  destruct (nth_error_combine_inv _ _ _ _ _ E) as [Ha Hb].
  repeat split; assumption.
Qed.

Lemma pred_positions (logits : list (list (list float)))
  (pred : list (list Z)) :
  mapM (mapM argmax) logits = ret pred ->
  (forall b a row, position logits b a = Some row ->
                   exists p, position pred b a = Some p /\ argmax row = ret p)
  /\ (forall b a p, position pred b a = Some p -> (0 <= p)%Z).
Proof.
  intros H. split.
  - intros b a row Hrow. unfold position in *.
    destruct (nth_error logits b) as [rows |] eqn:E; [| discriminate].
    destruct (mapM_nth _ _ _ H b rows E) as [prow [Hp Hm]].
    rewrite Hp. apply (mapM_nth _ _ _ Hm a row Hrow).
  - intros b a p Hp. unfold position in Hp.
    destruct (nth_error pred b) as [prow |] eqn:E; [| discriminate].
    pose proof (mapM_length _ _ _ H) as Hlen.
    destruct (nth_error_same_length pred logits b prow Hlen E) as [rows Hrows].
    destruct (mapM_nth _ _ _ H b rows Hrows) as [prow' [Hp' Hm]].
    rewrite E in Hp'. inversion Hp'; subst prow'.
    pose proof (mapM_length _ _ _ Hm) as Hlen'.
    destruct (nth_error_same_length prow rows a p Hlen' Hp) as [row Hrow].
    destruct (mapM_nth _ _ _ Hm a row Hrow) as [p' [Hp'' Ha]].
    rewrite Hp in Hp''. inversion Hp''; subst p'.
    apply (argmax_nonneg row p Ha).
Qed.

Lemma fmul_cast_one (x y : bool) :
  fmul (cast_bool x) (cast_bool y) = Fin 1 -> x = true /\ y = true.
Proof.
  destruct x, y; simpl; intros H; try (split; reflexivity);
    inversion H; lra.
Qed.

Lemma fmul_cast_zero (x : bool) : fmul (cast_bool x) (Fin 0) = Fin 0.
Proof. destruct x; simpl; f_equal; lra. Qed.

Lemma forallb_nth (l : list bool) (a : nat) (c : bool) :
  forallb (fun b => b) l = true -> nth_error l a = Some c -> c = true.
Proof.
  intros H Hn. rewrite forallb_forall in H. apply H.
  apply (nth_error_In _ _ Hn).
Qed.

Lemma forallb_false_at (l : list bool) (a : nat) :
  nth_error l a = Some false -> forallb (fun b => b) l = false.
Proof.
  intros Hn. destruct (forallb (fun b => b) l) eqn:E; [| reflexivity].
  symmetry. apply (forallb_nth l a false E Hn).
Qed.

Lemma reduce_all_at (x : list (list bool)) (b a : nat) (v c : bool) :
  nth_error (reduce_all x) b = Some v -> position x b a = Some c ->
  (c = false -> v = false) /\ (v = true -> c = true).
Proof.
  unfold reduce_all, position. rewrite nth_error_map.
  destruct (nth_error x b) as [row |]; simpl; [| discriminate].
  intros Hv Hc. inversion Hv; subst v. split.
  - intros ->. apply (forallb_false_at row a Hc).
  - intros H. apply (forallb_nth row a c H Hc).
Qed.

(** The intermediate tensors of a run of [compute_metrics]. *)
Lemma compute_metrics_inv
  (tactic : list Z) (tactic_logits : list (list float))
  (local_arguments global_arguments : list (list Z))
  (local_arguments_logits global_arguments_logits : list (list (list float)))
  (seqs stricts : list float) :
  GlobalArgumentModel.compute_metrics tactic tactic_logits
    local_arguments global_arguments
    local_arguments_logits global_arguments_logits
  = ret (seqs, stricts) ->
  exists tacc LL GL lpred gpred til tix pil pix eil eix,
    zipM sparse_categorical_accuracy tactic tactic_logits = ret tacc
    /\ ragged_logits local_arguments (to_tensor3 NInf local_arguments_logits)
       = ret LL
    /\ mapM (mapM argmax) LL = ret lpred
    /\ ragged_logits global_arguments
                     (to_tensor3 NInf global_arguments_logits) = ret GL
    /\ mapM (mapM argmax) GL = ret gpred
    /\ ragged_map2 Z.geb local_arguments global_arguments = ret til
    /\ ragged_where til local_arguments global_arguments = ret tix
    /\ ragged_map2 fge (map (map reduce_max) LL) (map (map reduce_max) GL)
       = ret pil
    /\ ragged_where pil lpred gpred = ret pix
    /\ ragged_map2 Bool.eqb til pil = ret eil
    /\ ragged_map2 Z.eqb tix pix = ret eix
    /\ zipM (fun a b => ret (cast_bool (a && b)))
            (reduce_all eil) (reduce_all eix) = ret seqs
    /\ zipM (fun t s => ret (fmul t s)) tacc seqs = ret stricts.
Proof.
  unfold GlobalArgumentModel.compute_metrics. intros H.
  invert_bind H tacc H1. invert_bind H LL H2. invert_bind H lpred H3.
  invert_bind H GL H4. invert_bind H gpred H5. invert_bind H til H6.
  invert_bind H tix H7. invert_bind H pil H8. invert_bind H pix H9.
  invert_bind H eil H10. invert_bind H eix H11. invert_bind H both H12.
  invert_bind H strict H13.
  inversion H; subst both strict.
  exists tacc, LL, GL, lpred, gpred, til, tix, pil, pix, eil, eix.
  repeat split; assumption.
Qed.

(** What one example contributes to the two running means. *)
Lemma strict_accuracy_at
  (tacc seqs stricts : list float) (eil eix : list (list bool))
  (b : nat) (s : float) :
  zipM (fun a b => ret (cast_bool (a && b)))
       (reduce_all eil) (reduce_all eix) = ret seqs ->
  zipM (fun t s => ret (fmul t s)) tacc seqs = ret stricts ->
  nth_error stricts b = Some s ->
  exists t vil vix,
    nth_error tacc b = Some t
    /\ nth_error (reduce_all eil) b = Some vil
    /\ nth_error (reduce_all eix) b = Some vix
    /\ s = fmul t (cast_bool (vil && vix)).
Proof.
  intros Hseq Hstrict Hs.
  apply zipM_ret_inv in Hseq. destruct Hseq as [_ ->].
  apply zipM_ret_inv in Hstrict. destruct Hstrict as [_ ->].
  apply nth_error_map_combine_inv in Hs.
  destruct Hs as [t [sq [Ht [Hsq ->]]]].
  apply nth_error_map_combine_inv in Hsq.
  destruct Hsq as [vil [vix [Hil [Hix ->]]]].
  exists t, vil, vix. repeat split; assumption.
Qed.

Lemma tactic_accuracy_at (tactic : list Z) (tactic_logits : list (list float))
  (tacc : list float) (b : nat) (t : float) :
  zipM sparse_categorical_accuracy tactic tactic_logits = ret tacc ->
  nth_error tacc b = Some t ->
  exists y logits p,
    nth_error tactic b = Some y /\ nth_error tactic_logits b = Some logits
    /\ argmax logits = ret p /\ t = cast_bool (p =? y)%Z.
Proof.
  intros H Ht.
  destruct (zipM_length _ _ _ _ H) as [Hlen Hlen'].
  destruct (nth_error_same_length tacc tactic b t Hlen' Ht) as [y Hy].
  destruct (nth_error_same_length tactic tactic_logits b y Hlen Hy)
    as [logits Hl].
  destruct (zipM_nth _ _ _ _ H b y logits Hy Hl) as [c [Hc Hacc]].
  rewrite Ht in Hc. inversion Hc; subst c.
  unfold sparse_categorical_accuracy in Hacc.
  invert_bind Hacc p Hp.
  inversion Hacc. exists y, logits, p. repeat split; assumption.
Qed.

(** The two comparisons of [compute_metrics] at one argument position. *)
Lemma position_checks
  (local_true global_true : list (list Z)) (LL GL : list (list (list float)))
  (lpred gpred : list (list Z)) (til pil eil eix : list (list bool))
  (tix pix : list (list Z))
  (b a : nat) (lt gt : Z) (lrow grow : list float) :
  mapM (mapM argmax) LL = ret lpred ->
  mapM (mapM argmax) GL = ret gpred ->
  ragged_map2 Z.geb local_true global_true = ret til ->
  ragged_where til local_true global_true = ret tix ->
  ragged_map2 fge (map (map reduce_max) LL) (map (map reduce_max) GL)
  = ret pil ->
  ragged_where pil lpred gpred = ret pix ->
  ragged_map2 Bool.eqb til pil = ret eil ->
  ragged_map2 Z.eqb tix pix = ret eix ->
  position local_true b a = Some lt -> position global_true b a = Some gt ->
  position LL b a = Some lrow -> position GL b a = Some grow ->
  exists pl pg,
    argmax lrow = ret pl /\ argmax grow = ret pg
    /\ position eil b a
       = Some (Bool.eqb (lt >=? gt)%Z
                        (fge (reduce_max lrow) (reduce_max grow)))
    /\ position eix b a
       = Some ((if (lt >=? gt)%Z then lt else gt)
               =? (if fge (reduce_max lrow) (reduce_max grow)
                   then pl else pg))%Z.
Proof.
  intros Hlp Hgp Htil Htix Hpil Hpix Heil Heix Hlt Hgt Hlrow Hgrow.
  destruct (proj1 (pred_positions LL lpred Hlp) b a lrow Hlrow)
    as [pl [Hpl Hal]].
  destruct (proj1 (pred_positions GL gpred Hgp) b a grow Hgrow)
    as [pg [Hpg Hag]].
  exists pl, pg. split; [exact Hal |]. split; [exact Hag |].
  apply ragged_map2_inv in Htil. destruct Htil as [_ Etil].
  assert (Ptil : position til b a = Some (lt >=? gt)%Z)
    by (rewrite Etil; apply (position_map2 Z.geb _ _ _ _ _ _ Hlt Hgt)).
  apply ragged_map2_inv in Hpil. destruct Hpil as [_ Epil].
  assert (Ppil : position pil b a
                 = Some (fge (reduce_max lrow) (reduce_max grow))).
  { rewrite Epil.
    apply (position_map2 fge _ _ _ _ _ _
             (position_map reduce_max _ _ _ _ Hlrow)
             (position_map reduce_max _ _ _ _ Hgrow)). }
  destruct (ragged_where_inv _ _ _ _ Htix) as [_ [_ [_ Wtix]]].
  pose proof (Wtix b a _ _ _ Ptil Hlt Hgt) as Ptix.
  destruct (ragged_where_inv _ _ _ _ Hpix) as [_ [_ [_ Wpix]]].
  pose proof (Wpix b a _ _ _ Ppil Hpl Hpg) as Ppix.
  apply ragged_map2_inv in Heil. destruct Heil as [_ ->].
  apply ragged_map2_inv in Heix. destruct Heix as [_ ->].
  split.
  - apply (position_map2 Bool.eqb _ _ _ _ _ _ Ptil Ppil).
  - apply (position_map2 Z.eqb _ _ _ _ _ _ Ptix Ppix).
Qed.

(** C5: for every example, the strict accuracy is 1 only if the arg-max of
    the tactic logits is the ground-truth tactic and, at every argument
    position, the predicted pool (local when the best local logit is at
    least the best global one) is the pool of the ground truth and the
    arg-max within that pool is the ground-truth index.  A position where the
    predicted pool differs from the ground-truth pool makes strict accuracy
    0, and so does a position whose ground truth is the sentinel in both
    pools.  [LL] and [GL] are the logit rows that the metric reads, after
    padding and [ragged_logits]. *)
Theorem strict_accuracy_spec
  (tactic : list Z) (tactic_logits : list (list float))
  (local_arguments global_arguments : list (list Z))
  (local_arguments_logits global_arguments_logits : list (list (list float)))
  (seqs stricts : list float) :
  GlobalArgumentModel.compute_metrics tactic tactic_logits
    local_arguments global_arguments
    local_arguments_logits global_arguments_logits
  = ret (seqs, stricts) ->
  exists LL GL,
    ragged_logits local_arguments (to_tensor3 NInf local_arguments_logits)
    = ret LL
    /\ ragged_logits global_arguments
                     (to_tensor3 NInf global_arguments_logits) = ret GL
    /\ length stricts = length tactic
    /\ forall b s,
         nth_error stricts b = Some s ->
         (s = Fin 1 ->
          (exists y logits,
              nth_error tactic b = Some y
              /\ nth_error tactic_logits b = Some logits
              /\ argmax logits = ret y)
          /\ forall a lt gt lrow grow,
               position local_arguments b a = Some lt ->
               position global_arguments b a = Some gt ->
               position LL b a = Some lrow -> position GL b a = Some grow ->
               fge (reduce_max lrow) (reduce_max grow) = (lt >=? gt)%Z
               /\ argmax (if (lt >=? gt)%Z then lrow else grow)
                  = ret (if (lt >=? gt)%Z then lt else gt))
         /\ (forall a lt gt lrow grow,
               position local_arguments b a = Some lt ->
               position global_arguments b a = Some gt ->
               position LL b a = Some lrow -> position GL b a = Some grow ->
               fge (reduce_max lrow) (reduce_max grow) <> (lt >=? gt)%Z ->
               s = Fin 0)
         /\ (forall a,
               position local_arguments b a = Some sentinel ->
               position global_arguments b a = Some sentinel ->
               s = Fin 0).
Proof.
  intros H.
  destruct (compute_metrics_inv _ _ _ _ _ _ _ _ H)
    as [tacc [LL [GL [lpred [gpred [til [tix [pil [pix [eil [eix
         [Htacc [HLL [Hlp [HGL [Hgp [Htil [Htix [Hpil [Hpix [Heil [Heix
         [Hseq Hstrict]]]]]]]]]]]]]]]]]]]]]]].
  exists LL, GL. split; [exact HLL |]. split; [exact HGL |]. split.
  { destruct (zipM_length _ _ _ _ Hstrict) as [_ L1].
    destruct (zipM_length _ _ _ _ Htacc) as [_ L2]. lia. }
  intros b s Hs.
  destruct (strict_accuracy_at tacc seqs stricts eil eix b s Hseq Hstrict Hs)
    as [t [vil [vix [Ht [Hvil [Hvix ->]]]]]].
  destruct (tactic_accuracy_at tactic tactic_logits tacc b t Htacc Ht)
    as [y [logits [p [Hy [Hlogits [Hp ->]]]]]].
  split; [| split].
  - intros Hone. apply fmul_cast_one in Hone. destruct Hone as [Hpy Hv].
    apply andb_true_iff in Hv. destruct Hv as [-> ->].
    apply Z.eqb_eq in Hpy. subst p. split.
    + exists y, logits. repeat split; assumption.
    + intros a lt gt lrow grow Hlt Hgt Hlrow Hgrow.
      destruct (position_checks _ _ _ _ _ _ _ _ _ _ _ _ b a lt gt lrow grow
                  Hlp Hgp Htil Htix Hpil Hpix Heil Heix Hlt Hgt Hlrow Hgrow)
        as [pl [pg [Hal [Hag [Pil Pix]]]]].
      destruct (reduce_all_at eil b a true _ Hvil Pil) as [_ Cil].
      destruct (reduce_all_at eix b a true _ Hvix Pix) as [_ Cix].
      specialize (Cil eq_refl). specialize (Cix eq_refl).
      apply eqb_prop in Cil. apply Z.eqb_eq in Cix.
      split; [symmetry; exact Cil |].
      rewrite <- Cil in Cix.
      destruct (lt >=? gt)%Z; subst; assumption.
  - intros a lt gt lrow grow Hlt Hgt Hlrow Hgrow Hne.
    destruct (position_checks _ _ _ _ _ _ _ _ _ _ _ _ b a lt gt lrow grow
                Hlp Hgp Htil Htix Hpil Hpix Heil Heix Hlt Hgt Hlrow Hgrow)
      as [pl [pg [_ [_ [Pil _]]]]].
    destruct (reduce_all_at eil b a vil _ Hvil Pil) as [Cil _].
    rewrite Cil; [apply fmul_cast_zero |].
    apply eqb_false_iff. intros E. apply Hne. symmetry. exact E.
  - intros a Hlt Hgt.
    apply ragged_map2_inv in Htil. destruct Htil as [_ Etil].
    assert (Ptil : position til b a = Some (sentinel >=? sentinel)%Z)
      by (rewrite Etil; apply (position_map2 Z.geb _ _ _ _ _ _ Hlt Hgt)).
    destruct (ragged_where_inv _ _ _ _ Htix) as [_ [_ [_ Wtix]]].
    pose proof (Wtix b a _ _ _ Ptil Hlt Hgt) as Ptix. simpl in Ptix.
    destruct (ragged_map2_inv _ _ _ _ Heix) as [Sh Eeix].
    destruct (position_same_shape tix pix b a _ Sh Ptix) as [w Pw].
    assert (Hw : (0 <= w)%Z).
    { destruct (ragged_where_inv _ _ _ _ Hpix) as [_ [_ [Epix _]]].
      rewrite Epix in Pw.
      apply (position_map2_inv
               (fun (c : bool) (p : Z * Z) => if c then fst p else snd p))
        in Pw.
      destruct Pw as [c [uv [_ [Puv ->]]]].
      apply (position_map2_inv (@pair Z Z)) in Puv.
      destruct Puv as [u [v [Pu [Pv ->]]]].
      simpl.
      destruct c; [apply (proj2 (pred_positions LL lpred Hlp) b a u Pu)
                  | apply (proj2 (pred_positions GL gpred Hgp) b a v Pv)]. }
    assert (Pix : position eix b a = Some (sentinel =? w)%Z)
      by (rewrite Eeix; apply (position_map2 Z.eqb _ _ _ _ _ _ Ptix Pw)).
    destruct (reduce_all_at eix b a vix _ Hvix Pix) as [Cix _].
    rewrite Cix; [rewrite andb_false_r; apply fmul_cast_zero |].
    apply Z.eqb_neq. unfold sentinel. lia.
Qed.

(** The scenario of the specification: a tactic with two arguments, the
    first the local candidate 3, the second the global candidate 7. *)
Example strict_accuracy_scenario :
  GlobalArgumentModel.compute_metrics
    [1%Z] [[NInf; Fin 0]]
    [[3; -1]%Z] [[-1; 7]%Z]
    [[[NInf; NInf; NInf; Fin 0]; [NInf; NInf; NInf; NInf]]]
    [[[NInf; NInf; NInf; NInf; NInf; NInf; NInf; NInf];
      [NInf; NInf; NInf; NInf; NInf; NInf; NInf; Fin 0]]]
  = ret ([Fin 1], [Fin (1 * 1)]).
Proof. reflexivity. Qed.

(** The same scenario with a local candidate predicted at the second
    position. *)
Example strict_accuracy_wrong_pool :
  GlobalArgumentModel.compute_metrics
    [1%Z] [[NInf; Fin 0]]
    [[3; -1]%Z] [[-1; 7]%Z]
    [[[NInf; NInf; NInf; Fin 0]; [Fin 0; NInf; NInf; NInf]]]
    [[[NInf; NInf; NInf; NInf; NInf; NInf; NInf; NInf];
      [NInf; NInf; NInf; NInf; NInf; NInf; NInf; NInf]]]
  = ret ([Fin 0], [Fin (1 * 0)]).
Proof. reflexivity. Qed.

(** An argument that is absent from both pools. *)
Example strict_accuracy_absent_argument :
  GlobalArgumentModel.compute_metrics
    [1%Z] [[NInf; Fin 0]]
    [[-1]%Z] [[-1]%Z]
    [[[Fin 0]]] [[[NInf]]]
  = ret ([Fin 0], [Fin (1 * 0)]).
Proof. reflexivity. Qed.

Lemma strict_accuracy_spec_witness :
  let tactic := [1%Z] in
  let tactic_logits := [[NInf; Fin 0]] in
  let local_arguments := [[3; -1]%Z] in
  let global_arguments := [[-1; 7]%Z] in
  let local_arguments_logits :=
    [[[NInf; NInf; NInf; Fin 0]; [NInf; NInf; NInf; NInf]]] in
  let global_arguments_logits :=
    [[[NInf; NInf; NInf; NInf; NInf; NInf; NInf; NInf];
      [NInf; NInf; NInf; NInf; NInf; NInf; NInf; Fin 0]]] in
  let stricts := [Fin (1 * 1)] in
  exists LL GL,
    ragged_logits local_arguments (to_tensor3 NInf local_arguments_logits)
    = ret LL
    /\ ragged_logits global_arguments
                     (to_tensor3 NInf global_arguments_logits) = ret GL
    /\ length stricts = length tactic
    /\ forall b s,
         nth_error stricts b = Some s ->
         (s = Fin 1 ->
          (exists y logits,
              nth_error tactic b = Some y
              /\ nth_error tactic_logits b = Some logits
              /\ argmax logits = ret y)
          /\ forall a lt gt lrow grow,
               position local_arguments b a = Some lt ->
               position global_arguments b a = Some gt ->
               position LL b a = Some lrow -> position GL b a = Some grow ->
               fge (reduce_max lrow) (reduce_max grow) = (lt >=? gt)%Z
               /\ argmax (if (lt >=? gt)%Z then lrow else grow)
                  = ret (if (lt >=? gt)%Z then lt else gt))
         /\ (forall a lt gt lrow grow,
               position local_arguments b a = Some lt ->
               position global_arguments b a = Some gt ->
               position LL b a = Some lrow -> position GL b a = Some grow ->
               fge (reduce_max lrow) (reduce_max grow) <> (lt >=? gt)%Z ->
               s = Fin 0)
         /\ (forall a,
               position local_arguments b a = Some sentinel ->
               position global_arguments b a = Some sentinel ->
               s = Fin 0).
Proof.
  intros tactic tactic_logits local_arguments global_arguments
         local_arguments_logits global_arguments_logits stricts.
  apply (strict_accuracy_spec tactic tactic_logits
           local_arguments global_arguments
           local_arguments_logits global_arguments_logits
           [Fin 1] stricts).
  reflexivity.
Defined.

(** ** Further properties of the joint normalization *)

Lemma fmax_shift (c : R) (x y : float) :
  below_inf x -> below_inf y ->
  fmax (fadd x (Fin c)) (fadd y (Fin c)) = fadd (fmax x y) (Fin c).
Proof.
  destruct x as [a | | |], y as [b | | |]; simpl; try contradiction;
    intros _ _; try reflexivity.
  destruct (Rle_dec (b + c) (a + c)), (Rle_dec b a); simpl;
    try reflexivity; lra.
Qed.

Lemma reduce_max_shift (c : R) (l : list float) :
  Forall below_inf l ->
  reduce_max (map (fun x => fadd x (Fin c)) l) = fadd (reduce_max l) (Fin c).
Proof.
  induction 1 as [| x l Hx Hl IH]; simpl; [reflexivity |].
  rewrite IH. apply fmax_shift; [exact Hx |].
  apply reduce_max_below_inf. exact Hl.
Qed.

Lemma shift_cancel (c M : R) (l : list float) :
  Forall below_inf l ->
  map (fun x => fsub x (Fin (M + c))) (map (fun x => fadd x (Fin c)) l)
  = map (fun x => fsub x (Fin M)) l.
Proof.
  induction 1 as [| x l Hx _ IH]; simpl; [reflexivity |].
  rewrite IH. f_equal.
  destruct x; simpl in *; try contradiction; [| reflexivity].
  f_equal. lra.
Qed.

(** Adding one constant to all logits of a position does not change its
    normalized logits. *)
Lemma normalize_position_shift (c : R) (l g : list float) :
  Forall below_inf l -> Forall below_inf g -> Exists finite (l ++ g) ->
  GlobalArgumentPrediction.normalize_position
    (map (fun x => fadd x (Fin c)) l) (map (fun x => fadd x (Fin c)) g)
  = GlobalArgumentPrediction.normalize_position l g.
Proof.
  intros Hl Hg Hex.
  destruct (shared_maximum l g Hl Hg Hex) as [M [HM _]].
  assert (HM' : reduce_max [reduce_max (map (fun x => fadd x (Fin c)) l);
                            reduce_max (map (fun x => fadd x (Fin c)) g)]
                = Fin (M + c)).
  { rewrite (reduce_max_shift c l Hl), (reduce_max_shift c g Hg).
    change [fadd (reduce_max l) (Fin c); fadd (reduce_max g) (Fin c)]
      with (map (fun x => fadd x (Fin c)) [reduce_max l; reduce_max g]).
    rewrite reduce_max_shift, HM; [reflexivity |].
    repeat constructor; apply reduce_max_below_inf; assumption. }
  unfold GlobalArgumentPrediction.normalize_position.
  rewrite HM', HM.
  rewrite (shift_cancel c M l Hl), (shift_cancel c M g Hg). reflexivity.
Qed.

Lemma normalized_is_shifted (M norm : R) (l : list float) :
  Forall below_inf l ->
  map (fun x => fadd (fsub x (Fin M)) (Fin norm)) l
  = map (fun x => fadd x (Fin (norm - M))) l.
Proof.
  induction 1 as [| x l Hx _ IH]; simpl; [reflexivity |].
  rewrite IH. f_equal.
  destruct x; simpl in *; try contradiction; [| reflexivity].
  f_equal. lra.
Qed.

(** Normalizing the normalized logits of a position gives them back. *)
Lemma normalize_position_idempotent (l g : list float) :
  Forall below_inf l -> Forall below_inf g -> Exists finite (l ++ g) ->
  let n := GlobalArgumentPrediction.normalize_position l g in
  GlobalArgumentPrediction.normalize_position (fst n) (snd n) = n.
Proof.
  intros Hl Hg Hex n.
  destruct (normalize_position_spec l g Hl Hg Hex) as [M [norm [_ [Hn _]]]].
  rewrite (normalized_is_shifted M norm l Hl),
          (normalized_is_shifted M norm g Hg) in Hn.
  unfold n. rewrite Hn. simpl fst. simpl snd.
  rewrite normalize_position_shift by assumption. exact Hn.
Qed.

(** Two transformations of the rows that do not change the normalized
    logits of any position do not change those of a batch. *)
Lemma map_normalize_ext (F G : list float -> list float)
  (x y : list (list (list float))) :
  (forall l g, Forall below_inf l -> Forall below_inf g ->
               Exists finite (l ++ g) ->
               GlobalArgumentPrediction.normalize_position (F l) (G g)
               = GlobalArgumentPrediction.normalize_position l g) ->
  Forall2 (Forall2 (fun l g => Forall below_inf l /\ Forall below_inf g
                               /\ Exists finite (l ++ g))) x y ->
  map (fun p => map (fun q => GlobalArgumentPrediction.normalize_position
                                (fst q) (snd q))
                    (combine (fst p) (snd p)))
      (combine (map (map F) x) (map (map G) y))
  = map (fun p => map (fun q => GlobalArgumentPrediction.normalize_position
                                  (fst q) (snd q))
                      (combine (fst p) (snd p)))
        (combine x y).
Proof.
  intros HF H. induction H as [| rl rg x y Hr _ IH]; [reflexivity |].
  simpl. f_equal; [| exact IH].
  clear IH. induction Hr as [| l g rl rg [Bl [Bg Hex]] _ IH]; [reflexivity |].
  simpl. f_equal; [apply HF; assumption | exact IH].
Qed.

Lemma candidates_same_shape (x y : list (list (list float))) :
  Forall2 (Forall2 (fun l g => Forall below_inf l /\ Forall below_inf g
                               /\ Exists finite (l ++ g))) x y ->
  Forall2 (fun lrows grows : list (list float) => length lrows = length grows)
          x y.
Proof.
  induction 1 as [| rl rg x y Hr _ IH]; constructor; [| exact IH].
  apply (Forall2_length Hr).
Qed.

(** X1: adding one and the same constant to every local and global logit
    leaves the output of [_normalize_logits] unchanged, provided every
    position has a candidate (a finite logit) and no logit is +inf or
    NaN. *)
Theorem normalize_logits_shift_invariant (c : R)
  (local_arguments_logits global_arguments_logits : Dense3) :
  Forall2 (Forall2 (fun l g => Forall below_inf l /\ Forall below_inf g
                               /\ Exists finite (l ++ g)))
          (d_data local_arguments_logits) (d_data global_arguments_logits) ->
  GlobalArgumentPrediction._normalize_logits
    (shift_logits c local_arguments_logits)
    (shift_logits c global_arguments_logits)
  = GlobalArgumentPrediction._normalize_logits
      local_arguments_logits global_arguments_logits.
Proof.
  intros H. pose proof (candidates_same_shape _ _ H) as Hshape.
  unfold GlobalArgumentPrediction._normalize_logits, shift_logits.
  simpl d_data. simpl d_args. simpl d_ctx.
  rewrite (zipM2_ret GlobalArgumentPrediction.normalize_position _ _ Hshape).
  rewrite zipM2_ret.
  2:{ clear H. induction Hshape as [| rl rg x y Hr _ IH]; simpl; constructor;
      [rewrite !length_map; exact Hr | exact IH]. }
  rewrite (map_normalize_ext (map (fun x => fadd x (Fin c)))
                             (map (fun x => fadd x (Fin c))) _ _
             (normalize_position_shift c) H).
  reflexivity.
Qed.

Lemma normalize_logits_shift_invariant_witness :
  GlobalArgumentPrediction._normalize_logits
    (shift_logits 5 (mkDense3 1 2 [[[Fin 0; NInf]]]))
    (shift_logits 5 (mkDense3 1 1 [[[Fin 1]]]))
  = GlobalArgumentPrediction._normalize_logits
      (mkDense3 1 2 [[[Fin 0; NInf]]]) (mkDense3 1 1 [[[Fin 1]]]).
Proof.
  apply (normalize_logits_shift_invariant 5
           (mkDense3 1 2 [[[Fin 0; NInf]]]) (mkDense3 1 1 [[[Fin 1]]])).
  repeat constructor. exists 0%R. reflexivity.
Defined.

Lemma renormalize_pairs (x y : list (list (list float))) :
  Forall2 (Forall2 (fun l g => Forall below_inf l /\ Forall below_inf g
                               /\ Exists finite (l ++ g))) x y ->
  let pairs :=
    map (fun p => map (fun q => GlobalArgumentPrediction.normalize_position
                                  (fst q) (snd q))
                      (combine (fst p) (snd p)))
        (combine x y) in
  Forall2 (fun lrows grows : list (list float) => length lrows = length grows)
          (map (map fst) pairs) (map (map snd) pairs)
  /\ map (fun p => map (fun q => GlobalArgumentPrediction.normalize_position
                                   (fst q) (snd q))
                       (combine (fst p) (snd p)))
         (combine (map (map fst) pairs) (map (map snd) pairs))
     = pairs.
Proof.
  intros H. induction H as [| rl rg x y Hr _ [IH1 IH2]]; simpl;
    [split; [constructor | reflexivity] |].
  split.
  - constructor; [rewrite !length_map; reflexivity | exact IH1].
  - f_equal; [| exact IH2].
    clear IH1 IH2.
    induction Hr as [| l g rl rg [Bl [Bg Hex]] _ IH]; [reflexivity |].
    simpl. f_equal; [| exact IH].
    apply (normalize_position_idempotent l g Bl Bg Hex).
Qed.

(** X2: [_normalize_logits] is idempotent: normalizing its own output gives
    that output back, provided every position has a candidate and no logit
    is +inf or NaN. *)
Theorem normalize_logits_idempotent
  (local_arguments_logits global_arguments_logits : Dense3) :
  Forall2 (Forall2 (fun l g => Forall below_inf l /\ Forall below_inf g
                               /\ Exists finite (l ++ g)))
          (d_data local_arguments_logits) (d_data global_arguments_logits) ->
  exists normalized_local normalized_global,
    GlobalArgumentPrediction._normalize_logits
      local_arguments_logits global_arguments_logits
    = ret (normalized_local, normalized_global)
    /\ GlobalArgumentPrediction._normalize_logits
         normalized_local normalized_global
       = ret (normalized_local, normalized_global).
Proof.
  intros H. pose proof (candidates_same_shape _ _ H) as Hshape.
  destruct (renormalize_pairs _ _ H) as [Hshape' Hpairs].
  unfold GlobalArgumentPrediction._normalize_logits.
  rewrite (zipM2_ret GlobalArgumentPrediction.normalize_position _ _ Hshape).
  rewrite bind_ret. eexists _, _. split; [reflexivity |].
  simpl d_data. simpl d_args. simpl d_ctx.
  rewrite (zipM2_ret GlobalArgumentPrediction.normalize_position _ _ Hshape').
  rewrite bind_ret, Hpairs. reflexivity.
Qed.

Lemma normalize_logits_idempotent_witness :
  exists normalized_local normalized_global,
    GlobalArgumentPrediction._normalize_logits
      (mkDense3 1 2 [[[Fin 0; NInf]]]) (mkDense3 1 1 [[[Fin 1]]])
    = ret (normalized_local, normalized_global)
    /\ GlobalArgumentPrediction._normalize_logits
         normalized_local normalized_global
       = ret (normalized_local, normalized_global).
Proof.
  apply (normalize_logits_idempotent
           (mkDense3 1 2 [[[Fin 0; NInf]]]) (mkDense3 1 1 [[[Fin 1]]])).
  repeat constructor. exists 0%R. reflexivity.
Defined.

Lemma prob_le_total (y : float) (l : list float) :
  In y l -> (prob y <= total_prob l)%R.
Proof.
  unfold total_prob. induction l as [| x l IH]; simpl; [contradiction |].
  intros [-> | Hin].
  - pose proof (total_prob_nonneg l). unfold total_prob in *. lra.
  - pose proof (prob_nonneg x). specialize (IH Hin). lra.
Qed.

Lemma prob_le_one_nonpos (y : float) :
  below_inf y -> (prob y <= 1)%R -> fge (Fin 0) y = true.
Proof.
  destruct y as [r | | |]; simpl; try contradiction; intros _ H;
    [| reflexivity].
  destruct (Rle_dec r 0) as [Hr | Hr]; [reflexivity |].
  exfalso. assert (0 < r)%R by lra.
  pose proof (exp_increasing 0 r H0). rewrite exp_0 in *. lra.
Qed.

(** The normalized logits of a position stand for probabilities that add up
    to 1. *)
Lemma normalized_total_prob (M norm : R) (lrow grow : list float) :
  Forall below_inf lrow -> Forall below_inf grow ->
  let nlrow := map (fun x => fadd (fsub x (Fin M)) (Fin norm)) lrow in
  let ngrow := map (fun x => fadd (fsub x (Fin M)) (Fin norm)) grow in
  fadd (reduce_sum (map fexp nlrow)) (reduce_sum (map fexp ngrow)) = Fin 1 ->
  Forall below_inf nlrow /\ Forall below_inf ngrow
  /\ (total_prob nlrow + total_prob ngrow = 1)%R.
Proof.
  intros Bl Bg nlrow ngrow Hsum.
  assert (Bnl : Forall below_inf nlrow).
  { unfold nlrow. rewrite normalized_is_shifted by assumption.
    apply shift_below_inf. exact Bl. }
  assert (Bng : Forall below_inf ngrow).
  { unfold ngrow. rewrite normalized_is_shifted by assumption.
    apply shift_below_inf. exact Bg. }
  split; [exact Bnl |]. split; [exact Bng |].
  rewrite (reduce_sum_exp _ Bnl), (reduce_sum_exp _ Bng) in Hsum.
  simpl in Hsum. inversion Hsum. reflexivity.
Qed.

(** X3: a normalized logit is never positive: at a position with a
    candidate every output of [_normalize_logits] is -inf or a real number
    that is at most 0, the logarithm of a probability between 0 and 1. *)
Theorem normalized_logits_are_nonpositive
  (local_arguments_logits global_arguments_logits : Dense3)
  (b a : nat) (lrow grow : list float) :
  Forall2 (fun lrows grows => length lrows = length grows)
          (d_data local_arguments_logits) (d_data global_arguments_logits) ->
  position (d_data local_arguments_logits) b a = Some lrow ->
  position (d_data global_arguments_logits) b a = Some grow ->
  Forall below_inf lrow -> Forall below_inf grow ->
  Exists finite (lrow ++ grow) ->
  exists normalized_local normalized_global nlrow ngrow,
    GlobalArgumentPrediction._normalize_logits
      local_arguments_logits global_arguments_logits
    = ret (normalized_local, normalized_global)
    /\ position (d_data normalized_local) b a = Some nlrow
    /\ position (d_data normalized_global) b a = Some ngrow
    /\ forall y, In y (nlrow ++ ngrow) ->
                 below_inf y /\ fge (Fin 0) y = true
                 /\ (0 <= prob y <= 1)%R.
Proof.
  intros Hshape Hl Hg Bl Bg Hex.
  destruct (normalize_logits_at_position local_arguments_logits
              global_arguments_logits b a lrow grow Hshape Hl Hg Bl Bg Hex)
    as [nl [ng [M [norm [nlrow [ngrow
         [Hnorm [Hnl [Hng [_ [_ [Enl [Eng Hsum]]]]]]]]]]]]].
  exists nl, ng, nlrow, ngrow.
  split; [exact Hnorm |]. split; [exact Hnl |]. split; [exact Hng |].
  subst nlrow ngrow.
  destruct (normalized_total_prob M norm lrow grow Bl Bg Hsum)
    as [Bnl [Bng Htot]].
  intros y Hy.
  assert (By : below_inf y).
  { apply in_app_or in Hy. rewrite Forall_forall in Bnl, Bng.
    destruct Hy as [Hy | Hy]; [apply Bnl | apply Bng]; exact Hy. }
  assert (Hp : (prob y <= 1)%R).
  { rewrite <- Htot, <- total_prob_app. apply prob_le_total. exact Hy. }
  split; [exact By |]. split; [apply prob_le_one_nonpos; assumption |].
  split; [apply prob_nonneg | exact Hp].
Qed.

Lemma normalized_logits_are_nonpositive_witness :
  exists normalized_local normalized_global nlrow ngrow,
    GlobalArgumentPrediction._normalize_logits
      (mkDense3 1 2 [[[Fin 0; NInf]]]) (mkDense3 1 1 [[[Fin 1]]])
    = ret (normalized_local, normalized_global)
    /\ position (d_data normalized_local) 0 0 = Some nlrow
    /\ position (d_data normalized_global) 0 0 = Some ngrow
    /\ forall y, In y (nlrow ++ ngrow) ->
                 below_inf y /\ fge (Fin 0) y = true
                 /\ (0 <= prob y <= 1)%R.
Proof.
  apply (normalized_logits_are_nonpositive
           (mkDense3 1 2 [[[Fin 0; NInf]]]) (mkDense3 1 1 [[[Fin 1]]]) 0 0
           [Fin 0; NInf] [Fin 1]).
  - repeat constructor.
  - reflexivity.
  - reflexivity.
  - repeat constructor.
  - repeat constructor.
  - left. exists 0%R. reflexivity.
Defined.

(** ** Further properties of the tactic selection *)

Lemma nth_error_enumerate {A} (l : list A) (n : nat) (y : A) :
  nth_error l n = Some y -> nth_error (enumerate l) n = Some (n, y).
Proof.
  intros H. unfold enumerate, enumerate_from.
  apply nth_error_combine; [| exact H].
  apply nth_error_seq0. apply nth_error_Some. congruence.
Qed.

Lemma map_fst_enumerate {A} (l : list A) :
  map fst (enumerate l) = seq 0 (length l).
Proof.
  unfold enumerate. generalize 0.
  induction l as [| x l IH]; intros i; [reflexivity |].
  rewrite enumerate_from_cons. simpl. rewrite IH. reflexivity.
Qed.

Lemma NoDup_firstn {A} (k : nat) (l : list A) : NoDup l -> NoDup (firstn k l).
Proof.
  intros H. rewrite <- (firstn_skipn k l) in H.
  apply (NoDup_app_remove_r _ _ H).
Qed.

Lemma NoDup_map_of_nat (l : list nat) : NoDup l -> NoDup (map Z.of_nat l).
Proof.
  induction 1 as [| x l Hx _ IH]; simpl; constructor; [| exact IH].
  intros Hin. apply in_map_iff in Hin. destruct Hin as [y [Hy Hin]].
  apply Nat2Z.inj in Hy. subst y. exact (Hx Hin).
Qed.

(** The rows of [tf.math.top_k]: distinct positions of the input, each with
    the value it holds there. *)
Lemma top_k_entries (v : list float) (k : nat) :
  k <= length v ->
  exists ids vals,
    top_k v k = ret (ids, vals)
    /\ length ids = k /\ length vals = k
    /\ NoDup ids
    /\ forall i id, nth_error ids i = Some id ->
         exists n, id = Z.of_nat n /\ n < length v
                   /\ nth_error vals i = nth_error v n.
Proof.
  intros Hk. set (s := sort_desc (enumerate v)).
  assert (Hperm : Permutation (enumerate v) s) by apply sort_desc_perm.
  assert (Hs : length s = length v).
  { rewrite <- (Permutation_length Hperm).
    unfold enumerate, enumerate_from. rewrite length_combine, length_seq. lia. }
  unfold top_k. replace (k <=? length v) with true
    by (symmetry; apply Nat.leb_le; exact Hk).
  fold s. eexists _, _. split; [reflexivity |].
  split; [rewrite length_map, length_firstn; lia |].
  split; [rewrite length_map, length_firstn; lia |].
  split.
  - rewrite <- (map_map fst Z.of_nat). apply NoDup_map_of_nat.
    rewrite <- firstn_map. apply NoDup_firstn.
    apply (Permutation_NoDup (Permutation_map fst Hperm)).
    rewrite map_fst_enumerate. apply seq_NoDup.
  - intros i id Hi. rewrite nth_error_map in Hi.
    destruct (nth_error (firstn k s) i) as [[n y] |] eqn:E; [| discriminate].
    simpl in Hi. inversion Hi; subst id. exists n.
    split; [reflexivity |].
    assert (Hin : In (n, y) (enumerate v)).
    { apply (Permutation_in _ (Permutation_sym Hperm)).
      rewrite <- (firstn_skipn k s). apply in_or_app. left.
      apply (nth_error_In _ _ E). }
    apply In_enumerate_from in Hin. destruct Hin as [_ Hn].
    rewrite Nat.sub_0_r in Hn. split.
    + apply nth_error_Some. congruence.
    + rewrite nth_error_map, E, Hn. reflexivity.
Qed.

Lemma sorted_desc_head (x : float) (l : list float) :
  sorted_desc (x :: l) -> forall y, In y l -> fge x y = true.
Proof.
  revert x. induction l as [| z l IH]; intros x Hs y Hy; [contradiction |].
  inversion Hs as [| | ? ? ? Hxz Hs']; subst.
  destruct Hy as [-> | Hy]; [exact Hxz |].
  apply (fge_trans _ z); [exact Hxz | apply IH; assumption].
Qed.

Lemma sorted_desc_tail (x : float) (l : list float) :
  sorted_desc (x :: l) -> sorted_desc l.
Proof. intros H. inversion H; subst; [constructor | assumption]. Qed.

Lemma sorted_desc_app (l1 l2 : list float) :
  sorted_desc (l1 ++ l2) ->
  forall x y, In x l1 -> In y l2 -> fge x y = true.
Proof.
  induction l1 as [| z l1 IH]; intros Hs x y Hx Hy; [contradiction |].
  simpl in Hs. destruct Hx as [-> | Hx].
  - apply (sorted_desc_head _ _ Hs). apply in_or_app. right. exact Hy.
  - apply IH; [apply (sorted_desc_tail _ _ Hs) | exact Hx | exact Hy].
Qed.

(** No entry left out by [tf.math.top_k] beats an entry it returns. *)
Lemma top_k_optimal (v : list float) (k : nat) (ids : list Z)
  (vals : list float) :
  Forall below_inf v -> top_k v k = ret (ids, vals) ->
  forall n y, nth_error v n = Some y -> ~ In (Z.of_nat n) ids ->
              Forall (fun val => fge val y = true) vals.
Proof.
  intros Bv Htop n y Hn Hout. unfold top_k in Htop.
  destruct (k <=? length v); [| discriminate].
  set (s := sort_desc (enumerate v)) in *.
  inversion Htop as [[Hids Hvals]]. clear Htop.
  assert (Hperm : Permutation (enumerate v) s) by apply sort_desc_perm.
  assert (Be : Forall (fun q : nat * float => below_inf (snd q)) (enumerate v)).
  { apply Forall_forall. intros [i z] Hin.
    apply In_enumerate_from in Hin. destruct Hin as [_ Hz].
    rewrite Forall_forall in Bv. apply Bv. apply (nth_error_In _ _ Hz). }
  pose proof (sort_desc_sorted (enumerate v) Be) as Hsorted. fold s in Hsorted.
  rewrite <- (firstn_skipn k s), map_app in Hsorted.
  assert (Hin : In (n, y) s).
  { apply (Permutation_in _ Hperm).
    apply (nth_error_In _ n). apply nth_error_enumerate. exact Hn. }
  rewrite <- (firstn_skipn k s) in Hin. apply in_app_or in Hin.
  destruct Hin as [Hin | Hin].
  - exfalso. apply Hout. rewrite <- Hids.
    apply (in_map (fun p : nat * float => Z.of_nat (fst p)) _ _ Hin).
  - apply Forall_forall. intros val Hval.
    apply (sorted_desc_app _ _ Hsorted val y Hval).
    apply (in_map snd _ _ Hin).
Qed.

(** X4: the K tactics that [_top_k_tactics] returns for an example are
    pairwise different, lie in the range of the tactic indices, and the
    value returned with each of them is its masked log-softmax score.  This
    holds for any logits, as soon as the mask has the shape of the logits
    and K is at most the number of tactics. *)
Theorem top_k_tactics_are_distinct
  (tactic_logits : list (list float)) (tactic_mask : list (list bool))
  (tactic_expand_bound : nat) :
  Forall2 (fun x m => length x = length m) tactic_logits tactic_mask ->
  Forall (fun m => tactic_expand_bound <= length m) tactic_mask ->
  exists ids vals,
    TacticPrediction._top_k_tactics tactic_logits tactic_mask
                                    tactic_expand_bound
    = ret (ids, vals)
    /\ length ids = length tactic_logits
    /\ length vals = length tactic_logits
    /\ forall b x m ids_b vals_b,
         nth_error tactic_logits b = Some x ->
         nth_error tactic_mask b = Some m ->
         nth_error ids b = Some ids_b ->
         nth_error vals b = Some vals_b ->
         length ids_b = tactic_expand_bound
         /\ length vals_b = tactic_expand_bound
         /\ NoDup ids_b
         /\ forall i id, nth_error ids_b i = Some id ->
              exists n, id = Z.of_nat n /\ n < length x
                        /\ nth_error vals_b i
                           = nth_error (masked_log_softmax x m) n.
Proof.
  intros Hshape Hk.
  apply (top_k_tactics_rows
           (fun x m ids_b vals_b =>
              length ids_b = tactic_expand_bound
              /\ length vals_b = tactic_expand_bound
              /\ NoDup ids_b
              /\ forall i id, nth_error ids_b i = Some id ->
                   exists n, id = Z.of_nat n /\ n < length x
                             /\ nth_error vals_b i
                                = nth_error (masked_log_softmax x m) n)
           _ _ _ Hshape).
  intros x m Hin.
  pose proof (In_combine_Forall2 _ _ _ _ _ Hshape Hin) as Hlen.
  simpl in Hlen. rewrite Forall_forall in Hk.
  pose proof (Hk m (in_combine_r _ _ _ _ Hin)) as Hkm.
  assert (Hv : length (masked_log_softmax x m) = length x).
  { unfold masked_log_softmax.
    rewrite length_log_softmax, length_map, length_combine, length_map. lia. }
  destruct (top_k_entries (masked_log_softmax x m) tactic_expand_bound)
    as [ids [vals [Htop [Hi [Hvl [Hnd Hent]]]]]]; [lia |].
  exists ids, vals. split; [exact Htop |].
  split; [exact Hi |]. split; [exact Hvl |]. split; [exact Hnd |].
  intros i id Hid. destruct (Hent i id Hid) as [n [-> [Hn Hval]]].
  exists n. split; [reflexivity |]. split; [lia | exact Hval].
Qed.

Lemma top_k_tactics_are_distinct_witness :
  exists ids vals,
    TacticPrediction._top_k_tactics
      [[Fin 1; Fin 2; Fin 3]] [[true; false; true]] 2
    = ret (ids, vals)
    /\ length ids = length [[Fin 1; Fin 2; Fin 3]]
    /\ length vals = length [[Fin 1; Fin 2; Fin 3]]
    /\ forall b x m ids_b vals_b,
         nth_error [[Fin 1; Fin 2; Fin 3]] b = Some x ->
         nth_error [[true; false; true]] b = Some m ->
         nth_error ids b = Some ids_b ->
         nth_error vals b = Some vals_b ->
         length ids_b = 2
         /\ length vals_b = 2
         /\ NoDup ids_b
         /\ forall i id, nth_error ids_b i = Some id ->
              exists n, id = Z.of_nat n /\ n < length x
                        /\ nth_error vals_b i
                           = nth_error (masked_log_softmax x m) n.
Proof.
  apply (top_k_tactics_are_distinct
           [[Fin 1; Fin 2; Fin 3]] [[true; false; true]] 2).
  - repeat constructor.
  - repeat constructor.
Defined.

Lemma masked_log_softmax_kinds (x : list float) (m : list bool) :
  length x = length m -> Forall finite x -> 0 < count_permitted m ->
  Forall2 (fun (b : bool) y => if b then finite y else y = NInf) m
          (masked_log_softmax x m).
Proof.
  intros Hlen Hfin Hc. unfold masked_log_softmax.
  apply log_softmax_kinds; [| exact Hc].
  apply masked_kinds; assumption.
Qed.

(** X5: with finite logits and at least one permitted tactic, no tactic
    that [_top_k_tactics] leaves out has a higher masked log-softmax score
    than a tactic it returns. *)
Theorem top_k_tactics_are_the_best
  (tactic_logits : list (list float)) (tactic_mask : list (list bool))
  (tactic_expand_bound : nat) :
  Forall2 (fun x m => length x = length m) tactic_logits tactic_mask ->
  Forall (Forall finite) tactic_logits ->
  Forall (fun m => 0 < count_permitted m /\ tactic_expand_bound <= length m)
         tactic_mask ->
  exists ids vals,
    TacticPrediction._top_k_tactics tactic_logits tactic_mask
                                    tactic_expand_bound
    = ret (ids, vals)
    /\ length ids = length tactic_logits
    /\ length vals = length tactic_logits
    /\ forall b x m ids_b vals_b,
         nth_error tactic_logits b = Some x ->
         nth_error tactic_mask b = Some m ->
         nth_error ids b = Some ids_b ->
         nth_error vals b = Some vals_b ->
         forall n y,
           nth_error (masked_log_softmax x m) n = Some y ->
           ~ In (Z.of_nat n) ids_b ->
           Forall (fun val => fge val y = true) vals_b.
Proof.
  intros Hshape Hfin Hk.
  apply (top_k_tactics_rows
           (fun x m ids_b vals_b =>
              forall n y,
                nth_error (masked_log_softmax x m) n = Some y ->
                ~ In (Z.of_nat n) ids_b ->
                Forall (fun val => fge val y = true) vals_b)
           _ _ _ Hshape).
  intros x m Hin.
  pose proof (In_combine_Forall2 _ _ _ _ _ Hshape Hin) as Hlen.
  simpl in Hlen. rewrite Forall_forall in Hk, Hfin.
  destruct (Hk m (in_combine_r _ _ _ _ Hin)) as [Hc Hkm].
  pose proof (Hfin x (in_combine_l _ _ _ _ Hin)) as Hx.
  pose proof (masked_log_softmax_kinds x m Hlen Hx Hc) as Hkinds.
  assert (Hv : length (masked_log_softmax x m) = length x).
  { unfold masked_log_softmax.
    rewrite length_log_softmax, length_map, length_combine, length_map. lia. }
  destruct (top_k_entries (masked_log_softmax x m) tactic_expand_bound)
    as [ids [vals [Htop _]]]; [lia |].
  exists ids, vals. split; [exact Htop |].
  apply (top_k_optimal _ _ _ _ (kinds_below_inf _ _ Hkinds) Htop).
Qed.

Lemma top_k_tactics_are_the_best_witness :
  exists ids vals,
    TacticPrediction._top_k_tactics
      [[Fin 1; Fin 2; Fin 3]] [[true; false; true]] 1
    = ret (ids, vals)
    /\ length ids = length [[Fin 1; Fin 2; Fin 3]]
    /\ length vals = length [[Fin 1; Fin 2; Fin 3]]
    /\ forall b x m ids_b vals_b,
         nth_error [[Fin 1; Fin 2; Fin 3]] b = Some x ->
         nth_error [[true; false; true]] b = Some m ->
         nth_error ids b = Some ids_b ->
         nth_error vals b = Some vals_b ->
         forall n y,
           nth_error (masked_log_softmax x m) n = Some y ->
           ~ In (Z.of_nat n) ids_b ->
           Forall (fun val => fge val y = true) vals_b.
Proof.
  apply (top_k_tactics_are_the_best
           [[Fin 1; Fin 2; Fin 3]] [[true; false; true]] 1).
  - repeat constructor.
  - repeat constructor; eexists; reflexivity.
  - repeat constructor.
Defined.

Lemma total_prob_perm (l1 l2 : list float) :
  Permutation l1 l2 -> total_prob l1 = total_prob l2.
Proof.
  unfold total_prob.
  induction 1 as [| x l1 l2 _ IH | x y l | l1 l2 l3 _ IH1 _ IH2]; simpl.
  - reflexivity.
  - rewrite IH. reflexivity.
  - lra.
  - congruence.
Qed.

(** The log-softmax of a row with a candidate is a distribution. *)
Lemma log_softmax_total (l : list float) :
  Forall below_inf l -> Exists finite l -> total_prob (log_softmax l) = 1%R.
Proof.
  intros Bl Hex. unfold log_softmax.
  destruct (reduce_max_finite l Bl Hex) as [M ->].
  set (sl := map (fun x => fsub x (Fin M)) l).
  assert (Bsl : Forall below_inf sl) by (apply shift_below_inf; exact Bl).
  assert (Hpos : (0 < total_prob sl)%R).
  { apply total_prob_pos. apply (shift_exists_finite (- M)). exact Hex. }
  rewrite (reduce_sum_exp sl Bsl), (flog_pos _ Hpos).
  change (fun x => fsub x (Fin (ln (total_prob sl))))
    with (fun x => fadd x (Fin (- ln (total_prob sl)))).
  rewrite (total_prob_shift _ sl Bsl), exp_Ropp, (exp_ln _ Hpos).
  field. lra.
Qed.

Lemma total_prob_not_finite (l : list float) :
  Forall below_inf l -> length (filter is_finite l) = 0 ->
  total_prob l = 0%R.
Proof.
  unfold total_prob.
  induction 1 as [| x l Hx _ IH]; simpl; intros Hc; [reflexivity |].
  destruct x; simpl in *; try contradiction; [discriminate |].
  rewrite IH by exact Hc. lra.
Qed.

Lemma sorted_suffix_no_prob (l : list float) :
  sorted_desc l -> Forall below_inf l ->
  forall k, length (filter is_finite l) <= k -> total_prob (skipn k l) = 0%R.
Proof.
  induction l as [| y l IH]; intros Hs Hb k Hk.
  - rewrite skipn_nil. reflexivity.
  - destruct k as [| k].
    + simpl skipn. apply total_prob_not_finite; [exact Hb | lia].
    + simpl skipn. inversion Hb as [| ? ? Hy Hb']; subst.
      apply IH; [apply (sorted_desc_tail _ _ Hs) | exact Hb' |].
      destruct y; simpl in Hy; try contradiction.
      * simpl in Hk. lia.
      * rewrite (sorted_after_ninf l Hs Hb'). lia.
Qed.

(** The values of [tf.math.top_k] over a distribution. *)
Lemma top_k_total_prob (v : list float) (k : nat) (ids : list Z)
  (vals : list float) :
  Forall below_inf v -> top_k v k = ret (ids, vals) ->
  (total_prob vals <= total_prob v)%R
  /\ (length (filter is_finite v) <= k -> total_prob vals = total_prob v).
Proof.
  intros Bv Htop. unfold top_k in Htop.
  destruct (k <=? length v); [| discriminate].
  set (s := sort_desc (enumerate v)) in *.
  inversion Htop as [[Hids Hvals]]. clear Htop Hids.
  assert (Hperm : Permutation (enumerate v) s) by apply sort_desc_perm.
  assert (Be : Forall (fun q : nat * float => below_inf (snd q)) (enumerate v)).
  { apply Forall_forall. intros [i z] Hin.
    apply In_enumerate_from in Hin. destruct Hin as [_ Hz].
    rewrite Forall_forall in Bv. apply Bv. apply (nth_error_In _ _ Hz). }
  pose proof (sort_desc_sorted (enumerate v) Be) as Hsorted. fold s in Hsorted.
  assert (Bs : Forall below_inf (map snd s)).
  { apply Forall_forall. intros y Hy. apply in_map_iff in Hy.
    destruct Hy as [q [<- Hq]].
    apply (Permutation_in q (Permutation_sym Hperm)) in Hq.
    rewrite Forall_forall in Be. apply Be. exact Hq. }
  assert (Htot : total_prob v = total_prob (map snd s)).
  { rewrite <- (map_snd_enumerate v) at 1.
    apply total_prob_perm. apply Permutation_map. exact Hperm. }
  assert (Hsplit : total_prob (map snd s)
                   = (total_prob (map snd (firstn k s))
                      + total_prob (skipn k (map snd s)))%R).
  { rewrite <- (firstn_skipn k (map snd s)) at 1.
    rewrite total_prob_app, firstn_map. reflexivity. }
  rewrite Htot, Hsplit. split.
  - pose proof (total_prob_nonneg (skipn k (map snd s))). lra.
  - intros Hc.
    rewrite (sorted_suffix_no_prob _ Hsorted Bs k); [lra |].
    rewrite <- (count_finite_perm _ _ Hperm), map_snd_enumerate.
    exact Hc.
Qed.

(** X6: with finite logits and at least one permitted tactic, the
    probabilities of the K tactics that [_top_k_tactics] returns for an
    example add up to at most 1, and to exactly 1 when K is at least the
    number of permitted tactics. *)
Theorem top_k_tactics_total_probability
  (tactic_logits : list (list float)) (tactic_mask : list (list bool))
  (tactic_expand_bound : nat) :
  Forall2 (fun x m => length x = length m) tactic_logits tactic_mask ->
  Forall (Forall finite) tactic_logits ->
  Forall (fun m => 0 < count_permitted m /\ tactic_expand_bound <= length m)
         tactic_mask ->
  exists ids vals,
    TacticPrediction._top_k_tactics tactic_logits tactic_mask
                                    tactic_expand_bound
    = ret (ids, vals)
    /\ length ids = length tactic_logits
    /\ length vals = length tactic_logits
    /\ forall b x m ids_b vals_b,
         nth_error tactic_logits b = Some x ->
         nth_error tactic_mask b = Some m ->
         nth_error ids b = Some ids_b ->
         nth_error vals b = Some vals_b ->
         (total_prob vals_b <= 1)%R
         /\ (count_permitted m <= tactic_expand_bound ->
             total_prob vals_b = 1%R).
Proof.
  intros Hshape Hfin Hk.
  apply (top_k_tactics_rows
           (fun x m ids_b vals_b =>
              (total_prob vals_b <= 1)%R
              /\ (count_permitted m <= tactic_expand_bound ->
                  total_prob vals_b = 1%R))
           _ _ _ Hshape).
  intros x m Hin.
  pose proof (In_combine_Forall2 _ _ _ _ _ Hshape Hin) as Hlen.
  simpl in Hlen. rewrite Forall_forall in Hk, Hfin.
  destruct (Hk m (in_combine_r _ _ _ _ Hin)) as [Hc Hkm].
  pose proof (Hfin x (in_combine_l _ _ _ _ Hin)) as Hx.
  pose proof (masked_log_softmax_kinds x m Hlen Hx Hc) as Hkinds.
  assert (Hv : length (masked_log_softmax x m) = length x).
  { unfold masked_log_softmax.
    rewrite length_log_softmax, length_map, length_combine, length_map. lia. }
  destruct (top_k_entries (masked_log_softmax x m) tactic_expand_bound)
    as [ids [vals [Htop _]]]; [lia |].
  exists ids, vals. split; [exact Htop |].
  destruct (top_k_total_prob _ _ _ _ (kinds_below_inf _ _ Hkinds) Htop)
    as [Hle Heq].
  assert (Hone : total_prob (masked_log_softmax x m) = 1%R).
  { unfold masked_log_softmax.
    pose proof (masked_kinds x m Hlen Hx) as Hmk.
    apply log_softmax_total;
      [apply (kinds_below_inf _ _ Hmk)
      | apply (kinds_exists_finite _ _ Hmk Hc)]. }
  rewrite Hone in Hle, Heq. split; [exact Hle |].
  intros Hcount. apply Heq. rewrite (kinds_count _ _ Hkinds). exact Hcount.
Qed.

Lemma top_k_tactics_total_probability_witness :
  exists ids vals,
    TacticPrediction._top_k_tactics
      [[Fin 1; Fin 2; Fin 3]] [[true; false; true]] 2
    = ret (ids, vals)
    /\ length ids = length [[Fin 1; Fin 2; Fin 3]]
    /\ length vals = length [[Fin 1; Fin 2; Fin 3]]
    /\ forall b x m ids_b vals_b,
         nth_error [[Fin 1; Fin 2; Fin 3]] b = Some x ->
         nth_error [[true; false; true]] b = Some m ->
         nth_error ids b = Some ids_b ->
         nth_error vals b = Some vals_b ->
         (total_prob vals_b <= 1)%R
         /\ (count_permitted m <= 2 -> total_prob vals_b = 1%R).
Proof.
  apply (top_k_tactics_total_probability
           [[Fin 1; Fin 2; Fin 3]] [[true; false; true]] 2).
  - repeat constructor.
  - repeat constructor; eexists; reflexivity.
  - repeat constructor.
Defined.

Lemma mapM_raise {A B} (f : A -> result B) (e : error) (l : list A) :
  (forall a, In a l -> (exists b, f a = ret b) \/ f a = raise e) ->
  Exists (fun a => f a = raise e) l ->
  mapM f l = raise e.
Proof.
  intros Hall Hex. induction Hex as [a l Ha | a l _ IH]; simpl.
  - rewrite Ha. reflexivity.
  - destruct (Hall a (or_introl eq_refl)) as [[b Hb] | Ha].
    + rewrite Hb, bind_ret, IH; [reflexivity |].
      intros x Hx. apply Hall. right. exact Hx.
    + rewrite Ha. reflexivity.
Qed.

(** X7: [_top_k_tactics] fails with the runtime's argument error when K
    exceeds the number of tactics of some example: top-k cannot return more
    entries than a row holds. *)
Theorem top_k_tactics_refuses_large_bound
  (tactic_logits : list (list float)) (tactic_mask : list (list bool))
  (tactic_expand_bound : nat) :
  Forall2 (fun x m => length x = length m) tactic_logits tactic_mask ->
  Exists (fun m => length m < tactic_expand_bound) tactic_mask ->
  TacticPrediction._top_k_tactics tactic_logits tactic_mask
                                  tactic_expand_bound
  = raise InvalidArgumentError.
Proof.
  intros Hshape Hex.
  unfold TacticPrediction._top_k_tactics, ragged_map2.
  rewrite zipM2_ret.
  2:{ clear Hex. induction Hshape; simpl; constructor;
      [rewrite length_map; assumption | assumption]. }
  rewrite bind_ret, combine_map_snd, !map_map, mapM_map. simpl.
  rewrite (mapM_raise _ InvalidArgumentError); [reflexivity | |].
  - intros p _. unfold top_k.
    destruct (tactic_expand_bound <=? _); [left; eexists; reflexivity |].
    right. reflexivity.
  - clear - Hshape Hex. induction Hshape as [| x m xs ms Hxm Hrest IH];
      [inversion Hex |].
    simpl. inversion Hex as [? ? Hm | ? ? Hm]; subst.
    + left. simpl. unfold top_k.
      rewrite length_log_softmax, length_map, length_combine, length_map.
      replace (tactic_expand_bound <=? Nat.min (length x) (length m))
        with false; [reflexivity |].
      symmetry. apply Nat.leb_gt. lia.
    + right. apply IH. exact Hm.
Qed.

Lemma top_k_tactics_refuses_large_bound_witness :
  TacticPrediction._top_k_tactics [[Fin 1; Fin 2]] [[true; true]] 3
  = raise InvalidArgumentError.
Proof.
  apply (top_k_tactics_refuses_large_bound [[Fin 1; Fin 2]] [[true; true]] 3).
  - repeat constructor.
  - left. simpl. lia.
Defined.

(** ** Further properties of the mask of the global context *)

Lemma ln_INR_pos (n : nat) : 1 < n -> (0 < ln (INR n))%R.
Proof.
  intros H. rewrite <- ln_1. apply ln_increasing; [lra |].
  apply lt_1_INR. exact H.
Qed.

(** X8: for ids in range, the mask of [_global_arguments_logits_mask] holds
    at every entry the logarithm of the number of times the entry is listed
    for the example: -inf for an entry that is not listed, 0 for one listed
    once, and a positive number for one listed several times, whose logit
    the mask raises. *)
Theorem global_mask_counts_listings
  (global_context_ids : list (list Z)) (global_context_size : nat) :
  Forall (Forall (fun id => (0 <= id < Z.of_nat global_context_size)%Z))
         global_context_ids ->
  GlobalArgumentPrediction._global_arguments_logits_mask
    global_context_ids global_context_size
  = ret (map (fun ids =>
                map (fun j => flog (Fin (INR (listings ids j))))
                    (seq 0 global_context_size))
             global_context_ids)
  /\ forall ids j,
       (listings ids j = 0 -> flog (Fin (INR (listings ids j))) = NInf)
       /\ (listings ids j = 1 -> flog (Fin (INR (listings ids j))) = Fin 0)
       /\ (1 < listings ids j ->
           exists r, (0 < r)%R /\ flog (Fin (INR (listings ids j))) = Fin r).
Proof.
  intros Hrange. split.
  - unfold GlobalArgumentPrediction._global_arguments_logits_mask, scatter_nd.
    set (indices := combine (value_rowids global_context_ids)
                            (values global_context_ids)).
    assert (Hlen : length indices = length (values global_context_ids)).
    { unfold indices. rewrite length_combine, length_value_rowids. lia. }
    rewrite length_map, Hlen, Nat.eqb_refl. cbn [negb].
    assert (Hok :
      forallb (fun p : nat * Z =>
                 (fst p <? length global_context_ids)
                 && (0 <=? snd p)%Z
                 && (snd p <? Z.of_nat global_context_size)%Z) indices = true).
    { apply forallb_forall. intros p Hp.
      apply (In_combine_rowids global_context_ids 0) in Hp.
      destruct Hp as [Hlt [row [Hrow Hx]]].
      rewrite Forall_forall in Hrange. specialize (Hrange row Hrow).
      rewrite Forall_forall in Hrange. specialize (Hrange _ Hx).
      apply andb_true_intro. split; [apply andb_true_intro; split |].
      - apply Nat.ltb_lt. exact Hlt.
      - apply Z.leb_le. lia.
      - apply Z.ltb_lt. lia. }
    rewrite Hok, bind_ret. f_equal.
    rewrite map_map.
    erewrite map_ext;
      [| intros b; rewrite map_map; apply map_ext; intros j;
         rewrite (scatter_cell indices (values global_context_ids) b j Hlen);
         reflexivity ].
    rewrite <- (map_map
                  (fun b => filter (fun q : nat * Z => fst q =? b) indices)
                  (fun X => map (fun j =>
                     flog (Fin (INR (length
                       (filter (fun q : nat * Z => (snd q =? Z.of_nat j)%Z)
                               X)))))
                     (seq 0 global_context_size))).
    unfold indices, value_rowids, values.
    rewrite (filter_row_ids_from global_context_ids 0), map_map.
    unfold enumerate_from.
    erewrite map_ext_in.
    + apply (map_snd_combine
               (fun ids => map (fun j => flog (Fin (INR (listings ids j))))
                               (seq 0 global_context_size))).
      apply length_seq.
    + intros [b row] Hin. simpl. apply map_ext. intros j.
      rewrite (length_filter_snd_combine_repeat
                 (fun id => (id =? Z.of_nat j)%Z) b row).
      reflexivity.
  - intros ids j. split; [| split].
    + intros ->. apply flog_zero.
    + intros ->. apply flog_one.
    + intros H. exists (ln (INR (listings ids j))).
      split; [apply ln_INR_pos; exact H |].
      apply flog_pos. apply lt_0_INR. lia.
Qed.

Lemma global_mask_counts_listings_witness :
  GlobalArgumentPrediction._global_arguments_logits_mask [[1; 1; 0]%Z] 3
  = ret [[flog (Fin (INR 1)); flog (Fin (INR 2)); flog (Fin (INR 0))]]
  /\ listings [1; 1; 0]%Z 1 = 2.
Proof.
  destruct (global_mask_counts_listings [[1; 1; 0]%Z] 3) as [H _].
  - repeat constructor; simpl; lia.
  - split; [exact H | reflexivity].
Defined.

(** ** Dense and ragged logits around the joint normalization *)

Lemma max_row_length_map {A B} (f : list A -> list B) (rt : list (list A)) :
  (forall r, length (f r) = length r) ->
  max_row_length (map f rt) = max_row_length rt.
Proof.
  intros H. unfold max_row_length, row_lengths. rewrite map_map.
  f_equal. apply map_ext. exact H.
Qed.

Lemma max_row_length_ge {A} (rt : list (list A)) (r : list A) :
  In r rt -> length r <= max_row_length rt.
Proof.
  unfold max_row_length, row_lengths.
  induction rt as [| x rt IH]; simpl; [contradiction |].
  intros [-> | Hin]; [lia |]. specialize (IH Hin). lia.
Qed.

Lemma split_rows_map_concat {A B} (f : A -> B) (rows : list (list A)) :
  split_rows (row_lengths rows) (map f (concat rows)) = map (map f) rows.
Proof.
  rewrite concat_map.
  replace (row_lengths rows) with (map (@length B) (map (map f) rows)).
  - apply split_rows_concat.
  - unfold row_lengths. rewrite map_map. apply map_ext. intros r.
    apply length_map.
Qed.

(** [convert_ragged_logits_to_dense] in closed form. *)
Lemma convert_ragged_logits_to_dense_eq (logits : list (list (list float))) :
  let nargs := max_row_length logits in
  let nctx := max_row_length (values logits) in
  convert_ragged_logits_to_dense logits
  = ret (mkDense3 nargs nctx
           (map (fun rows =>
                   map (fun row => row ++ repeat NInf (nctx - length row)) rows
                   ++ repeat (repeat (Fin 0) nctx) (nargs - length rows))
                logits)).
Proof.
  intros nargs nctx. unfold convert_ragged_logits_to_dense.
  rewrite with_values_ok by (unfold values, to_tensor; apply length_map).
  rewrite bind_ret.
  assert (Hpad : split_rows (row_lengths logits)
                            (to_tensor NInf (values logits))
                 = map (map (fun row => row ++ repeat NInf (nctx - length row)))
                       logits).
  { subst nctx. unfold to_tensor, values. cbv zeta.
    apply split_rows_map_concat. }
  rewrite Hpad.
  rewrite (max_row_length_map _ logits) by (intros r; apply length_map).
  fold nargs. fold nctx. unfold to_tensor. rewrite map_map.
  rewrite (max_row_length_map _ logits) by (intros r; apply length_map).
  fold nargs.
  f_equal. f_equal. apply map_ext. intros rows. rewrite length_map.
  reflexivity.
Qed.

(** X9: [convert_ragged_logits_to_dense] never fails; its result has the
    largest argument count and the largest context size of the batch as
    dimensions, holds every ragged row followed by -inf up to the context
    size, and rows of 0.0 at the argument positions that an example does
    not have. *)
Theorem convert_ragged_logits_to_dense_spec
  (logits : list (list (list float))) :
  exists dense,
    convert_ragged_logits_to_dense logits = ret dense
    /\ d_args dense = max_row_length logits
    /\ d_ctx dense = max_row_length (values logits)
    /\ length (d_data dense) = length logits
    /\ Forall (fun drows => length drows = d_args dense) (d_data dense)
    /\ Forall (Forall (fun drow => length drow = d_ctx dense)) (d_data dense)
    /\ forall b rows,
         nth_error logits b = Some rows ->
         exists drows,
           nth_error (d_data dense) b = Some drows
           /\ (forall a row,
                 nth_error rows a = Some row ->
                 nth_error drows a
                 = Some (row ++ repeat NInf (d_ctx dense - length row)))
           /\ (forall a,
                 length rows <= a < d_args dense ->
                 nth_error drows a = Some (repeat (Fin 0) (d_ctx dense))).
Proof.
  eexists. split; [apply convert_ragged_logits_to_dense_eq |].
  simpl d_args. simpl d_ctx. simpl d_data.
  set (nargs := max_row_length logits).
  set (nctx := max_row_length (values logits)).
  split; [reflexivity |]. split; [reflexivity |].
  split; [apply length_map |]. split; [| split].
  - apply Forall_forall. intros drows Hd. apply in_map_iff in Hd.
    destruct Hd as [rows [<- Hrows]].
    rewrite length_app, length_map, repeat_length.
    pose proof (max_row_length_ge logits rows Hrows). fold nargs in H. lia.
  - apply Forall_forall. intros drows Hd. apply in_map_iff in Hd.
    destruct Hd as [rows [<- Hrows]].
    apply Forall_app. split.
    + apply Forall_forall. intros drow Hr. apply in_map_iff in Hr.
      destruct Hr as [row [<- Hrow]].
      rewrite length_app, repeat_length.
      assert (Hin : In row (values logits))
        by (unfold values; apply in_concat; exists rows; split; assumption).
      pose proof (max_row_length_ge _ row Hin). fold nctx in H. lia.
    + apply Forall_forall. intros drow Hr. apply repeat_spec in Hr.
      subst drow. apply repeat_length.
  - intros b rows Hb. eexists. split.
    + rewrite nth_error_map, Hb. reflexivity.
    + split.
      * intros a row Ha.
        rewrite nth_error_app1
          by (rewrite length_map; apply nth_error_Some; congruence).
        rewrite nth_error_map, Ha. reflexivity.
      * intros a [Hlo Hhi].
        rewrite nth_error_app2 by (rewrite length_map; exact Hlo).
        rewrite length_map. apply nth_error_repeat. lia.
Qed.

Lemma combine_repeat_r {A C} (c : C) (l : list A) :
  combine l (repeat c (length l)) = map (fun x => (x, c)) l.
Proof.
  induction l as [| x l IH]; simpl; [reflexivity |].
  rewrite IH. reflexivity.
Qed.

Lemma map_fst_combine_eq {A B} (l1 : list A) (l2 : list B) :
  length l1 = length l2 -> map fst (combine l1 l2) = l1.
Proof.
  revert l2. induction l1 as [| x l1 IH]; intros [| y l2] H; simpl in *;
    try discriminate; [reflexivity |].
  rewrite IH by lia. reflexivity.
Qed.

Lemma length_concat_map {X A B} (f : X -> list A) (g : X -> list B)
  (L : list X) :
  (forall x, In x L -> length (f x) = length (g x)) ->
  length (concat (map f L)) = length (concat (map g L)).
Proof.
  induction L as [| x L IH]; intros H; simpl; [reflexivity |].
  rewrite !length_app, (H x (or_introl eq_refl)), IH; [reflexivity |].
  intros y Hy. apply H. right. exact Hy.
Qed.

Lemma nth_error_map_combine {A B C} (F : A * B -> C) l1 l2 i a b :
  nth_error l1 i = Some a -> nth_error l2 i = Some b ->
  nth_error (map F (combine l1 l2)) i = Some (F (a, b)).
Proof.
  intros Ha Hb. rewrite nth_error_map, (nth_error_combine _ _ _ _ _ Ha Hb).
  reflexivity.
Qed.

(** The first steps of [convert_logits_to_ragged]: the argument axis is cut
    to the argument counts, and the context ids of an example are repeated
    for each of its argument positions. *)
Lemma convert_logits_to_ragged_front
  (data : list (list (list float))) (context_ids : list (list Z))
  (arg_cnts : list nat) :
  length data = length arg_cnts -> length context_ids = length arg_cnts ->
  let logits_ := map (fun p => firstn (snd p) (fst p)) (combine data arg_cnts) in
  from_tensor data arg_cnts = ret logits_
  /\ length logits_ = length context_ids
  /\ (gathered <- gather context_ids (value_rowids logits_) ;;
      with_values logits_ gathered)
     = ret (map (fun p => repeat (snd p) (length (fst p)))
                (combine logits_ context_ids)).
Proof.
  intros Hd Hc logits_.
  assert (Hl : length logits_ = length context_ids).
  { unfold logits_. rewrite length_map, length_combine. lia. }
  split; [apply from_tensor_ok; exact Hd |]. split; [exact Hl |].
  rewrite (gather_rowids logits_ context_ids) by (symmetry; exact Hl).
  rewrite bind_ret. apply with_values_rows.
  unfold row_lengths. rewrite map_map.
  rewrite (map_fst_combine (@length (list float)) logits_ context_ids Hl).
  apply map_ext. intros p. apply repeat_length.
Qed.

(** The last steps of the local branch: every row is cut to the number of
    context ids of its example. *)
Lemma truncate_rows (rows : list (list (list float)))
  (context_ids : list (list Z)) :
  length rows = length context_ids ->
  let ctx := map (fun p => repeat (snd p) (length (fst p)))
                 (combine rows context_ids) in
  (truncated <- from_tensor (values rows) (row_lengths (values ctx)) ;;
   with_values ctx truncated)
  = ret (map (fun p => map (firstn (length (snd p))) (fst p))
             (combine rows context_ids)).
Proof.
  intros Hl ctx. set (L := combine rows context_ids).
  assert (Hrows : values rows = concat (map fst L)).
  { unfold values, L. rewrite map_fst_combine_eq by exact Hl. reflexivity. }
  assert (Hlens : row_lengths (values ctx)
                  = concat (map (fun p : list (list float) * list Z =>
                                   repeat (length (snd p)) (length (fst p)))
                                L)).
  { unfold row_lengths, values, ctx. fold L.
    rewrite concat_map, !map_map. f_equal. apply map_ext. intros p.
    rewrite map_repeat. reflexivity. }
  rewrite Hrows, Hlens.
  rewrite from_tensor_ok
    by (apply length_concat_map; intros p _; rewrite repeat_length;
        reflexivity).
  rewrite bind_ret.
  rewrite combine_concat
    by (intros p _; rewrite repeat_length; reflexivity).
  rewrite concat_map, map_map.
  erewrite map_ext;
    [| intros p; rewrite combine_repeat_r, map_map; simpl; reflexivity].
  apply with_values_rows.
  unfold row_lengths, ctx. fold L. rewrite !map_map.
  apply map_ext. intros p. rewrite length_map, repeat_length. reflexivity.
Qed.

(** [convert_logits_to_ragged] for the local pool (any label but "global"):
    the argument axis is cut to the argument counts and every row to the
    number of context ids of its example. *)
Lemma convert_logits_to_ragged_local
  (logits : Dense3) (context_ids : list (list Z)) (arg_cnts : list nat)
  (label : string) :
  String.eqb label "global" = false ->
  length (d_data logits) = length arg_cnts ->
  length context_ids = length arg_cnts ->
  GlobalArgumentPrediction.convert_logits_to_ragged
    (logits, context_ids, arg_cnts, label)
  = ret (map (fun p => map (firstn (length (snd p))) (fst p))
             (combine (map (fun p => firstn (snd p) (fst p))
                           (combine (d_data logits) arg_cnts))
                      context_ids)).
Proof.
  intros Hlabel Hd Hc.
  destruct (convert_logits_to_ragged_front (d_data logits) context_ids
              arg_cnts Hd Hc) as [Hft [Hl Hctx]].
  unfold GlobalArgumentPrediction.convert_logits_to_ragged.
  rewrite Hft, bind_ret.
  set (logits_ := map (fun p => firstn (snd p) (fst p))
                      (combine (d_data logits) arg_cnts)) in *.
  destruct (gather context_ids (value_rowids logits_)) as [e | gathered];
    [discriminate |].
  cbn [bind] in Hctx |- *. rewrite Hctx, bind_ret, Hlabel.
  apply (truncate_rows logits_ context_ids Hl).
Qed.

Lemma zipM_repeat_r {A B C} (f : A -> B -> result C) (c : B) (l : list A) :
  zipM f l (repeat c (length l)) = mapM (fun x => f x c) l.
Proof.
  unfold zipM. rewrite repeat_length, Nat.eqb_refl, combine_repeat_r.
  rewrite mapM_map. reflexivity.
Qed.

(** The last step of the global branch: every row is read at the context
    ids of its example. *)
Lemma gather_rows (rows : list (list (list float)))
  (context_ids : list (list Z)) :
  length rows = length context_ids ->
  zipM (zipM (fun row ids => mapM (lookup row) ids)) rows
       (map (fun p => repeat (snd p) (length (fst p)))
            (combine rows context_ids))
  = mapM (fun p => mapM (fun row => mapM (lookup row) (snd p)) (fst p))
         (combine rows context_ids).
Proof.
  intros Hl. unfold zipM at 1.
  rewrite length_map, length_combine, <- Hl, Nat.min_id, Nat.eqb_refl.
  rewrite combine_map_snd, mapM_map.
  assert (Hc : combine rows (combine rows context_ids)
               = map (fun p => (fst p, p)) (combine rows context_ids)).
  { clear. revert context_ids.
    induction rows as [| r rows IH]; intros [| c cs]; simpl;
      try reflexivity.
    rewrite IH. reflexivity. }
  rewrite Hc, mapM_map. apply mapM_ext_in. intros p _. simpl.
  apply zipM_repeat_r.
Qed.

Lemma convert_logits_to_ragged_global
  (logits : Dense3) (context_ids : list (list Z)) (arg_cnts : list nat) :
  length (d_data logits) = length arg_cnts ->
  length context_ids = length arg_cnts ->
  GlobalArgumentPrediction.convert_logits_to_ragged
    (logits, context_ids, arg_cnts, "global"%string)
  = mapM (fun p => mapM (fun row => mapM (lookup row) (snd p)) (fst p))
         (combine (map (fun p => firstn (snd p) (fst p))
                       (combine (d_data logits) arg_cnts))
                  context_ids).
Proof.
  intros Hd Hc.
  destruct (convert_logits_to_ragged_front (d_data logits) context_ids
              arg_cnts Hd Hc) as [Hft [Hl Hctx]].
  unfold GlobalArgumentPrediction.convert_logits_to_ragged.
  rewrite Hft, bind_ret.
  set (logits_ := map (fun p => firstn (snd p) (fst p))
                      (combine (d_data logits) arg_cnts)) in *.
  destruct (gather context_ids (value_rowids logits_)) as [e | gathered];
    [discriminate |].
  cbn [bind] in Hctx |- *. rewrite Hctx, bind_ret.
  change (String.eqb "global" "global") with true. cbv iota.
  apply (gather_rows logits_ context_ids Hl).
Qed.

Lemma firstn_length_app {A} (l r : list A) : firstn (length l) (l ++ r) = l.
Proof.
  induction l as [| x l IH]; simpl; [reflexivity |].
  rewrite IH. reflexivity.
Qed.

Lemma nth_error_firstn_lt {A} (l : list A) :
  forall n a, a < n -> nth_error (firstn n l) a = nth_error l a.
Proof.
  induction l as [| x l IH]; intros n a Ha.
  - rewrite firstn_nil. reflexivity.
  - destruct n as [| n]; [lia |]. destruct a as [| a]; [reflexivity |].
    simpl. apply IH. lia.
Qed.

(** The rows of the dense logits that [convert_logits_to_ragged] keeps are
    the padded rows of the ragged logits. *)
Lemma dense_rows_cut (nargs nctx : nat) (pad : list float -> list float)
  (logits : list (list (list float))) :
  map (fun p => firstn (snd p) (fst p))
      (combine (map (fun rows =>
                       map pad rows
                       ++ repeat (repeat (Fin 0) nctx) (nargs - length rows))
                    logits)
               (row_lengths logits))
  = map (map pad) logits.
Proof.
  unfold row_lengths. rewrite combine_map_same, map_map.
  apply map_ext. intros rows. simpl.
  rewrite <- (length_map pad rows) at 1. apply firstn_length_app.
Qed.

Lemma cut_padded_rows (k : list float -> nat)
  (logits : list (list (list float))) (context_ids : list (list Z)) :
  Forall2 (fun rows ids => Forall (fun row => length row = length ids) rows)
          logits context_ids ->
  map (fun p => map (firstn (length (snd p))) (fst p))
      (combine (map (map (fun row => row ++ repeat NInf (k row))) logits)
               context_ids)
  = logits.
Proof.
  induction 1 as [| rows ids logits context_ids Hrow _ IH]; [reflexivity |].
  simpl. f_equal; [| exact IH].
  induction Hrow as [| row rows Hr _ IHr]; [reflexivity |].
  simpl. rewrite <- Hr, firstn_length_app, Hr. f_equal. exact IHr.
Qed.

(** X10: converting ragged local logits to the dense tensor and back gives
    the ragged logits again, when every row has one logit per local context
    id of its example: [convert_logits_to_ragged] with the label "local"
    undoes [convert_ragged_logits_to_dense]. *)
Theorem convert_logits_to_ragged_round_trip
  (logits : list (list (list float))) (context_ids : list (list Z)) :
  Forall2 (fun rows ids => Forall (fun row => length row = length ids) rows)
          logits context_ids ->
  exists dense,
    convert_ragged_logits_to_dense logits = ret dense
    /\ GlobalArgumentPrediction.convert_logits_to_ragged
         (dense, context_ids, row_lengths logits, "local"%string)
       = ret logits.
Proof.
  intros H. eexists. split; [apply convert_ragged_logits_to_dense_eq |].
  pose proof (Forall2_length H) as Hlen.
  rewrite convert_logits_to_ragged_local; simpl d_data.
  - f_equal. rewrite dense_rows_cut.
    apply (cut_padded_rows
             (fun row => max_row_length (values logits) - length row)).
    exact H.
  - reflexivity.
  - unfold row_lengths. rewrite !length_map. reflexivity.
  - unfold row_lengths. rewrite length_map. symmetry. exact Hlen.
Qed.

Lemma convert_logits_to_ragged_round_trip_witness :
  exists dense,
    convert_ragged_logits_to_dense [[[Fin 1; Fin 2]; [Fin 3; Fin 4]]; [[Fin 5]]]
    = ret dense
    /\ GlobalArgumentPrediction.convert_logits_to_ragged
         (dense, [[7; 8]; [9]]%Z,
          row_lengths [[[Fin 1; Fin 2]; [Fin 3; Fin 4]]; [[Fin 5]]],
          "local"%string)
       = ret [[[Fin 1; Fin 2]; [Fin 3; Fin 4]]; [[Fin 5]]].
Proof.
  apply (convert_logits_to_ragged_round_trip
           [[[Fin 1; Fin 2]; [Fin 3; Fin 4]]; [[Fin 5]]] [[7; 8]; [9]]%Z).
  repeat constructor.
Defined.

Lemma lookup_in_range (row : list float) (id : Z) :
  (0 <= id < Z.of_nat (length row))%Z ->
  lookup row id = ret (nth (Z.to_nat id) row NInf)
  /\ nth_error row (Z.to_nat id) = Some (nth (Z.to_nat id) row NInf).
Proof.
  intros H. unfold lookup.
  replace (id <? 0)%Z with false by (symmetry; apply Z.ltb_ge; lia).
  assert (Hn : nth_error row (Z.to_nat id) = Some (nth (Z.to_nat id) row NInf))
    by (apply nth_error_nth'; lia).
  rewrite Hn. split; reflexivity.
Qed.

(** The global branch of [convert_logits_to_ragged] when the context ids
    are in the range of the rows. *)
Lemma convert_logits_to_ragged_global_eq
  (logits : Dense3) (context_ids : list (list Z)) (arg_cnts : list nat) :
  length (d_data logits) = length arg_cnts ->
  length context_ids = length arg_cnts ->
  Forall (Forall (fun row : list float => length row = d_ctx logits))
         (d_data logits) ->
  Forall (Forall (fun id => (0 <= id < Z.of_nat (d_ctx logits))%Z))
         context_ids ->
  GlobalArgumentPrediction.convert_logits_to_ragged
    (logits, context_ids, arg_cnts, "global"%string)
  = ret (map (fun p =>
                map (fun row => map (fun id => nth (Z.to_nat id) row NInf)
                                    (snd p))
                    (fst p))
             (combine (map (fun p => firstn (snd p) (fst p))
                           (combine (d_data logits) arg_cnts))
                      context_ids)).
Proof.
  intros Hd Hc Hrows Hids.
  rewrite (convert_logits_to_ragged_global logits context_ids arg_cnts Hd Hc).
  apply mapM_ret_in. intros [rows ids] Hin. simpl.
  apply mapM_ret_in. intros row Hrow.
  apply mapM_ret_in. intros id Hid.
  apply lookup_in_range.
  assert (Hlen : length row = d_ctx logits).
  { apply in_combine_l in Hin. apply in_map_iff in Hin.
    destruct Hin as [[drows n] [<- Hq]]. simpl in Hrow.
    apply in_combine_l in Hq.
    rewrite Forall_forall in Hrows. specialize (Hrows drows Hq).
    rewrite Forall_forall in Hrows. apply Hrows.
    rewrite <- (firstn_skipn n drows). apply in_or_app. left. exact Hrow. }
  rewrite Hlen. apply in_combine_r in Hin.
  rewrite Forall_forall in Hids. specialize (Hids ids Hin).
  rewrite Forall_forall in Hids. apply Hids. exact Hid.
Qed.

(** X11: for the global pool, [convert_logits_to_ragged] lists, at every
    argument position that the argument counts keep, the logits of the
    example's global context ids, in the order of these ids, when the
    argument counts are within the argument axis and the ids in the range
    of the context axis. *)
Theorem convert_logits_to_ragged_global_spec
  (logits : Dense3) (context_ids : list (list Z)) (arg_cnts : list nat) :
  Forall2 (fun rows n => n <= length rows) (d_data logits) arg_cnts ->
  length context_ids = length arg_cnts ->
  Forall (Forall (fun row : list float => length row = d_ctx logits))
         (d_data logits) ->
  Forall (Forall (fun id => (0 <= id < Z.of_nat (d_ctx logits))%Z))
         context_ids ->
  exists out,
    GlobalArgumentPrediction.convert_logits_to_ragged
      (logits, context_ids, arg_cnts, "global"%string)
    = ret out
    /\ length out = length arg_cnts
    /\ forall b a row ids n,
         position (d_data logits) b a = Some row ->
         nth_error context_ids b = Some ids ->
         nth_error arg_cnts b = Some n -> a < n ->
         exists orow,
           position out b a = Some orow
           /\ length orow = length ids
           /\ forall i id, nth_error ids i = Some id ->
                           nth_error orow i = nth_error row (Z.to_nat id).
Proof.
  intros Hcnt Hc Hrows Hids. pose proof (Forall2_length Hcnt) as Hd.
  eexists. split;
    [apply convert_logits_to_ragged_global_eq; assumption |].
  split; [rewrite length_map, length_combine, length_map, length_combine; lia |].
  intros b a row ids n Hpos Hb Hn Ha. unfold position in Hpos.
  destruct (nth_error (d_data logits) b) as [drows |] eqn:Ed; [| discriminate].
  eexists. split; [| split].
  - unfold position.
    rewrite (nth_error_map_combine _ _ _ _ (firstn n drows) ids);
      [| apply (nth_error_map_combine
                  (fun p : list (list float) * nat => firstn (snd p) (fst p))
                  _ _ _ drows n); assumption
       | exact Hb].
    simpl. rewrite nth_error_map, (nth_error_firstn_lt drows n a Ha), Hpos.
    reflexivity.
  - apply length_map.
  - intros i id Hi. rewrite nth_error_map, Hi. simpl.
    symmetry. apply lookup_in_range.
    assert (Hlen : length row = d_ctx logits).
    { rewrite Forall_forall in Hrows.
      specialize (Hrows drows (nth_error_In _ _ Ed)).
      rewrite Forall_forall in Hrows. apply Hrows.
      apply (nth_error_In _ _ Hpos). }
    rewrite Hlen. rewrite Forall_forall in Hids.
    specialize (Hids ids (nth_error_In _ _ Hb)).
    rewrite Forall_forall in Hids. apply Hids. apply (nth_error_In _ _ Hi).
Qed.

Lemma convert_logits_to_ragged_global_spec_witness :
  exists out,
    GlobalArgumentPrediction.convert_logits_to_ragged
      (mkDense3 1 3 [[[Fin 1; Fin 2; Fin 3]]], [[2; 0]%Z], [1],
       "global"%string)
    = ret out
    /\ length out = length [1]
    /\ forall b a row ids n,
         position [[[Fin 1; Fin 2; Fin 3]]] b a = Some row ->
         nth_error [[2; 0]%Z] b = Some ids ->
         nth_error [1] b = Some n -> a < n ->
         exists orow,
           position out b a = Some orow
           /\ length orow = length ids
           /\ forall i id, nth_error ids i = Some id ->
                           nth_error orow i = nth_error row (Z.to_nat id).
Proof.
  apply (convert_logits_to_ragged_global_spec
           (mkDense3 1 3 [[[Fin 1; Fin 2; Fin 3]]]) [[2; 0]%Z] [1]).
  - repeat constructor.
  - reflexivity.
  - repeat constructor.
  - repeat constructor; simpl; lia.
Defined.

(** ** The outputs of the training model *)

Lemma position_cut {A D} (H : list Z -> list A -> D)
  (data : list (list (list A))) (arg_cnts : list nat)
  (context_ids : list (list Z)) (b a n : nat) (row : list A) (ids : list Z) :
  position data b a = Some row -> nth_error context_ids b = Some ids ->
  nth_error arg_cnts b = Some n -> a < n ->
  position (map (fun p => map (H (snd p)) (fst p))
                (combine (map (fun p => firstn (snd p) (fst p))
                              (combine data arg_cnts))
                         context_ids)) b a
  = Some (H ids row).
Proof.
  intros Hpos Hb Hn Ha. unfold position in *.
  destruct (nth_error data b) as [drows |] eqn:Ed; [| discriminate].
  rewrite (nth_error_map_combine _ _ _ _ (firstn n drows) ids);
    [| apply (nth_error_map_combine
                (fun p : list (list A) * nat => firstn (snd p) (fst p))
                _ _ _ drows n); assumption
     | exact Hb].
  simpl. rewrite nth_error_map, (nth_error_firstn_lt drows n a Ha), Hpos.
  reflexivity.
Qed.

Lemma position_dense (pad : list float -> list float)
  (zeros : list (list float) -> list (list float))
  (logits : list (list (list float))) (b a : nat) (row : list float) :
  position logits b a = Some row ->
  position (map (fun rows => map pad rows ++ zeros rows) logits) b a
  = Some (pad row).
Proof.
  unfold position. intros H.
  destruct (nth_error logits b) as [rows |] eqn:E; [| discriminate].
  rewrite nth_error_map, E. simpl.
  rewrite nth_error_app1
    by (rewrite length_map; apply nth_error_Some; congruence).
  rewrite nth_error_map, H. reflexivity.
Qed.

Lemma max_row_length_uniform {A} (rt : list (list A)) (n : nat) :
  Forall (fun r => length r = n) rt -> rt <> [] -> max_row_length rt = n.
Proof.
  unfold max_row_length, row_lengths.
  induction 1 as [| r rt Hr Hrt IH]; intros Hne; [congruence |].
  simpl. destruct rt as [| r' rt']; [simpl; lia |].
  rewrite IH by discriminate. lia.
Qed.

Lemma map_nth_seq (v : list float) :
  map (fun j => nth j v NInf) (seq 0 (length v)) = v.
Proof.
  induction v as [| x v IH]; [reflexivity |].
  simpl. f_equal. rewrite <- seq_shift, map_map. exact IH.
Qed.

Lemma total_prob_filter (g : nat -> float) (h : nat -> bool) (l : list nat) :
  (forall j, In j l -> h j = false -> prob (g j) = 0%R) ->
  total_prob (map g (filter h l)) = total_prob (map g l).
Proof.
  unfold total_prob. induction l as [| j l IH]; intros H; [reflexivity |].
  simpl. destruct (h j) eqn:E; simpl.
  - rewrite IH; [reflexivity |]. intros i Hi. apply H. right. exact Hi.
  - rewrite IH by (intros i Hi; apply H; right; exact Hi).
    rewrite (H j (or_introl eq_refl) E). lra.
Qed.

Lemma NoDup_map_to_nat (ids : list Z) :
  NoDup ids -> Forall (fun id => (0 <= id)%Z) ids ->
  NoDup (map Z.to_nat ids).
Proof.
  induction 1 as [| x ids Hx _ IH]; intros Hpos; simpl; constructor.
  - intros Hin. apply in_map_iff in Hin. destruct Hin as [y [Hy Hin]].
    rewrite Forall_forall in Hpos.
    pose proof (Hpos x (or_introl eq_refl)).
    pose proof (Hpos y (or_intror Hin)).
    assert (y = x) by lia. subst y. exact (Hx Hin).
  - apply IH. apply (Forall_inv_tail Hpos).
Qed.

(** Reading a row at pairwise different positions that cover every entry
    of non-zero probability keeps the total probability. *)
Lemma total_prob_listed (v : list float) (ids : list Z) :
  NoDup ids ->
  Forall (fun id => (0 <= id < Z.of_nat (length v))%Z) ids ->
  (forall j, j < length v -> ~ In (Z.of_nat j) ids ->
             prob (nth j v NInf) = 0%R) ->
  total_prob (map (fun id => nth (Z.to_nat id) v NInf) ids) = total_prob v.
Proof.
  intros Hnd Hrange Hzero.
  set (g := fun j => nth j v NInf).
  set (h := fun j => existsb (fun id => (id =? Z.of_nat j)%Z) ids).
  transitivity (total_prob (map g (seq 0 (length v))));
    [| unfold g; rewrite map_nth_seq; reflexivity].
  rewrite <- (total_prob_filter g h).
  2:{ intros j Hj Hh. apply in_seq in Hj. apply Hzero; [lia |].
      intros Hin. unfold h in Hh. rewrite (existsb_in _ _ Hin) in Hh.
      discriminate. }
  rewrite <- (map_map Z.to_nat g).
  apply total_prob_perm. apply Permutation_map.
  apply NoDup_Permutation.
  - apply NoDup_map_to_nat; [exact Hnd |].
    apply (Forall_impl _ (fun id (H : (0 <= id < _)%Z) => proj1 H) Hrange).
  - apply NoDup_filter. apply seq_NoDup.
  - intros x. rewrite Forall_forall in Hrange. split.
    + intros Hx. apply in_map_iff in Hx. destruct Hx as [id [<- Hid]].
      specialize (Hrange id Hid). apply filter_In. split.
      * apply in_seq. lia.
      * unfold h. apply existsb_in. rewrite Z2Nat.id by lia. exact Hid.
    + intros Hx. apply filter_In in Hx. destruct Hx as [_ Hx].
      unfold h in Hx. apply existsb_exists in Hx.
      destruct Hx as [id [Hid Heq]]. apply Z.eqb_eq in Heq.
      apply in_map_iff. exists id. split; [| exact Hid].
      subst id. apply Nat2Z.id.
Qed.

(** [create_train_model] with a dynamic global context, in closed form. *)
Lemma create_train_model_dynamic_eq (graph_constants : GraphConstants)
  (global_context_ids : list (list Z))
  (local_arguments_logits global_arguments_logits : Dense3) :
  let size := length (global_context graph_constants) in
  Forall (Forall (fun id => (0 <= id < Z.of_nat size)%Z)) global_context_ids ->
  Forall (@NoDup Z) global_context_ids ->
  Forall2 (fun lrows grows => length lrows = length grows)
          (d_data local_arguments_logits) (d_data global_arguments_logits) ->
  length (d_data global_arguments_logits) = length global_context_ids ->
  Forall (Forall (fun row : list float => length row = size))
         (d_data global_arguments_logits) ->
  let masked :=
    map (fun p : list (list float) * list float =>
           map (fun row => map (fun q => fadd (fst q) (snd q))
                               (combine row (snd p)))
               (fst p))
        (combine (d_data global_arguments_logits)
                 (map (spec_mask_row size) global_context_ids)) in
  let pairs :=
    map (fun p => map (fun q => GlobalArgumentPrediction.normalize_position
                                  (fst q) (snd q))
                      (combine (fst p) (snd p)))
        (combine (d_data local_arguments_logits) masked) in
  GlobalArgumentPrediction.create_train_model true graph_constants
    global_context_ids local_arguments_logits global_arguments_logits
  = ret (mkDense3 (d_args local_arguments_logits)
                  (d_ctx local_arguments_logits) (map (map fst) pairs),
         mkDense3 (d_args global_arguments_logits)
                  (d_ctx global_arguments_logits) (map (map snd) pairs)).
Proof.
  intros size Hrange Hnd Hshape Hlen Hrows masked pairs.
  unfold GlobalArgumentPrediction.create_train_model. fold size.
  rewrite (global_arguments_logits_mask_spec global_context_ids size
             Hrange Hnd), bind_ret.
  rewrite (add_mask_to_logits size _ _ Hlen Hrows), !bind_ret.
  fold masked.
  unfold GlobalArgumentPrediction._normalize_logits. simpl d_data.
  rewrite (zipM2_ret GlobalArgumentPrediction.normalize_position).
  - rewrite bind_ret. reflexivity.
  - unfold masked. apply Forall2_masked_shape; [| exact Hshape |].
    + intros p. apply length_map.
    + rewrite length_map. exact Hlen.
Qed.

Lemma max_row_length_row_lengths {A B} (x : list (list A)) (y : list (list B)) :
  row_lengths x = row_lengths y -> max_row_length x = max_row_length y.
Proof. unfold max_row_length. intros ->. reflexivity. Qed.

Lemma dense_same_shape (padL padG : list float -> list float)
  (zL zG : list float) (n : nat)
  (local global : list (list (list float))) :
  row_lengths global = row_lengths local ->
  Forall2 (fun lrows grows : list (list float) => length lrows = length grows)
          (map (fun rows => map padL rows ++ repeat zL (n - length rows)) local)
          (map (fun rows => map padG rows ++ repeat zG (n - length rows))
               global).
Proof.
  unfold row_lengths. revert global.
  induction local as [| l local IH]; intros [| g global] H; simpl in *;
    try discriminate; [constructor |].
  injection H as Hg Ht. constructor.
  - rewrite !length_app, !length_map, !repeat_length, Hg. reflexivity.
  - apply IH. exact Ht.
Qed.

Lemma dense_rows_width (n nctx : nat) (logits : list (list (list float))) :
  Forall (Forall (fun row : list float => length row = nctx)) logits ->
  Forall (Forall (fun row : list float => length row = nctx))
         (map (fun rows =>
                 map (fun row => row ++ repeat NInf (nctx - length row)) rows
                 ++ repeat (repeat (Fin 0) nctx) (n - length rows))
              logits).
Proof.
  intros H. apply Forall_forall. intros drows Hd. apply in_map_iff in Hd.
  destruct Hd as [rows [<- Hrows]].
  rewrite Forall_forall in H. specialize (H rows Hrows).
  apply Forall_app. split.
  - apply Forall_forall. intros drow Hr. apply in_map_iff in Hr.
    destruct Hr as [row [<- Hrow]]. rewrite Forall_forall in H.
    rewrite length_app, repeat_length, (H row Hrow). lia.
  - apply Forall_forall. intros drow Hr. apply repeat_spec in Hr.
    subst drow. apply repeat_length.
Qed.

Lemma length_snd_normalize_position (l g : list float) :
  length (snd (GlobalArgumentPrediction.normalize_position l g)) = length g.
Proof.
  unfold GlobalArgumentPrediction.normalize_position. simpl.
  rewrite !length_map. reflexivity.
Qed.

(** The rows of the normalized global logits are as wide as the global
    context. *)
Lemma normalized_global_width (size : nat)
  (ldata gdata : list (list (list float))) (ids : list (list Z)) :
  Forall (Forall (fun row : list float => length row = size)) gdata ->
  Forall (Forall (fun row : list float => length row = size))
    (map (map snd)
       (map (fun p => map (fun q => GlobalArgumentPrediction.normalize_position
                                      (fst q) (snd q))
                          (combine (fst p) (snd p)))
            (combine ldata
               (map (fun p : list (list float) * list float =>
                       map (fun row => map (fun q => fadd (fst q) (snd q))
                                           (combine row (snd p)))
                           (fst p))
                    (combine gdata (map (spec_mask_row size) ids)))))).
Proof.
  intros Hrows. rewrite map_map.
  apply Forall_forall. intros nrows Hn. apply in_map_iff in Hn.
  destruct Hn as [[lrows mrows] [<- Hp]]. simpl.
  apply in_combine_r in Hp. apply in_map_iff in Hp.
  destruct Hp as [[grows mask_row] [Hm Hq]]. simpl in Hm. subst mrows.
  pose proof (in_combine_l _ _ _ _ Hq) as Hg.
  pose proof (in_combine_r _ _ _ _ Hq) as Hmask.
  apply in_map_iff in Hmask. destruct Hmask as [idsb [<- _]].
  rewrite Forall_forall in Hrows. specialize (Hrows grows Hg).
  rewrite Forall_forall in Hrows.
  rewrite map_map. apply Forall_forall. intros nrow Hr.
  apply in_map_iff in Hr. destruct Hr as [[l m] [<- Hlm]]. cbn [fst snd].
  rewrite length_snd_normalize_position.
  apply in_combine_r in Hlm. apply in_map_iff in Hlm.
  destruct Hlm as [row [<- Hrow]].
  rewrite length_map, length_combine, length_spec_mask_row, (Hrows row Hrow).
  lia.
Qed.

(** [create_train_model_outputs] with a dynamic global context, in closed
    form. *)
Lemma create_train_model_outputs_eq (graph_constants : GraphConstants)
  (local_context_ids global_context_ids : list (list Z))
  (local_arguments_logits global_arguments_logits : list (list (list float))) :
  let size := length (global_context graph_constants) in
  let arg_cnts := row_lengths local_arguments_logits in
  row_lengths global_arguments_logits = arg_cnts ->
  length local_context_ids = length arg_cnts ->
  length global_context_ids = length arg_cnts ->
  Forall (Forall (fun row : list float => length row = size))
         global_arguments_logits ->
  values global_arguments_logits <> [] ->
  Forall (Forall (fun id => (0 <= id < Z.of_nat size)%Z)) global_context_ids ->
  Forall (@NoDup Z) global_context_ids ->
  let nargs := max_row_length local_arguments_logits in
  let nctx := max_row_length (values local_arguments_logits) in
  let ldata :=
    map (fun rows =>
           map (fun row => row ++ repeat NInf (nctx - length row)) rows
           ++ repeat (repeat (Fin 0) nctx) (nargs - length rows))
        local_arguments_logits in
  let gdata :=
    map (fun rows =>
           map (fun row => row ++ repeat NInf (size - length row)) rows
           ++ repeat (repeat (Fin 0) size) (nargs - length rows))
        global_arguments_logits in
  let masked :=
    map (fun p : list (list float) * list float =>
           map (fun row => map (fun q => fadd (fst q) (snd q))
                               (combine row (snd p)))
               (fst p))
        (combine gdata (map (spec_mask_row size) global_context_ids)) in
  let pairs :=
    map (fun p => map (fun q => GlobalArgumentPrediction.normalize_position
                                  (fst q) (snd q))
                      (combine (fst p) (snd p)))
        (combine ldata masked) in
  GlobalArgumentPrediction.create_train_model_outputs true graph_constants
    local_context_ids global_context_ids arg_cnts
    local_arguments_logits global_arguments_logits
  = ret (map (fun p => map (firstn (length (snd p))) (fst p))
             (combine (map (fun p => firstn (snd p) (fst p))
                           (combine (map (map fst) pairs) arg_cnts))
                      local_context_ids),
         map (fun p =>
                map (fun row => map (fun id => nth (Z.to_nat id) row NInf)
                                    (snd p))
                    (fst p))
             (combine (map (fun p => firstn (snd p) (fst p))
                           (combine (map (map snd) pairs) arg_cnts))
                      global_context_ids)).
Proof.
  intros size arg_cnts Hcnt Hlids Hgids Hrows Hne Hrange Hnd
         nargs nctx ldata gdata masked pairs.
  assert (HnG : max_row_length (values global_arguments_logits) = size).
  { apply max_row_length_uniform; [| exact Hne].
    unfold values. apply Forall_forall. intros row Hrow.
    apply in_concat in Hrow. destruct Hrow as [rows [Hrows' Hrow]].
    rewrite Forall_forall in Hrows. specialize (Hrows rows Hrows').
    rewrite Forall_forall in Hrows. apply Hrows. exact Hrow. }
  assert (HaG : max_row_length global_arguments_logits = nargs)
    by (apply max_row_length_row_lengths; exact Hcnt).
  assert (HB : length global_arguments_logits = length arg_cnts).
  { rewrite <- Hcnt. unfold row_lengths. rewrite length_map. reflexivity. }
  assert (HBl : length local_arguments_logits = length arg_cnts).
  { unfold arg_cnts, row_lengths. rewrite length_map. reflexivity. }
  assert (Hgw : Forall (Forall (fun row : list float => length row = size))
                       gdata)
    by (apply dense_rows_width; exact Hrows).
  assert (Hpl : length pairs = length arg_cnts).
  { unfold pairs, masked, ldata, gdata.
    rewrite !length_map, !length_combine, !length_map, !length_combine,
      !length_map. lia. }
  unfold GlobalArgumentPrediction.create_train_model_outputs.
  rewrite (convert_ragged_logits_to_dense_eq local_arguments_logits).
  rewrite bind_ret.
  rewrite (convert_ragged_logits_to_dense_eq global_arguments_logits).
  rewrite bind_ret. cbv zeta. rewrite HnG, HaG.
  fold nargs. fold nctx. fold ldata. fold gdata.
  rewrite (create_train_model_dynamic_eq graph_constants global_context_ids
             (mkDense3 nargs nctx ldata) (mkDense3 nargs size gdata)
             Hrange Hnd).
  - rewrite bind_ret. simpl d_data. simpl d_args. simpl d_ctx.
    fold size. fold masked. fold pairs.
    rewrite convert_logits_to_ragged_local;
      [| reflexivity
       | simpl d_data; rewrite !length_map; exact Hpl
       | exact Hlids].
    rewrite bind_ret. simpl d_data.
    rewrite convert_logits_to_ragged_global_eq;
      [| simpl d_data; rewrite !length_map; exact Hpl
       | exact Hgids
       | simpl d_data; simpl d_ctx; unfold pairs, masked;
         apply normalized_global_width; exact Hgw
       | simpl d_ctx; exact Hrange].
    rewrite bind_ret. reflexivity.
  - simpl d_data. unfold ldata, gdata.
    apply dense_same_shape. exact Hcnt.
  - simpl d_data. unfold gdata. rewrite length_map. lia.
  - simpl d_data. exact Hgw.
Qed.

Lemma shifted_ninf_no_prob (M norm : R) (k : nat) :
  total_prob (map (fun x => fadd (fsub x (Fin M)) (Fin norm)) (repeat NInf k))
  = 0%R.
Proof.
  unfold total_prob. induction k as [| k IH]; simpl; [reflexivity |].
  rewrite IH. lra.
Qed.

(** X12: with a dynamic global context, the two ragged outputs of the
    training model hold, at an argument position with a candidate, one
    finite log-probability per local context node and one per available
    global definition, and these probabilities add up to 1: nothing of the
    padding or of the unavailable definitions is left in the outputs.
    Hypotheses: the raw logits are finite, one per local context node and
    one per entry of the global vocabulary; the available ids are in range
    and pairwise different. *)
Theorem train_model_outputs_are_a_distribution
  (graph_constants : GraphConstants)
  (local_context_ids global_context_ids : list (list Z))
  (local_arguments_logits global_arguments_logits : list (list (list float)))
  (b a : nat) (lids gids : list Z) (lrow grow : list float) :
  let size := length (global_context graph_constants) in
  let arg_cnts := row_lengths local_arguments_logits in
  row_lengths global_arguments_logits = arg_cnts ->
  length global_context_ids = length arg_cnts ->
  Forall2 (fun rows ids => Forall (fun row => length row = length ids) rows)
          local_arguments_logits local_context_ids ->
  Forall (Forall (fun row : list float => length row = size))
         global_arguments_logits ->
  Forall (Forall (fun id => (0 <= id < Z.of_nat size)%Z)) global_context_ids ->
  Forall (@NoDup Z) global_context_ids ->
  nth_error local_context_ids b = Some lids ->
  nth_error global_context_ids b = Some gids ->
  position local_arguments_logits b a = Some lrow ->
  position global_arguments_logits b a = Some grow ->
  Forall finite lrow -> Forall finite grow ->
  lids <> [] \/ gids <> [] ->
  exists new_local new_global olrow ogrow,
    GlobalArgumentPrediction.create_train_model_outputs true graph_constants
      local_context_ids global_context_ids arg_cnts
      local_arguments_logits global_arguments_logits
    = ret (new_local, new_global)
    /\ position new_local b a = Some olrow
    /\ position new_global b a = Some ogrow
    /\ length olrow = length lids
    /\ length ogrow = length gids
    /\ Forall finite (olrow ++ ogrow)
    /\ (total_prob olrow + total_prob ogrow = 1)%R.
Proof.
  intros size arg_cnts Hcnt Hgids HL Hrows Hrange Hnd Hlb Hgb Hl Hg Fl Fg Hcand.
  assert (Hlids : length local_context_ids = length arg_cnts).
  { rewrite <- (Forall2_length HL). unfold arg_cnts, row_lengths.
    rewrite length_map. reflexivity. }
  assert (Hne : values global_arguments_logits <> []).
  { unfold position in Hg.
    destruct (nth_error global_arguments_logits b) as [rows |] eqn:E;
      [| discriminate].
    intros Hnil.
    assert (Hin : In grow (values global_arguments_logits)).
    { unfold values. apply in_concat. exists rows.
      split; [apply (nth_error_In _ _ E) | apply (nth_error_In _ _ Hg)]. }
    rewrite Hnil in Hin. contradiction. }
  unfold arg_cnts at 1.
  rewrite (create_train_model_outputs_eq graph_constants local_context_ids
             global_context_ids local_arguments_logits
             global_arguments_logits Hcnt Hlids Hgids Hrows Hne Hrange Hnd).
  fold size. fold arg_cnts.
  set (nargs := max_row_length local_arguments_logits).
  set (nctx := max_row_length (values local_arguments_logits)).
  set (ldata :=
    map (fun rows =>
           map (fun row => row ++ repeat NInf (nctx - length row)) rows
           ++ repeat (repeat (Fin 0) nctx) (nargs - length rows))
        local_arguments_logits).
  set (gdata :=
    map (fun rows =>
           map (fun row => row ++ repeat NInf (size - length row)) rows
           ++ repeat (repeat (Fin 0) size) (nargs - length rows))
        global_arguments_logits).
  set (masked :=
    map (fun p : list (list float) * list float =>
           map (fun row => map (fun q => fadd (fst q) (snd q))
                               (combine row (snd p)))
               (fst p))
        (combine gdata (map (spec_mask_row size) global_context_ids))).
  set (pairs :=
    map (fun p => map (fun q => GlobalArgumentPrediction.normalize_position
                                  (fst q) (snd q))
                      (combine (fst p) (snd p)))
        (combine ldata masked)).
  (* the rows that meet at the position *)
  assert (Hlen_l : length lrow = length lids).
  { unfold position in Hl.
    destruct (nth_error local_arguments_logits b) as [rows |] eqn:E;
      [| discriminate].
    destruct (Forall2_nth_error _ _ _ _ _ HL E) as [ids' [Hids' Hr]].
    rewrite Hlb in Hids'. inversion Hids'; subst ids'.
    rewrite Forall_forall in Hr. apply Hr. apply (nth_error_In _ _ Hl). }
  assert (Hlen_g : length grow = size).
  { unfold position in Hg.
    destruct (nth_error global_arguments_logits b) as [rows |] eqn:E;
      [| discriminate].
    rewrite Forall_forall in Hrows.
    specialize (Hrows rows (nth_error_In _ _ E)).
    rewrite Forall_forall in Hrows. apply Hrows.
    apply (nth_error_In _ _ Hg). }
  set (plrow := lrow ++ repeat NInf (nctx - length lrow)).
  set (mgrow := map (fun q => fadd (fst q) (snd q))
                    (combine grow (spec_mask_row size gids))).
  assert (Hpl : position ldata b a = Some plrow).
  { unfold ldata.
    apply (position_dense
             (fun row => row ++ repeat NInf (nctx - length row))
             _ _ _ _ _ Hl). }
  assert (Hpg : position gdata b a = Some grow).
  { unfold gdata.
    rewrite (position_dense
               (fun row => row ++ repeat NInf (size - length row))
               _ _ _ _ _ Hg).
    rewrite Hlen_g, Nat.sub_diag. simpl. rewrite app_nil_r. reflexivity. }
  assert (Hpm : position masked b a = Some mgrow).
  { unfold position in Hpg |- *. unfold masked.
    destruct (nth_error gdata b) as [grows |] eqn:E; [| discriminate].
    rewrite (nth_error_map_combine _ _ _ _ grows (spec_mask_row size gids));
      [| exact E | rewrite nth_error_map, Hgb; reflexivity].
    simpl. rewrite nth_error_map, Hpg. reflexivity. }
  pose proof (position_map2 GlobalArgumentPrediction.normalize_position
                _ _ _ _ _ _ Hpl Hpm) as Hpp.
  fold pairs in Hpp.
  assert (Hcnt_b : exists n, nth_error arg_cnts b = Some n /\ a < n).
  { unfold position in Hl.
    destruct (nth_error local_arguments_logits b) as [rows |] eqn:E;
      [| discriminate].
    exists (length rows). split.
    - unfold arg_cnts, row_lengths. rewrite nth_error_map, E. reflexivity.
    - apply nth_error_Some. congruence. }
  destruct Hcnt_b as [n [Hn Han]].
  (* the normalization at the position *)
  assert (Bpl : Forall below_inf plrow).
  { unfold plrow. apply Forall_app. split.
    - apply (Forall_impl _ below_inf_finite Fl).
    - apply Forall_forall. intros x Hx. apply repeat_spec in Hx.
      subst x. exact I. }
  destruct (masked_row_entries size gids grow Hlen_g Fg) as [Bm Hentries].
  fold mgrow in Bm, Hentries.
  assert (Hgr : Forall (fun id => (0 <= id < Z.of_nat size)%Z) gids).
  { rewrite Forall_forall in Hrange. apply Hrange.
    apply (nth_error_In _ _ Hgb). }
  assert (Hex : Exists finite (plrow ++ mgrow)).
  { apply Exists_app. destruct Hcand as [H | H].
    - left. unfold plrow. apply Exists_app. left.
      destruct lrow as [| x lrow'];
        [destruct lids; [congruence | discriminate] |].
      left. apply (Forall_inv Fl).
    - right. apply masked_row_has_candidate; assumption. }
  destruct (normalize_position_spec plrow mgrow Bpl Bm Hex)
    as [M [norm [_ [Hnp Hsum]]]].
  destruct (normalized_total_prob M norm plrow mgrow Bpl Bm Hsum)
    as [_ [_ Htot]].
  set (sh := fun x => fadd (fsub x (Fin M)) (Fin norm)) in *.
  eexists _, _, (map sh lrow),
    (map (fun id => nth (Z.to_nat id) (map sh mgrow) NInf) gids).
  split; [reflexivity |].
  assert (Hlm : length (map sh mgrow) = size).
  { unfold mgrow.
    rewrite !length_map, length_combine, length_spec_mask_row. lia. }
  split; [| split; [| split; [| split; [| split]]]].
  - assert (Hpos : position (map (map fst) pairs) b a = Some (map sh plrow))
      by (rewrite (position_map fst _ _ _ _ Hpp), Hnp; reflexivity).
    transitivity (Some (firstn (length lids) (map sh plrow))).
    + exact (position_cut (fun ids row => firstn (length ids) row)
               (map (map fst) pairs) arg_cnts local_context_ids b a n
               (map sh plrow) lids Hpos Hlb Hn Han).
    + f_equal. unfold plrow. rewrite map_app, <- Hlen_l.
      rewrite <- (length_map sh lrow) at 1.
      apply firstn_length_app.
  - assert (Hpos : position (map (map snd) pairs) b a = Some (map sh mgrow))
      by (rewrite (position_map snd _ _ _ _ Hpp), Hnp; reflexivity).
    exact (position_cut
             (fun ids row => map (fun id => nth (Z.to_nat id) row NInf) ids)
             (map (map snd) pairs) arg_cnts global_context_ids b a n
             (map sh mgrow) gids Hpos Hgb Hn Han).
  - rewrite length_map. exact Hlen_l.
  - apply length_map.
  - apply Forall_app. split.
    + apply Forall_forall. intros y Hy. apply in_map_iff in Hy.
      destruct Hy as [x [<- Hx]]. rewrite Forall_forall in Fl.
      destruct (Fl x Hx) as [r ->]. eexists. reflexivity.
    + apply Forall_forall. intros y Hy. apply in_map_iff in Hy.
      destruct Hy as [id [<- Hid]].
      rewrite Forall_forall in Hgr. specialize (Hgr id Hid).
      destruct (Hentries (Z.to_nat id)) as [r [_ Hm]]; [lia |].
      rewrite Z2Nat.id in Hm by lia.
      rewrite (existsb_in _ _ Hid) in Hm.
      rewrite (nth_error_nth (map sh mgrow) (Z.to_nat id) NInf
                 (x := sh (Fin (r + 0))))
        by (rewrite nth_error_map, Hm; reflexivity).
      eexists. reflexivity.
  - rewrite (total_prob_listed (map sh mgrow) gids).
    + rewrite <- Htot. unfold plrow.
      rewrite map_app, total_prob_app.
      assert (Hz : total_prob (map sh (repeat NInf (nctx - length lrow)))
                   = 0%R) by apply shifted_ninf_no_prob.
      rewrite Hz. lra.
    + rewrite Forall_forall in Hnd. apply Hnd. apply (nth_error_In _ _ Hgb).
    + rewrite Hlm. exact Hgr.
    + intros j Hj Hout. rewrite Hlm in Hj.
      destruct (Hentries j Hj) as [r [_ Hm]].
      rewrite (existsb_not_in _ _ Hout) in Hm.
      rewrite (nth_error_nth (map sh mgrow) j NInf (x := sh NInf))
        by (rewrite nth_error_map, Hm; reflexivity).
      reflexivity.
Qed.

Lemma train_model_outputs_are_a_distribution_witness :
  exists new_local new_global olrow ogrow,
    GlobalArgumentPrediction.create_train_model_outputs true
      (mkGraphConstants 0 [] [10; 11]%Z) [[5%Z]] [[1%Z]]
      (row_lengths [[[Fin 0]]]) [[[Fin 0]]] [[[Fin 0; Fin 0]]]
    = ret (new_local, new_global)
    /\ position new_local 0 0 = Some olrow
    /\ position new_global 0 0 = Some ogrow
    /\ length olrow = length [5%Z]
    /\ length ogrow = length [1%Z]
    /\ Forall finite (olrow ++ ogrow)
    /\ (total_prob olrow + total_prob ogrow = 1)%R.
Proof.
  apply (train_model_outputs_are_a_distribution
           (mkGraphConstants 0 [] [10; 11]%Z) [[5%Z]] [[1%Z]]
           [[[Fin 0]]] [[[Fin 0; Fin 0]]] 0 0 [5%Z] [1%Z]
           [Fin 0] [Fin 0; Fin 0]).
  - reflexivity.
  - reflexivity.
  - repeat constructor.
  - repeat constructor.
  - repeat constructor; simpl; lia.
  - repeat constructor; simpl; tauto.
  - reflexivity.
  - reflexivity.
  - reflexivity.
  - reflexivity.
  - repeat constructor; eexists; reflexivity.
  - repeat constructor; eexists; reflexivity.
  - left. discriminate.
Defined.

Lemma total_prob_filter_le (g : nat -> float) (h : nat -> bool) (l : list nat) :
  (total_prob (map g (filter h l)) <= total_prob (map g l))%R.
Proof.
  unfold total_prob. induction l as [| j l IH]; simpl; [lra |].
  destruct (h j); simpl; [lra |]. pose proof (prob_nonneg (g j)). lra.
Qed.

Lemma total_prob_listed_le (v : list float) (ids : list Z) :
  NoDup ids ->
  Forall (fun id => (0 <= id < Z.of_nat (length v))%Z) ids ->
  (total_prob (map (fun id => nth (Z.to_nat id) v NInf) ids)
   <= total_prob v)%R.
Proof.
  intros Hnd Hrange.
  set (g := fun j => nth j v NInf).
  set (h := fun j => existsb (fun id => (id =? Z.of_nat j)%Z) ids).
  replace (total_prob v) with (total_prob (map g (seq 0 (length v))))
    by (unfold g; rewrite map_nth_seq; reflexivity).
  apply (Rle_trans _ (total_prob (map g (filter h (seq 0 (length v))))));
    [| apply total_prob_filter_le].
  right. rewrite <- (map_map Z.to_nat g).
  apply total_prob_perm. apply Permutation_map.
  apply NoDup_Permutation.
  - apply NoDup_map_to_nat; [exact Hnd |].
    apply (Forall_impl _ (fun id (H : (0 <= id < _)%Z) => proj1 H) Hrange).
  - apply NoDup_filter. apply seq_NoDup.
  - intros x. rewrite Forall_forall in Hrange. split.
    + intros Hx. apply in_map_iff in Hx. destruct Hx as [id [<- Hid]].
      specialize (Hrange id Hid). apply filter_In. split.
      * apply in_seq. lia.
      * unfold h. apply existsb_in. rewrite Z2Nat.id by lia. exact Hid.
    + intros Hx. apply filter_In in Hx. destruct Hx as [_ Hx].
      unfold h in Hx. apply existsb_exists in Hx.
      destruct Hx as [id [Hid Heq]]. apply Z.eqb_eq in Heq.
      apply in_map_iff. exists id. split; [| exact Hid].
      subst id. apply Nat2Z.id.
Qed.

Lemma normalized_width (size : nat) (ldata gdata : list (list (list float))) :
  Forall (Forall (fun row : list float => length row = size)) gdata ->
  Forall (Forall (fun row : list float => length row = size))
    (map (map snd)
       (map (fun p => map (fun q => GlobalArgumentPrediction.normalize_position
                                      (fst q) (snd q))
                          (combine (fst p) (snd p)))
            (combine ldata gdata))).
Proof.
  intros Hrows. rewrite map_map.
  apply Forall_forall. intros nrows Hn. apply in_map_iff in Hn.
  destruct Hn as [[lrows grows] [<- Hp]]. cbn [fst snd].
  apply in_combine_r in Hp.
  rewrite Forall_forall in Hrows. specialize (Hrows grows Hp).
  rewrite Forall_forall in Hrows.
  rewrite map_map. apply Forall_forall. intros nrow Hr.
  apply in_map_iff in Hr. destruct Hr as [[l g] [<- Hlg]]. cbn [fst snd].
  rewrite length_snd_normalize_position.
  apply Hrows. apply (in_combine_r _ _ _ _ Hlg).
Qed.

(** [create_train_model_outputs] without a dynamic global context, in
    closed form. *)
Lemma create_train_model_outputs_static_eq (graph_constants : GraphConstants)
  (local_context_ids global_context_ids : list (list Z))
  (local_arguments_logits global_arguments_logits : list (list (list float)))
  (size : nat) :
  let arg_cnts := row_lengths local_arguments_logits in
  row_lengths global_arguments_logits = arg_cnts ->
  length local_context_ids = length arg_cnts ->
  length global_context_ids = length arg_cnts ->
  Forall (Forall (fun row : list float => length row = size))
         global_arguments_logits ->
  values global_arguments_logits <> [] ->
  Forall (Forall (fun id => (0 <= id < Z.of_nat size)%Z)) global_context_ids ->
  let nargs := max_row_length local_arguments_logits in
  let nctx := max_row_length (values local_arguments_logits) in
  let ldata :=
    map (fun rows =>
           map (fun row => row ++ repeat NInf (nctx - length row)) rows
           ++ repeat (repeat (Fin 0) nctx) (nargs - length rows))
        local_arguments_logits in
  let gdata :=
    map (fun rows =>
           map (fun row => row ++ repeat NInf (size - length row)) rows
           ++ repeat (repeat (Fin 0) size) (nargs - length rows))
        global_arguments_logits in
  let pairs :=
    map (fun p => map (fun q => GlobalArgumentPrediction.normalize_position
                                  (fst q) (snd q))
                      (combine (fst p) (snd p)))
        (combine ldata gdata) in
  GlobalArgumentPrediction.create_train_model_outputs false graph_constants
    local_context_ids global_context_ids arg_cnts
    local_arguments_logits global_arguments_logits
  = ret (map (fun p => map (firstn (length (snd p))) (fst p))
             (combine (map (fun p => firstn (snd p) (fst p))
                           (combine (map (map fst) pairs) arg_cnts))
                      local_context_ids),
         map (fun p =>
                map (fun row => map (fun id => nth (Z.to_nat id) row NInf)
                                    (snd p))
                    (fst p))
             (combine (map (fun p => firstn (snd p) (fst p))
                           (combine (map (map snd) pairs) arg_cnts))
                      global_context_ids)).
Proof.
  intros arg_cnts Hcnt Hlids Hgids Hrows Hne Hrange
         nargs nctx ldata gdata pairs.
  assert (HnG : max_row_length (values global_arguments_logits) = size).
  { apply max_row_length_uniform; [| exact Hne].
    unfold values. apply Forall_forall. intros row Hrow.
    apply in_concat in Hrow. destruct Hrow as [rows [Hrows' Hrow]].
    rewrite Forall_forall in Hrows. specialize (Hrows rows Hrows').
    rewrite Forall_forall in Hrows. apply Hrows. exact Hrow. }
  assert (HaG : max_row_length global_arguments_logits = nargs)
    by (apply max_row_length_row_lengths; exact Hcnt).
  assert (HB : length global_arguments_logits = length arg_cnts).
  { rewrite <- Hcnt. unfold row_lengths. rewrite length_map. reflexivity. }
  assert (HBl : length local_arguments_logits = length arg_cnts).
  { unfold arg_cnts, row_lengths. rewrite length_map. reflexivity. }
  assert (Hgw : Forall (Forall (fun row : list float => length row = size))
                       gdata)
    by (apply dense_rows_width; exact Hrows).
  assert (Hpl : length pairs = length arg_cnts).
  { unfold pairs, ldata, gdata.
    rewrite !length_map, !length_combine, !length_map. lia. }
  unfold GlobalArgumentPrediction.create_train_model_outputs.
  rewrite (convert_ragged_logits_to_dense_eq local_arguments_logits).
  rewrite bind_ret.
  rewrite (convert_ragged_logits_to_dense_eq global_arguments_logits).
  rewrite bind_ret. cbv zeta. rewrite HnG, HaG.
  fold nargs. fold nctx. fold ldata. fold gdata.
  unfold GlobalArgumentPrediction.create_train_model. rewrite bind_ret.
  unfold GlobalArgumentPrediction._normalize_logits. simpl d_data.
  rewrite (zipM2_ret GlobalArgumentPrediction.normalize_position)
    by (unfold ldata, gdata; apply dense_same_shape; exact Hcnt).
  fold pairs. rewrite !bind_ret. simpl d_args. simpl d_ctx.
  rewrite convert_logits_to_ragged_local;
    [| reflexivity
     | simpl d_data; rewrite !length_map; exact Hpl
     | exact Hlids].
  rewrite bind_ret. simpl d_data.
  rewrite convert_logits_to_ragged_global_eq;
    [| simpl d_data; rewrite !length_map; exact Hpl
     | exact Hgids
     | simpl d_data; simpl d_ctx; unfold pairs;
       apply normalized_width; exact Hgw
     | simpl d_ctx; exact Hrange].
  rewrite bind_ret. reflexivity.
Qed.

(** X13: without a dynamic global context the global logits are not
    masked: the two ragged outputs of the training model still hold finite
    log-probabilities, but the probabilities at a position add up to at
    most 1, and to exactly 1 only if every entry of the global vocabulary
    is among the example's global context ids; the share of the other
    entries is not in the outputs. *)
Theorem train_model_outputs_without_mask
  (graph_constants : GraphConstants)
  (local_context_ids global_context_ids : list (list Z))
  (local_arguments_logits global_arguments_logits : list (list (list float)))
  (size b a : nat) (lids gids : list Z) (lrow grow : list float) :
  let arg_cnts := row_lengths local_arguments_logits in
  row_lengths global_arguments_logits = arg_cnts ->
  length global_context_ids = length arg_cnts ->
  Forall2 (fun rows ids => Forall (fun row => length row = length ids) rows)
          local_arguments_logits local_context_ids ->
  Forall (Forall (fun row : list float => length row = size))
         global_arguments_logits ->
  Forall (Forall (fun id => (0 <= id < Z.of_nat size)%Z)) global_context_ids ->
  Forall (@NoDup Z) global_context_ids ->
  nth_error local_context_ids b = Some lids ->
  nth_error global_context_ids b = Some gids ->
  position local_arguments_logits b a = Some lrow ->
  position global_arguments_logits b a = Some grow ->
  Forall finite lrow -> Forall finite grow ->
  0 < size ->
  exists new_local new_global olrow ogrow,
    GlobalArgumentPrediction.create_train_model_outputs false graph_constants
      local_context_ids global_context_ids arg_cnts
      local_arguments_logits global_arguments_logits
    = ret (new_local, new_global)
    /\ position new_local b a = Some olrow
    /\ position new_global b a = Some ogrow
    /\ length olrow = length lids
    /\ length ogrow = length gids
    /\ Forall finite (olrow ++ ogrow)
    /\ (total_prob olrow + total_prob ogrow <= 1)%R
    /\ ((forall j, j < size -> In (Z.of_nat j) gids) ->
        (total_prob olrow + total_prob ogrow = 1)%R)
    /\ ((exists j, j < size /\ ~ In (Z.of_nat j) gids) ->
        (total_prob olrow + total_prob ogrow < 1)%R).
Proof.
  intros arg_cnts Hcnt Hgids HL Hrows Hrange Hnd Hlb Hgb Hl Hg Fl Fg Hsize.
  assert (Hlids : length local_context_ids = length arg_cnts).
  { rewrite <- (Forall2_length HL). unfold arg_cnts, row_lengths.
    rewrite length_map. reflexivity. }
  assert (Hne : values global_arguments_logits <> []).
  { unfold position in Hg.
    destruct (nth_error global_arguments_logits b) as [rows |] eqn:E;
      [| discriminate].
    intros Hnil.
    assert (Hin : In grow (values global_arguments_logits)).
    { unfold values. apply in_concat. exists rows.
      split; [apply (nth_error_In _ _ E) | apply (nth_error_In _ _ Hg)]. }
    rewrite Hnil in Hin. contradiction. }
  unfold arg_cnts at 1.
  rewrite (create_train_model_outputs_static_eq graph_constants
             local_context_ids global_context_ids local_arguments_logits
             global_arguments_logits size Hcnt Hlids Hgids Hrows Hne Hrange).
  fold arg_cnts.
  set (nargs := max_row_length local_arguments_logits).
  set (nctx := max_row_length (values local_arguments_logits)).
  set (ldata :=
    map (fun rows =>
           map (fun row => row ++ repeat NInf (nctx - length row)) rows
           ++ repeat (repeat (Fin 0) nctx) (nargs - length rows))
        local_arguments_logits).
  set (gdata :=
    map (fun rows =>
           map (fun row => row ++ repeat NInf (size - length row)) rows
           ++ repeat (repeat (Fin 0) size) (nargs - length rows))
        global_arguments_logits).
  set (pairs :=
    map (fun p => map (fun q => GlobalArgumentPrediction.normalize_position
                                  (fst q) (snd q))
                      (combine (fst p) (snd p)))
        (combine ldata gdata)).
  assert (Hlen_l : length lrow = length lids).
  { unfold position in Hl.
    destruct (nth_error local_arguments_logits b) as [rows |] eqn:E;
      [| discriminate].
    destruct (Forall2_nth_error _ _ _ _ _ HL E) as [ids' [Hids' Hr]].
    rewrite Hlb in Hids'. inversion Hids'; subst ids'.
    rewrite Forall_forall in Hr. apply Hr. apply (nth_error_In _ _ Hl). }
  assert (Hlen_g : length grow = size).
  { unfold position in Hg.
    destruct (nth_error global_arguments_logits b) as [rows |] eqn:E;
      [| discriminate].
    rewrite Forall_forall in Hrows.
    specialize (Hrows rows (nth_error_In _ _ E)).
    rewrite Forall_forall in Hrows. apply Hrows.
    apply (nth_error_In _ _ Hg). }
  set (plrow := lrow ++ repeat NInf (nctx - length lrow)).
  assert (Hpl : position ldata b a = Some plrow).
  { unfold ldata.
    apply (position_dense
             (fun row => row ++ repeat NInf (nctx - length row))
             _ _ _ _ _ Hl). }
  assert (Hpg : position gdata b a = Some grow).
  { unfold gdata.
    rewrite (position_dense
               (fun row => row ++ repeat NInf (size - length row))
               _ _ _ _ _ Hg).
    rewrite Hlen_g, Nat.sub_diag. simpl. rewrite app_nil_r. reflexivity. }
  pose proof (position_map2 GlobalArgumentPrediction.normalize_position
                _ _ _ _ _ _ Hpl Hpg) as Hpp.
  fold pairs in Hpp.
  assert (Hcnt_b : exists n, nth_error arg_cnts b = Some n /\ a < n).
  { unfold position in Hl.
    destruct (nth_error local_arguments_logits b) as [rows |] eqn:E;
      [| discriminate].
    exists (length rows). split.
    - unfold arg_cnts, row_lengths. rewrite nth_error_map, E. reflexivity.
    - apply nth_error_Some. congruence. }
  destruct Hcnt_b as [n [Hn Han]].
  assert (Bpl : Forall below_inf plrow).
  { unfold plrow. apply Forall_app. split.
    - apply (Forall_impl _ below_inf_finite Fl).
    - apply Forall_forall. intros x Hx. apply repeat_spec in Hx.
      subst x. exact I. }
  assert (Bg : Forall below_inf grow)
    by (apply (Forall_impl _ below_inf_finite Fg)).
  assert (Hgr : Forall (fun id => (0 <= id < Z.of_nat size)%Z) gids).
  { rewrite Forall_forall in Hrange. apply Hrange.
    apply (nth_error_In _ _ Hgb). }
  assert (Hgnd : NoDup gids).
  { rewrite Forall_forall in Hnd. apply Hnd. apply (nth_error_In _ _ Hgb). }
  assert (Hex : Exists finite (plrow ++ grow)).
  { apply Exists_app. right. destruct grow as [| x grow'];
      [simpl in Hlen_g; lia |].
    left. apply (Forall_inv Fg). }
  destruct (normalize_position_spec plrow grow Bpl Bg Hex)
    as [M [norm [_ [Hnp Hsum]]]].
  destruct (normalized_total_prob M norm plrow grow Bpl Bg Hsum)
    as [_ [_ Htot]].
  set (sh := fun x => fadd (fsub x (Fin M)) (Fin norm)) in *.
  assert (Hlm : length (map sh grow) = size)
    by (rewrite length_map; exact Hlen_g).
  assert (Hloc : total_prob (map sh plrow) = total_prob (map sh lrow)).
  { unfold plrow. rewrite map_app, total_prob_app.
    assert (Hz : total_prob (map sh (repeat NInf (nctx - length lrow)))
                 = 0%R) by apply shifted_ninf_no_prob.
    rewrite Hz. lra. }
  assert (Hfin : forall j, j < size ->
                   exists r, nth j (map sh grow) NInf = Fin r).
  { intros j Hj. rewrite Forall_forall in Fg.
    destruct (nth_error grow j) as [x |] eqn:E.
    - destruct (Fg x (nth_error_In _ _ E)) as [r ->].
      rewrite (nth_error_nth (map sh grow) j NInf (x := sh (Fin r)))
        by (rewrite nth_error_map, E; reflexivity).
      eexists. reflexivity.
    - apply nth_error_None in E. lia. }
  eexists _, _, (map sh lrow),
    (map (fun id => nth (Z.to_nat id) (map sh grow) NInf) gids).
  split; [reflexivity |].
  split; [| split; [| split; [| split; [| split; [| split; [| split]]]]]].
  - assert (Hpos : position (map (map fst) pairs) b a = Some (map sh plrow))
      by (rewrite (position_map fst _ _ _ _ Hpp), Hnp; reflexivity).
    transitivity (Some (firstn (length lids) (map sh plrow))).
    + exact (position_cut (fun ids row => firstn (length ids) row)
               (map (map fst) pairs) arg_cnts local_context_ids b a n
               (map sh plrow) lids Hpos Hlb Hn Han).
    + f_equal. unfold plrow. rewrite map_app, <- Hlen_l.
      rewrite <- (length_map sh lrow) at 1.
      apply firstn_length_app.
  - assert (Hpos : position (map (map snd) pairs) b a = Some (map sh grow))
      by (rewrite (position_map snd _ _ _ _ Hpp), Hnp; reflexivity).
    exact (position_cut
             (fun ids row => map (fun id => nth (Z.to_nat id) row NInf) ids)
             (map (map snd) pairs) arg_cnts global_context_ids b a n
             (map sh grow) gids Hpos Hgb Hn Han).
  - rewrite length_map. exact Hlen_l.
  - apply length_map.
  - apply Forall_app. split.
    + apply Forall_forall. intros y Hy. apply in_map_iff in Hy.
      destruct Hy as [x [<- Hx]]. rewrite Forall_forall in Fl.
      destruct (Fl x Hx) as [r ->]. eexists. reflexivity.
    + apply Forall_forall. intros y Hy. apply in_map_iff in Hy.
      destruct Hy as [id [<- Hid]].
      rewrite Forall_forall in Hgr. specialize (Hgr id Hid).
      apply Hfin. lia.
  - pose proof (total_prob_listed_le (map sh grow) gids Hgnd) as Hle.
    rewrite Hlm in Hle. specialize (Hle Hgr). lra.
  - intros Hall.
    rewrite (total_prob_listed (map sh grow) gids Hgnd);
      [lra | rewrite Hlm; exact Hgr |].
    intros j Hj Hout. rewrite Hlm in Hj. exfalso. apply Hout.
    apply Hall. exact Hj.
  - intros [j [Hj Hout]].
    (* the entry j is finite, hence of positive probability, and is not
       read *)
    destruct (Hfin j Hj) as [r Hr].
    set (v := map sh grow) in *.
    set (v' := map (fun x => if (snd x =? j) then NInf else fst x)
                   (combine v (seq 0 (length v)))).
    assert (Hv' : length v' = length v).
    { unfold v'. rewrite length_map, length_combine, length_seq. lia. }
    assert (Hnth : forall i, i < length v ->
              nth i v' NInf = if i =? j then NInf else nth i v NInf).
    { intros i Hi. unfold v'.
      assert (Hc : nth_error (combine v (seq 0 (length v))) i
                   = Some (nth i v NInf, i)).
      { apply nth_error_combine;
          [apply nth_error_nth'; exact Hi | apply nth_error_seq0; exact Hi]. }
      rewrite (nth_error_nth _ i NInf
                 (x := if i =? j then NInf else nth i v NInf))
        by (rewrite nth_error_map, Hc; reflexivity).
      reflexivity. }
    assert (Hsame : map (fun id => nth (Z.to_nat id) v NInf) gids
                    = map (fun id => nth (Z.to_nat id) v' NInf) gids).
    { apply map_ext_in. intros id Hid.
      rewrite Forall_forall in Hgr. specialize (Hgr id Hid).
      rewrite Hnth by lia.
      destruct (Z.to_nat id =? j) eqn:E; [| reflexivity].
      apply Nat.eqb_eq in E. exfalso. apply Hout. rewrite <- E.
      rewrite Z2Nat.id by lia. exact Hid. }
    assert (Hdrop : (total_prob v' + exp r = total_prob v)%R).
    { unfold v'. clear - Hj Hr Hlm.
      assert (Hgen : forall (w : list float) (s : nat),
                s <= j < s + length w ->
                nth (j - s) w NInf = Fin r ->
                (total_prob
                   (map (fun x : float * nat =>
                           if snd x =? j then NInf else fst x)
                        (combine w (seq s (length w))))
                 + exp r = total_prob w)%R).
      { induction w as [| x w IH]; intros s Hs Hx; [simpl in Hs; lia |].
        simpl length. simpl seq. simpl combine. simpl map.
        unfold total_prob in *. simpl.
        destruct (s =? j) eqn:E.
        - apply Nat.eqb_eq in E. subst s. rewrite Nat.sub_diag in Hx.
          simpl in Hx. subst x. simpl.
          assert (Hrest : map (fun x : float * nat =>
                                 if snd x =? j then NInf else fst x)
                              (combine w (seq (S j) (length w)))
                          = w).
          { clear. generalize (Nat.lt_succ_diag_r j). generalize (S j).
            induction w as [| y w IHw]; intros s Hs; [reflexivity |].
            simpl. replace (s =? j) with false
              by (symmetry; apply Nat.eqb_neq; lia).
            f_equal. apply IHw. lia. }
          rewrite Hrest. lra.
        - apply Nat.eqb_neq in E.
          assert (Hrec := IH (S s)).
          replace (j - s) with (S (j - S s)) in Hx by lia. simpl in Hx.
          specialize (Hrec ltac:(simpl in Hs; lia) Hx). lra. }
      apply (Hgen v 0); [lia | rewrite Nat.sub_0_r; exact Hr]. }
    pose proof (total_prob_listed_le v' gids Hgnd) as Hle.
    rewrite Hv', Hlm in Hle. specialize (Hle Hgr).
    rewrite Hsame. pose proof (exp_pos r). lra.
Qed.

Lemma train_model_outputs_without_mask_witness :
  exists new_local new_global olrow ogrow,
    GlobalArgumentPrediction.create_train_model_outputs false
      (mkGraphConstants 0 [] [10; 11]%Z) [[5%Z]] [[1%Z]]
      (row_lengths [[[Fin 0]]]) [[[Fin 0]]] [[[Fin 0; Fin 0]]]
    = ret (new_local, new_global)
    /\ position new_local 0 0 = Some olrow
    /\ position new_global 0 0 = Some ogrow
    /\ length olrow = length [5%Z]
    /\ length ogrow = length [1%Z]
    /\ Forall finite (olrow ++ ogrow)
    /\ (total_prob olrow + total_prob ogrow <= 1)%R
    /\ ((forall j, j < 2 -> In (Z.of_nat j) [1%Z]) ->
        (total_prob olrow + total_prob ogrow = 1)%R)
    /\ ((exists j, j < 2 /\ ~ In (Z.of_nat j) [1%Z]) ->
        (total_prob olrow + total_prob ogrow < 1)%R).
Proof.
  apply (train_model_outputs_without_mask
           (mkGraphConstants 0 [] [10; 11]%Z) [[5%Z]] [[1%Z]]
           [[[Fin 0]]] [[[Fin 0; Fin 0]]] 2 0 0 [5%Z] [1%Z]
           [Fin 0] [Fin 0; Fin 0]).
  - reflexivity.
  - reflexivity.
  - repeat constructor.
  - repeat constructor.
  - repeat constructor; simpl; lia.
  - repeat constructor; simpl; tauto.
  - reflexivity.
  - reflexivity.
  - reflexivity.
  - reflexivity.
  - repeat constructor; eexists; reflexivity.
  - repeat constructor; eexists; reflexivity.
  - lia.
Defined.

(** ** The metrics of the local argument model *)

Lemma reduce_min_gt (l : list Z) :
  (reduce_min l >? -1)%Z = true <-> Forall (fun x => (-1 < x)%Z) l.
Proof.
  unfold reduce_min. induction l as [| x l IH]; simpl.
  - split; [constructor | reflexivity].
  - rewrite Z.gtb_lt in *. split.
    + intros H. constructor; [lia |]. apply IH. lia.
    + intros H. inversion H as [| ? ? Hx Hl]; subst.
      apply IH in Hl. lia.
Qed.

Lemma forallb_eqb (l1 l2 : list Z) :
  length l1 = length l2 ->
  forallb (fun b : bool => b)
          (map (fun q => (fst q =? snd q)%Z) (combine l1 l2)) = true
  <-> l2 = l1.
Proof.
  revert l2. induction l1 as [| x l1 IH]; intros [| y l2] Hlen;
    simpl in *; try discriminate.
  - split; reflexivity.
  - rewrite andb_true_iff, Z.eqb_eq, (IH l2) by lia. split.
    + intros [-> ->]. reflexivity.
    + intros H. inversion H. split; reflexivity.
Qed.

Lemma Forall_padded (P : Z -> Prop) (labels : list Z) (k : nat) :
  P 0%Z -> (Forall P (labels ++ repeat 0%Z k) <-> Forall P labels).
Proof.
  intros H0. rewrite Forall_app. split; [tauto |].
  intros H. split; [exact H |].
  apply Forall_forall. intros x Hx. apply repeat_spec in Hx. subst x.
  exact H0.
Qed.

Lemma fmul_cast_cases (x y : bool) :
  fmul (cast_bool x) (cast_bool y) = Fin 1 /\ x = true /\ y = true
  \/ fmul (cast_bool x) (cast_bool y) = Fin 0 /\ (x = false \/ y = false).
Proof.
  destruct x, y; simpl;
    [left; repeat split; f_equal; lra
    | right | right | right];
    (split; [f_equal; lra | tauto]).
Qed.

(** X14: the sequence accuracy that [LocalArgumentModel.compute_metrics]
    feeds to its running mean is 0 or 1 for every example.  It is 1 exactly
    when no label of the example is [None] (-1) and, at every one of the
    max(num_arguments) positions of the dense tensors, the prediction (the
    arg-max of the logits, or 0 when the context axis is empty) equals the
    label padded with 0: the positions that pad the argument axis count
    too, and there the prediction has to be 0.  The strict accuracy is the
    sequence accuracy times the tactic accuracy. *)
Theorem local_sequence_accuracy_spec
  (tactic : list Z) (tactic_logits : list (list float))
  (local_arguments : list (list Z)) (local_arguments_logits : Dense3)
  (seqs stricts : list float) :
  LocalArgumentModel.compute_metrics tactic tactic_logits
    local_arguments local_arguments_logits
  = ret (seqs, stricts) ->
  length seqs = length local_arguments
  /\ length stricts = length local_arguments
  /\ forall b labels s,
       nth_error local_arguments b = Some labels ->
       nth_error seqs b = Some s ->
       let padded :=
         labels ++ repeat 0%Z (max_row_length local_arguments - length labels)
       in
       exists preds,
         (if 0 <? d_ctx local_arguments_logits
          then exists rows,
                 nth_error (d_data local_arguments_logits) b = Some rows
                 /\ mapM argmax rows = ret preds
          else preds = map (fun _ => 0%Z) padded)
         /\ (s = Fin 1 \/ s = Fin 0)
         /\ (s = Fin 1 <->
             Forall (fun l => (-1 < l)%Z) labels /\ preds = padded)
         /\ (In sentinel labels -> s = Fin 0)
         /\ exists y logits p,
              nth_error tactic b = Some y
              /\ nth_error tactic_logits b = Some logits
              /\ argmax logits = ret p
              /\ nth_error stricts b = Some (fmul s (cast_bool (p =? y)%Z)).
Proof.
  unfold LocalArgumentModel.compute_metrics. intros H.
  invert_bind H tacc H1. invert_bind H preds_all H2.
  invert_bind H equal H3. invert_bind H masked H4.
  invert_bind H strict H5. inversion H; subst masked strict. clear H.
  apply ragged_map2_inv in H3. destruct H3 as [Hshape Hequal].
  apply zipM_ret_inv in H4. destruct H4 as [Hlen4 Hseqs].
  apply zipM_ret_inv in H5. destruct H5 as [Hlen5 Hstricts].
  set (padded_all := to_tensor 0%Z local_arguments) in *.
  assert (Hpad : length padded_all = length local_arguments)
    by (unfold padded_all, to_tensor; apply length_map).
  assert (Hls : length seqs = length local_arguments).
  { rewrite Hseqs, length_map, length_combine, !length_map.
    unfold reduce_all. rewrite Hequal, !length_map, length_combine.
    rewrite <- (Forall2_length Hshape). lia. }
  split; [exact Hls |].
  split; [rewrite Hstricts, length_map, length_combine; lia |].
  intros b labels s Hb Hs.
  set (padded := labels ++ repeat 0%Z (max_row_length local_arguments
                                       - length labels)).
  assert (Hpb : nth_error padded_all b = Some padded).
  { unfold padded_all, to_tensor. rewrite nth_error_map, Hb. reflexivity. }
  destruct (Forall2_nth_error _ _ _ _ _ Hshape Hpb) as [preds [Hpreds Hlp]].
  exists preds.
  (* the value of the sequence accuracy *)
  assert (Hval : s = fmul (cast_bool (reduce_min padded >? -1)%Z)
                          (cast_bool
                             (forallb (fun c : bool => c)
                                (map (fun q => (fst q =? snd q)%Z)
                                     (combine padded preds))))).
  { rewrite Hseqs in Hs.
    rewrite (nth_error_map_combine _ _ _ _
               (cast_bool (reduce_min padded >? -1)%Z)
               (cast_bool
                  (forallb (fun c : bool => c)
                     (map (fun q => (fst q =? snd q)%Z)
                          (combine padded preds))))) in Hs.
    - inversion Hs. reflexivity.
    - rewrite nth_error_map, Hpb. reflexivity.
    - rewrite nth_error_map. unfold reduce_all. rewrite nth_error_map, Hequal.
      rewrite (nth_error_map_combine _ _ _ _ padded preds Hpb Hpreds).
      reflexivity. }
  assert (Hmask : (reduce_min padded >? -1)%Z = true
                  <-> Forall (fun l => (-1 < l)%Z) labels).
  { rewrite reduce_min_gt. unfold padded. apply Forall_padded. lia. }
  pose proof (forallb_eqb padded preds Hlp) as Heq.
  split; [| split; [| split; [| split]]].
  - unfold _local_arguments_pred in H2.
    destruct (0 <? d_ctx local_arguments_logits).
    + pose proof (mapM_length _ _ _ H2) as Hl.
      destruct (nth_error_same_length preds_all
                  (d_data local_arguments_logits) b preds Hl Hpreds)
        as [rows Hrows].
      destruct (mapM_nth _ _ _ H2 b rows Hrows) as [preds' [Hp' Hm]].
      rewrite Hpreds in Hp'. inversion Hp'; subst preds'.
      exists rows. split; assumption.
    + inversion H2; subst preds_all.
      rewrite nth_error_map, Hpb in Hpreds. inversion Hpreds. reflexivity.
  - rewrite Hval.
    destruct (fmul_cast_cases (reduce_min padded >? -1)%Z
                (forallb (fun c : bool => c)
                   (map (fun q => (fst q =? snd q)%Z)
                        (combine padded preds))))
      as [[H _] | [H _]]; [left | right]; exact H.
  - rewrite Hval. split.
    + intros H. apply fmul_cast_one in H. destruct H as [Hm He].
      split; [apply (proj1 Hmask Hm) | apply (proj1 Heq He)].
    + intros [Hm He]. rewrite (proj2 Hmask Hm), (proj2 Heq He).
      simpl. f_equal. lra.
  - intros Hin. rewrite Hval.
    destruct (reduce_min padded >? -1)%Z eqn:E.
    + exfalso. pose proof (proj1 Hmask eq_refl) as Hall.
      rewrite Forall_forall in Hall.
      specialize (Hall sentinel Hin). unfold sentinel in Hall. lia.
    + destruct (forallb _ _); simpl; f_equal; lra.
  - assert (Ht : exists t, nth_error tacc b = Some t).
    { apply (nth_error_same_length seqs tacc b s Hlen5 Hs). }
    destruct Ht as [t Ht].
    destruct (tactic_accuracy_at tactic tactic_logits tacc b t H1 Ht)
      as [y [logits [p [Hy [Hlog [Hp Htv]]]]]].
    exists y, logits, p. repeat split; try assumption.
    rewrite Hstricts, (nth_error_map_combine _ _ _ _ s t Hs Ht), Htv.
    reflexivity.
Qed.

Lemma local_sequence_accuracy_spec_witness :
  let tactic := [1%Z; 0%Z] in
  let tactic_logits := [[NInf; Fin 0]; [NInf; Fin 0]] in
  let local_arguments := [[1; 0]%Z; [1%Z]] in
  let local_arguments_logits :=
    mkDense3 2 2 [[[NInf; Fin 0]; [Fin 0; NInf]];
                  [[NInf; Fin 0]; [NInf; Fin 0]]] in
  let seqs := [Fin (1 * 1); Fin (1 * 0)] in
  let stricts := [Fin (1 * 1 * 1); Fin (1 * 0 * 0)] in
  length seqs = length local_arguments
  /\ length stricts = length local_arguments
  /\ forall b labels s,
       nth_error local_arguments b = Some labels ->
       nth_error seqs b = Some s ->
       let padded :=
         labels ++ repeat 0%Z (max_row_length local_arguments - length labels)
       in
       exists preds,
         (if 0 <? d_ctx local_arguments_logits
          then exists rows,
                 nth_error (d_data local_arguments_logits) b = Some rows
                 /\ mapM argmax rows = ret preds
          else preds = map (fun _ => 0%Z) padded)
         /\ (s = Fin 1 \/ s = Fin 0)
         /\ (s = Fin 1 <->
             Forall (fun l => (-1 < l)%Z) labels /\ preds = padded)
         /\ (In sentinel labels -> s = Fin 0)
         /\ exists y logits p,
              nth_error tactic b = Some y
              /\ nth_error tactic_logits b = Some logits
              /\ argmax logits = ret p
              /\ nth_error stricts b = Some (fmul s (cast_bool (p =? y)%Z)).
Proof.
  intros tactic tactic_logits local_arguments local_arguments_logits
         seqs stricts.
  apply (local_sequence_accuracy_spec tactic tactic_logits local_arguments
           local_arguments_logits seqs stricts).
  reflexivity.
Defined.

(** An example whose only argument is predicted correctly is counted as
    wrong when the arg-max at a position that pads its argument axis is
    not 0: here the second example has one argument, the batch two
    positions. *)
Example padded_position_counts :
  LocalArgumentModel.compute_metrics
    [1%Z; 0%Z] [[NInf; Fin 0]; [NInf; Fin 0]]
    [[1; 0]%Z; [1%Z]]
    (mkDense3 2 2 [[[NInf; Fin 0]; [Fin 0; NInf]];
                   [[NInf; Fin 0]; [NInf; Fin 0]]])
  = ret ([Fin (1 * 1); Fin (1 * 0)], [Fin (1 * 1 * 1); Fin (1 * 0 * 0)]).
Proof. reflexivity. Qed.

(** ** The loss and the mask of the definition task *)

Lemma sum_of_squares (row : list float) :
  Forall finite row ->
  exists r, reduce_sum (map (fun x => fmul x x) row) = Fin r
            /\ (0 <= r)%R
            /\ (r = 0%R <-> Forall (fun x => x = Fin 0) row).
Proof.
  unfold reduce_sum.
  induction 1 as [| x row [a ->] _ [r [Hr [Hpos Hzero]]]]; simpl.
  - exists 0%R. split; [reflexivity |]. split; [lra |].
    split; [constructor | reflexivity].
  - rewrite Hr. simpl. exists (a * a + r)%R. split; [reflexivity |].
    split; [nra |]. split.
    + intros H. assert (a = 0%R) by nra. assert (r = 0%R) by nra.
      constructor; [subst a; reflexivity | apply Hzero; assumption].
    + intros H. inversion H as [| ? ? Ha Hrow]; subst.
      inversion Ha; subst a. apply Hzero in Hrow. subst r. lra.
Qed.

(** X15: for finite predictions the loss of [DefinitionNormSquaredLoss] is
    a finite number that is never negative, one per row, and it is 0 for
    a row exactly when every component of the row is 0; the labels are not
    read. *)
Theorem norm_squared_loss_nonnegative (y_true y_pred : list (list float)) :
  Forall (Forall finite) y_pred ->
  length (DefinitionNormSquaredLoss.call y_true y_pred) = length y_pred
  /\ (forall y_true', DefinitionNormSquaredLoss.call y_true' y_pred
                      = DefinitionNormSquaredLoss.call y_true y_pred)
  /\ forall b row,
       nth_error y_pred b = Some row ->
       exists r,
         nth_error (DefinitionNormSquaredLoss.call y_true y_pred) b
         = Some (Fin r)
         /\ (0 <= r)%R
         /\ (r = 0%R <-> Forall (fun x => x = Fin 0) row).
Proof.
  intros Hfin. unfold DefinitionNormSquaredLoss.call.
  split; [apply length_map |]. split; [reflexivity |].
  intros b row Hb. rewrite Forall_forall in Hfin.
  destruct (sum_of_squares row (Hfin row (nth_error_In _ _ Hb)))
    as [r [Hr Hprop]].
  exists r. split; [| exact Hprop].
  rewrite nth_error_map, Hb. simpl. rewrite Hr. reflexivity.
Qed.

Lemma norm_squared_loss_nonnegative_witness :
  length (DefinitionNormSquaredLoss.call [[Fin 7]] [[Fin 3; Fin 4]; [Fin 0]])
  = 2
  /\ exists r,
       nth_error
         (DefinitionNormSquaredLoss.call [[Fin 7]] [[Fin 3; Fin 4]; [Fin 0]]) 1
       = Some (Fin r)
       /\ (0 <= r)%R
       /\ (r = 0%R <-> Forall (fun x => x = Fin 0) [Fin 0]).
Proof.
  destruct (norm_squared_loss_nonnegative [[Fin 7]] [[Fin 3; Fin 4]; [Fin 0]])
    as [Hlen [_ Hrows]].
  - repeat constructor; eexists; reflexivity.
  - split; [exact Hlen |]. apply (Hrows 1 [Fin 0]). reflexivity.
Defined.

Lemma nth_error_concat {A} (rows : list (list A)) :
  forall c j row,
    nth_error rows c = Some row -> j < length row ->
    nth_error (concat rows)
              (list_sum (map (@length A) (firstn c rows)) + j)
    = nth_error row j.
Proof.
  induction rows as [| r rows IH]; intros c j row Hc Hj.
  - destruct c; discriminate.
  - destruct c as [| c]; simpl in *.
    + inversion Hc; subst r. apply nth_error_app1. exact Hj.
    + rewrite nth_error_app2 by lia.
      replace (length r + list_sum (map (@length A) (firstn c rows)) + j
               - length r)
        with (list_sum (map (@length A) (firstn c rows)) + j) by lia.
      apply IH; assumption.
Qed.

Lemma offset_within (sizes : list nat) :
  forall c n, nth_error sizes c = Some n ->
              list_sum (firstn c sizes) + n <= list_sum sizes.
Proof.
  induction sizes as [| s sizes IH]; intros c n Hc.
  - destruct c; discriminate.
  - destruct c as [| c]; simpl in *.
    + inversion Hc; subst. lia.
    + specialize (IH c n Hc). lia.
Qed.

(** The mask of [_mask_defined_embeddings]: 0 at the first
    [num_definitions] nodes of every graph and 1 at its other nodes. *)
Lemma defined_mask_at (sizes : list nat) (num_definitions : list Z)
  (c n j : nat) (k : Z) :
  length num_definitions = length sizes ->
  nth_error sizes c = Some n -> nth_error num_definitions c = Some k ->
  j < n ->
  nth_error
    (map (fun b => fsub (Fin 1) (cast_bool b))
         (concat (map (fun p : list Z * Z => map (fun i => (i <? snd p)%Z) (fst p))
                      (combine (map (fun n => map Z.of_nat (seq 0 n)) sizes)
                               num_definitions))))
    (list_sum (firstn c sizes) + j)
  = Some (fsub (Fin 1) (cast_bool (Z.of_nat j <? k)%Z)).
Proof.
  intros Hlen Hn Hk Hj.
  set (rows := map (fun p : list Z * Z => map (fun i => (i <? snd p)%Z) (fst p))
                   (combine (map (fun n => map Z.of_nat (seq 0 n)) sizes)
                            num_definitions)).
  assert (Hrow : nth_error rows c
                 = Some (map (fun i => (i <? k)%Z) (map Z.of_nat (seq 0 n)))).
  { unfold rows.
    rewrite (nth_error_map_combine _ _ _ _ (map Z.of_nat (seq 0 n)) k);
      [reflexivity | rewrite nth_error_map, Hn; reflexivity | exact Hk]. }
  assert (Hlens : map (@length bool) (firstn c rows) = firstn c sizes).
  { unfold rows. rewrite <- firstn_map, map_map.
    erewrite map_ext; [| intros p; rewrite length_map; reflexivity].
    rewrite <- (map_map fst (@length Z)), map_fst_combine_eq
      by (rewrite length_map; symmetry; exact Hlen).
    rewrite map_map.
    erewrite map_ext;
      [| intros m; rewrite length_map, length_seq; reflexivity].
    rewrite map_id. reflexivity. }
  rewrite nth_error_map, <- Hlens.
  rewrite (nth_error_concat rows c j _ Hrow)
    by (rewrite !length_map, length_seq; exact Hj).
  rewrite !nth_error_map, (nth_error_seq0 n j Hj). reflexivity.
Qed.

Lemma cast_int32_small (z : Z) :
  (-2147483648 <= z < 2147483648)%Z -> cast_int32 z = z.
Proof.
  intros H. unfold cast_int32. rewrite Z.mod_small by lia. lia.
Qed.

(** X16: [_mask_defined_embeddings] sets to zero the embedded state of
    the first [num_definitions] nodes of every definition graph, the nodes
    being defined, and leaves the state of every other node as it is; the
    number of nodes does not change.  The count of a graph is cast to
    int32 before it is compared: a count within the range of int32 is used
    as it is, any other one by its 32 low bits.  The states are finite, the
    hidden states hold one row per node and the counts one entry per
    graph. *)
Theorem mask_defined_embeddings_spec (sizes : list nat)
  (num_definitions : list Z) (hidden_state : list (list float)) :
  length num_definitions = length sizes ->
  length hidden_state = list_sum sizes ->
  Forall (Forall finite) hidden_state ->
  exists out,
    DefinitionTask._mask_defined_embeddings sizes num_definitions hidden_state
    = ret out
    /\ length out = length hidden_state
    /\ forall c n k j row,
         nth_error sizes c = Some n -> nth_error num_definitions c = Some k ->
         j < n ->
         nth_error hidden_state (list_sum (firstn c sizes) + j) = Some row ->
         nth_error out (list_sum (firstn c sizes) + j)
         = Some (if (Z.of_nat j <? cast_int32 k)%Z
                 then repeat (Fin 0) (length row) else row)
         /\ ((-2147483648 <= k < 2147483648)%Z ->
             nth_error out (list_sum (firstn c sizes) + j)
             = Some (if (Z.of_nat j <? k)%Z
                     then repeat (Fin 0) (length row) else row)).
Proof.
  intros Hlen Hh Hfin.
  unfold DefinitionTask._mask_defined_embeddings.
  rewrite zipM_ret by (rewrite !length_map; symmetry; exact Hlen).
  rewrite bind_ret.
  set (mask := map (fun b => fsub (Fin 1) (cast_bool b)) _).
  assert (Hm : length mask = length hidden_state).
  { unfold mask, values. rewrite length_map, Hh. clear - Hlen.
    revert num_definitions Hlen. induction sizes as [| n sizes IH];
      intros [| k ks] Hlen; simpl in *; try discriminate; [reflexivity |].
    rewrite length_app, !length_map, length_seq, IH by lia. reflexivity. }
  rewrite zipM_ret by (symmetry; exact Hm).
  eexists. split; [reflexivity |].
  split; [rewrite length_map, length_combine; lia |].
  intros c n k j row Hn Hk Hj Hrow.
  assert (Hcell :
    nth_error
      (map (fun p : list float * float => map (fun x => fmul x (snd p)) (fst p))
           (combine hidden_state mask))
      (list_sum (firstn c sizes) + j)
    = Some (if (Z.of_nat j <? cast_int32 k)%Z
            then repeat (Fin 0) (length row) else row)).
  { rewrite (nth_error_map_combine _ _ _ _ row
               (fsub (Fin 1) (cast_bool (Z.of_nat j <? cast_int32 k)%Z)) Hrow).
    - simpl fst. simpl snd. f_equal.
      rewrite Forall_forall in Hfin.
      specialize (Hfin row (nth_error_In _ _ Hrow)).
      destruct (Z.of_nat j <? cast_int32 k)%Z; simpl.
      + rewrite <- map_const_repeat. apply map_ext_in. intros x Hx.
        rewrite Forall_forall in Hfin. destruct (Hfin x Hx) as [r ->].
        simpl. f_equal. lra.
      + rewrite <- (map_id row) at 2. apply map_ext_in. intros x Hx.
        rewrite Forall_forall in Hfin. destruct (Hfin x Hx) as [r ->].
        simpl. f_equal. lra.
    - unfold mask, values.
      apply (defined_mask_at sizes (map cast_int32 num_definitions)
               c n j (cast_int32 k));
        [rewrite length_map; exact Hlen | exact Hn
        | rewrite nth_error_map, Hk; reflexivity | exact Hj]. }
  split; [exact Hcell |].
  intros Hrange. rewrite Hcell, (cast_int32_small k Hrange). reflexivity.
Qed.

Lemma mask_defined_embeddings_spec_witness :
  exists out,
    DefinitionTask._mask_defined_embeddings [2; 1] [1; 2147483648]%Z
      [[Fin 1]; [Fin 2]; [Fin 3]]
    = ret out
    /\ length out = 3
    /\ nth_error out 0 = Some [Fin 0]
    /\ nth_error out 1 = Some [Fin 2]
    /\ nth_error out 2 = Some [Fin 3].
Proof.
  destruct (mask_defined_embeddings_spec [2; 1] [1; 2147483648]%Z
              [[Fin 1]; [Fin 2]; [Fin 3]])
    as [out [Hout [Hlen Hrows]]].
  - reflexivity.
  - reflexivity.
  - repeat constructor; eexists; reflexivity.
  - exists out. split; [exact Hout |]. split; [exact Hlen |].
    split; [| split].
    + destruct (Hrows 0 2 1%Z 0 [Fin 1] eq_refl eq_refl) as [H _];
        [lia | reflexivity | exact H].
    + destruct (Hrows 0 2 1%Z 1 [Fin 2] eq_refl eq_refl) as [H _];
        [lia | reflexivity | exact H].
    + destruct (Hrows 1 1 2147483648%Z 0 [Fin 3] eq_refl eq_refl) as [H _];
        [lia | reflexivity | exact H].
Defined.

(** ** The hidden states of the local context *)

Lemma nth_error_cumsum (l : list nat) :
  forall (acc : Z) (c n : nat),
    nth_error l c = Some n ->
    nth_error (cumsum_exclusive_from acc (map Z.of_nat l)) c
    = Some (acc + Z.of_nat (list_sum (firstn c l)))%Z.
Proof.
  induction l as [| x l IH]; intros acc c n Hc.
  - destruct c; discriminate.
  - destruct c as [| c]; simpl.
    + f_equal. lia.
    + rewrite (IH _ c n Hc). f_equal. lia.
Qed.

Lemma length_cumsum (l : list Z) :
  forall acc, length (cumsum_exclusive_from acc l) = length l.
Proof.
  induction l as [| x l IH]; intros acc; simpl; [reflexivity |].
  rewrite IH. reflexivity.
Qed.

Lemma nth_error_split_rows {A} (sizes : list nat) :
  forall (flat : list A) c n j,
    nth_error sizes c = Some n -> j < n ->
    position (split_rows sizes flat) c j
    = nth_error flat (list_sum (firstn c sizes) + j).
Proof.
  unfold position.
  induction sizes as [| s sizes IH]; intros flat c n j Hc Hj.
  - destruct c; discriminate.
  - destruct c as [| c]; simpl in *.
    + inversion Hc; subst s. apply nth_error_firstn_lt. exact Hj.
    + rewrite (IH (skipn s flat) c n j Hc Hj), nth_error_skipn.
      f_equal. lia.
Qed.

(** X17: [_local_context_hidden] returns, for every local context id of
    an example, the hidden state of the node with that id in the example's
    own graph: the ids of the example are shifted by the number of nodes of
    the graphs before it.  The ids are within the node counts and the
    hidden states hold one row per node. *)
Theorem local_context_hidden_reads_own_graph (sizes : list nat)
  (local_context_ids : list (list Z)) (hidden_state : list (list float)) :
  length hidden_state = list_sum sizes ->
  Forall2 (fun ids n => Forall (fun id => (0 <= id < Z.of_nat n)%Z) ids)
          local_context_ids sizes ->
  exists out,
    LocalArgumentPrediction._local_context_hidden
      sizes local_context_ids hidden_state
    = ret out
    /\ length out = length local_context_ids
    /\ forall c ids i id,
         nth_error local_context_ids c = Some ids ->
         nth_error ids i = Some id ->
         exists state,
           position out c i = Some state
           /\ position (split_rows sizes hidden_state) c (Z.to_nat id)
              = Some state.
Proof.
  intros Hh Hids. pose proof (Forall2_length Hids) as Hlen.
  unfold LocalArgumentPrediction._local_context_hidden.
  rewrite zipM_ret
    by (unfold cumsum_exclusive; rewrite length_cumsum, length_map;
        symmetry; exact Hlen).
  rewrite bind_ret.
  set (shifted :=
    map (fun p : Z * list Z => map (fun i => (fst p + i)%Z) (snd p))
        (combine (cumsum_exclusive (map Z.of_nat sizes)) local_context_ids)).
  assert (Hshift : forall c ids n,
            nth_error local_context_ids c = Some ids ->
            nth_error sizes c = Some n ->
            nth_error shifted c
            = Some (map (fun i => (Z.of_nat (list_sum (firstn c sizes)) + i)%Z)
                        ids)).
  { intros c ids n Hc Hn. unfold shifted.
    rewrite (nth_error_map_combine _ _ _ _
               (Z.of_nat (list_sum (firstn c sizes))) ids);
      [reflexivity | | exact Hc].
    unfold cumsum_exclusive. rewrite (nth_error_cumsum sizes 0 c n Hn).
    f_equal. }
  assert (Hok : forall c ids n id,
            nth_error local_context_ids c = Some ids ->
            nth_error sizes c = Some n -> In id ids ->
            exists state,
              lookup hidden_state
                     (Z.of_nat (list_sum (firstn c sizes)) + id)%Z
              = ret state
              /\ position (split_rows sizes hidden_state) c (Z.to_nat id)
                 = Some state).
  { intros c ids n id Hc Hn Hin.
    destruct (Forall2_nth_error _ _ _ _ _ Hids Hc) as [n' [Hn' Hr]].
    rewrite Hn in Hn'. inversion Hn'; subst n'.
    rewrite Forall_forall in Hr. specialize (Hr id Hin).
    pose proof (offset_within sizes c n Hn) as Hoff.
    rewrite (nth_error_split_rows sizes hidden_state c n (Z.to_nat id) Hn)
      by lia.
    unfold lookup.
    replace (Z.of_nat (list_sum (firstn c sizes)) + id <? 0)%Z with false
      by (symmetry; apply Z.ltb_ge; lia).
    replace (Z.to_nat (Z.of_nat (list_sum (firstn c sizes)) + id))
      with (list_sum (firstn c sizes) + Z.to_nat id) by lia.
    destruct (nth_error hidden_state
                (list_sum (firstn c sizes) + Z.to_nat id)) as [state |] eqn:E.
    - exists state. split; reflexivity.
    - apply nth_error_None in E. lia. }
  destruct (mapM_exists (mapM (lookup hidden_state))
              (fun (row : list Z) (states : list (list float)) =>
                 mapM (lookup hidden_state) row = ret states)
              shifted) as [out [Hout Prs]].
  { intros row Hrow. apply In_nth_error in Hrow. destruct Hrow as [c Hc].
    assert (Hc' : exists ids, nth_error local_context_ids c = Some ids).
    { apply (nth_error_same_length shifted local_context_ids c row);
        [| exact Hc].
      unfold shifted, cumsum_exclusive.
      rewrite length_map, length_combine, length_cumsum, length_map. lia. }
    destruct Hc' as [ids Hids'].
    destruct (nth_error_same_length _ sizes c ids Hlen Hids') as [n Hn].
    rewrite (Hshift c ids n Hids' Hn) in Hc. inversion Hc; subst row.
    destruct (mapM_exists (lookup hidden_state) (fun _ _ => True)
                (map (fun i => (Z.of_nat (list_sum (firstn c sizes)) + i)%Z)
                     ids)) as [states [Hstates _]].
    - intros z Hz. apply in_map_iff in Hz. destruct Hz as [id [<- Hid]].
      destruct (Hok c ids n id Hids' Hn Hid) as [state [Hs _]].
      exists state. split; [exact Hs | exact I].
    - exists states. split; exact Hstates. }
  exists out. split; [exact Hout |].
  pose proof (mapM_length _ _ _ Hout) as Hlo.
  split.
  { rewrite Hlo. unfold shifted, cumsum_exclusive.
    rewrite length_map, length_combine, length_cumsum, length_map. lia. }
  intros c ids i id Hc Hi.
  destruct (nth_error_same_length _ sizes c ids Hlen Hc) as [n Hn].
  destruct (Hok c ids n id Hc Hn (nth_error_In _ _ Hi)) as [state [Hs Hp]].
  exists state. split; [| exact Hp].
  destruct (mapM_nth _ _ _ Hout c _ (Hshift c ids n Hc Hn))
    as [states [Hstates Hrow]].
  unfold position. rewrite Hstates.
  destruct (mapM_nth _ _ _ Hrow i (Z.of_nat (list_sum (firstn c sizes)) + id)%Z)
    as [state' [Hstate' Hl]].
  { rewrite nth_error_map, Hi. reflexivity. }
  rewrite Hstate'. rewrite Hs in Hl. unfold ret in Hl.
  inversion Hl. reflexivity.
Qed.

Lemma local_context_hidden_reads_own_graph_witness :
  exists out,
    LocalArgumentPrediction._local_context_hidden [2; 1] [[1%Z]; [0%Z]]
      [[Fin 1]; [Fin 2]; [Fin 3]]
    = ret out
    /\ length out = 2
    /\ position out 0 0 = Some [Fin 2]
    /\ position out 1 0 = Some [Fin 3].
Proof.
  destruct (local_context_hidden_reads_own_graph [2; 1] [[1%Z]; [0%Z]]
              [[Fin 1]; [Fin 2]; [Fin 3]])
    as [out [Hout [Hlen Hpos]]].
  - reflexivity.
  - repeat constructor; simpl; lia.
  - exists out. split; [exact Hout |]. split; [exact Hlen |]. split.
    + destruct (Hpos 0 [1%Z] 0 1%Z eq_refl eq_refl) as [state [Hs Hp]].
      rewrite Hs. rewrite <- Hp. reflexivity.
    + destruct (Hpos 1 [0%Z] 0 0%Z eq_refl eq_refl) as [state [Hs Hp]].
      rewrite Hs. rewrite <- Hp. reflexivity.
Defined.

(** ** Cosine similarity of queries and keys *)

Lemma finite_row (row : list float) :
  Forall finite row -> exists l : list R, row = map Fin l.
Proof.
  induction 1 as [| x row [r ->] _ [l ->]].
  - exists []. reflexivity.
  - exists (r :: l). reflexivity.
Qed.

Lemma reduce_sum_fin (l : list R) :
  reduce_sum (map Fin l) = Fin (fold_right Rplus 0%R l).
Proof.
  unfold reduce_sum. induction l as [| v l IH]; [reflexivity |].
  simpl. rewrite IH. reflexivity.
Qed.

Lemma squares_nonneg (l : list R) :
  (0 <= fold_right Rplus 0 (map (fun v => v * v) l))%R.
Proof.
  induction l as [| v l IH]; simpl; [lra | nra].
Qed.

Lemma squares_scaled (c : R) (l : list R) :
  fold_right Rplus 0%R (map (fun v => (v * c) * (v * c))%R l)
  = (fold_right Rplus 0 (map (fun v => v * v) l) * (c * c))%R.
Proof.
  induction l as [| v l IH]; simpl; [lra |]. rewrite IH. ring.
Qed.

Lemma normalize_row (l : list R) :
  exists u : list R,
    map (fun v => divide_no_nan v
                    (fsqrt (reduce_sum (map (fun v => fmul v v) (map Fin l)))))
        (map Fin l)
    = map Fin u
    /\ (fold_right Rplus 0 (map (fun v => v * v) u) <= 1)%R.
Proof.
  assert (Hsq : map (fun v => fmul v v) (map Fin l)
                = map Fin (map (fun v => (v * v)%R) l))
    by (rewrite !map_map; reflexivity).
  rewrite Hsq, reduce_sum_fin.
  set (S := fold_right Rplus 0%R (map (fun v => (v * v)%R) l)).
  pose proof (squares_nonneg l) as HS. fold S in HS.
  unfold fsqrt. destruct (Rlt_dec S 0) as [Hneg | _]; [lra |].
  unfold divide_no_nan. destruct (Req_dec_T (sqrt S) 0) as [Hz | Hnz].
  - exists (map (fun _ => 0%R) l). split.
    + rewrite !map_map. reflexivity.
    + rewrite map_map.
      assert (H0 : fold_right Rplus 0%R (map (fun _ : R => (0 * 0)%R) l) = 0%R).
      { clear. induction l as [| v l IH]; simpl; [reflexivity |].
        rewrite IH. ring. }
      rewrite H0. lra.
  - exists (map (fun v => (v * / sqrt S)%R) l). split.
    + rewrite !map_map. apply map_ext. intros v. unfold fdiv.
      destruct (Req_dec_T (sqrt S) 0) as [Hz | _]; [contradiction |].
      reflexivity.
    + rewrite map_map, squares_scaled. fold S.
      rewrite <- Rinv_mult, sqrt_sqrt by exact HS.
      assert (HS0 : S <> 0%R) by (intros ->; apply Hnz, sqrt_0).
      rewrite Rinv_r by exact HS0. lra.
Qed.

Lemma dot_fin (a b : list R) :
  exists r : R,
    dot (map Fin a) (map Fin b) = Fin r
    /\ (2 * Rabs r <= fold_right Rplus 0 (map (fun v => v * v) a)
                      + fold_right Rplus 0 (map (fun v => v * v) b))%R.
Proof.
  unfold dot. revert b. induction a as [| x a IH]; intros b.
  - exists 0%R. split; [reflexivity |].
    pose proof (squares_nonneg b). simpl. rewrite Rabs_R0. lra.
  - destruct b as [| y b].
    + exists 0%R. split; [reflexivity |].
      pose proof (squares_nonneg (x :: a)). simpl in *. rewrite Rabs_R0. lra.
    + destruct (IH b) as [r [Hr Hb]]. exists (x * y + r)%R. split.
      * simpl. unfold reduce_sum in Hr |- *. simpl. rewrite Hr. reflexivity.
      * simpl. pose proof (Rabs_triang (x * y) r) as Ht.
        assert (Hxy : (2 * Rabs (x * y) <= x * x + y * y)%R).
        { pose proof (Rle_0_sqr (x - y)) as Hm.
          pose proof (Rle_0_sqr (x + y)) as Hp. unfold Rsqr in Hm, Hp.
          unfold Rabs. destruct (Rcase_abs (x * y)); lra. }
        lra.
Qed.

Lemma normalize_ragged_rows (rt : list (list (list float))) :
  QueryKeyMulGlobal.normalize_ragged rt
  = ret (map QueryKeyMulGlobal.normalize_tensor rt).
Proof.
  unfold QueryKeyMulGlobal.normalize_ragged, values.
  assert (H : QueryKeyMulGlobal.normalize_tensor (concat rt)
              = concat (map QueryKeyMulGlobal.normalize_tensor rt)).
  { unfold QueryKeyMulGlobal.normalize_tensor. rewrite concat_map.
    reflexivity. }
  rewrite H. apply with_values_rows.
  unfold row_lengths. rewrite map_map. apply map_ext. intros rows.
  unfold QueryKeyMulGlobal.normalize_tensor. apply length_map.
Qed.

Lemma cosine_entry (t : R) (q k : list float) :
  t <> 0%R -> Forall finite q -> Forall finite k ->
  exists r : R,
    fdiv (dot ((fun row =>
                  map (fun v => divide_no_nan v
                     (fsqrt (reduce_sum (map (fun v => fmul v v) row)))) row) q)
              ((fun row =>
                  map (fun v => divide_no_nan v
                     (fsqrt (reduce_sum (map (fun v => fmul v v) row)))) row) k))
         (Fin t)
    = Fin r
    /\ (Rabs (r * t) <= 1)%R.
Proof.
  intros Ht Hq Hk.
  destruct (finite_row q Hq) as [a ->]. destruct (finite_row k Hk) as [b ->].
  destruct (normalize_row a) as [u [Hu Hsu]].
  destruct (normalize_row b) as [w [Hw Hsw]].
  cbv beta. rewrite Hu, Hw.
  destruct (dot_fin u w) as [r [Hr Hb]]. rewrite Hr.
  exists (r / t)%R. split.
  - unfold fdiv. destruct (Req_dec_T t 0) as [Hz | _]; [contradiction |].
    reflexivity.
  - replace (r / t * t)%R with r by (field; exact Ht). lra.
Qed.

(** A vector of zeros is normalized to a vector of zeros: the division by
    its norm, which is 0, gives 0. *)
Lemma normalize_zero_row (q : list float) :
  Forall (fun v => v = Fin 0) q ->
  map (fun v => divide_no_nan v
                  (fsqrt (reduce_sum (map (fun v => fmul v v) q)))) q
  = map (fun _ => Fin 0) q.
Proof.
  intros Hz.
  assert (Hfin : Forall finite q).
  { apply (Forall_impl _ (fun v (H : v = Fin 0) => ex_intro _ 0%R H) Hz). }
  destruct (sum_of_squares q Hfin) as [r [Hr [_ Hzero]]].
  rewrite Hr. apply (proj2 Hzero) in Hz. subst r.
  unfold fsqrt. destruct (Rlt_dec 0 0) as [H | _]; [lra |].
  unfold divide_no_nan. rewrite sqrt_0.
  destruct (Req_dec_T 0 0) as [_ | H]; [reflexivity | contradiction].
Qed.

Lemma dot_zero_l (q : list float) (w : list R) :
  dot (map (fun _ => Fin 0) q) (map Fin w) = Fin 0.
Proof.
  unfold dot, reduce_sum. revert w.
  induction q as [| v q IH]; intros [| y w]; simpl; try reflexivity.
  rewrite IH. simpl. f_equal. ring.
Qed.

Lemma cosine_zero_entry (t : R) (q k : list float) :
  t <> 0%R -> Forall finite q -> Forall finite k ->
  Forall (fun v => v = Fin 0) q \/ Forall (fun v => v = Fin 0) k ->
  fdiv (dot ((fun row =>
                map (fun v => divide_no_nan v
                   (fsqrt (reduce_sum (map (fun v => fmul v v) row)))) row) q)
            ((fun row =>
                map (fun v => divide_no_nan v
                   (fsqrt (reduce_sum (map (fun v => fmul v v) row)))) row) k))
       (Fin t)
  = Fin 0.
Proof.
  intros Ht Hq Hk Hz. cbv beta.
  assert (Hdot :
    dot (map (fun v => divide_no_nan v
                (fsqrt (reduce_sum (map (fun v => fmul v v) q)))) q)
        (map (fun v => divide_no_nan v
                (fsqrt (reduce_sum (map (fun v => fmul v v) k)))) k)
    = Fin 0).
  { destruct Hz as [Hz | Hz].
    - destruct (finite_row k Hk) as [bk Ek].
      destruct (normalize_row bk) as [w [Hw _]]. rewrite <- Ek in Hw.
      rewrite (normalize_zero_row q Hz), Hw. apply dot_zero_l.
    - destruct (finite_row q Hq) as [aq Eq].
      destruct (normalize_row aq) as [u [Hu _]]. rewrite <- Eq in Hu.
      rewrite dot_comm.
      rewrite (normalize_zero_row k Hz), Hu. apply dot_zero_l. }
  rewrite Hdot. unfold fdiv.
  destruct (Req_dec_T t 0) as [H0 | _]; [contradiction |].
  f_equal. unfold Rdiv. ring.
Qed.

(** [QueryKeyMulGlobal.call] with cosine similarity, in closed form. *)
Lemma cosine_logits_eq (t : float) (hdim : nat)
  (queries keys : list (list (list float))) :
  length queries = length keys ->
  QueryKeyMulGlobal.call true t hdim queries keys
  = ret (map (fun p =>
                map (fun q => map (fun k => fdiv (dot q k) t)
                                  (QueryKeyMulGlobal.normalize_tensor (snd p)))
                    (QueryKeyMulGlobal.normalize_tensor (fst p)))
             (combine queries keys)).
Proof.
  intros Hlen. unfold QueryKeyMulGlobal.call.
  rewrite !normalize_ragged_rows, !bind_ret.
  unfold QueryKeyMul.call. cbn [QueryKeyMul.method]. simpl String.eqb.
  cbv iota.
  rewrite mul_broadcast_ragged_spec by (rewrite !length_map; exact Hlen).
  rewrite bind_ret. f_equal. unfold spec_logits.
  assert (Hcomb : combine (map QueryKeyMulGlobal.normalize_tensor queries)
                          (map QueryKeyMulGlobal.normalize_tensor keys)
                  = map (fun p => (QueryKeyMulGlobal.normalize_tensor (fst p),
                                   QueryKeyMulGlobal.normalize_tensor (snd p)))
                        (combine queries keys)).
  { clear. revert keys. induction queries as [| q queries IH];
      intros [| k keys]; simpl; try reflexivity. rewrite IH. reflexivity. }
  rewrite Hcomb, !map_map. cbn [fst snd].
  apply map_ext. intros [qs ks]. cbn [fst snd]. rewrite map_map.
  apply map_ext. intros q. rewrite map_map. reflexivity.
Qed.

(** X18: with cosine similarity, [QueryKeyMulGlobal.call] returns one logit
    for every query and every key of the same example, and every logit is a
    real number between [-1/temp] and [1/temp]: a query or a key that is
    the zero vector gives the logit 0, never NaN.  The temperature is a
    non-zero real number, the vectors hold real numbers, and queries and
    keys have the same number of examples. *)
Theorem cosine_logits_are_bounded (t : R) (hdim : nat)
  (queries keys : list (list (list float))) :
  t <> 0%R ->
  length queries = length keys ->
  Forall (Forall (Forall finite)) queries ->
  Forall (Forall (Forall finite)) keys ->
  exists logits,
    QueryKeyMulGlobal.call true (Fin t) hdim queries keys = ret logits
    /\ map (map (@length float)) logits
       = map (fun p => map (fun _ => length (snd p)) (fst p))
             (combine queries keys)
    /\ Forall (Forall (Forall (fun x =>
         exists r : R, x = Fin r /\ (Rabs (r * t) <= 1)%R))) logits
    /\ forall b a c qs ks q k,
         nth_error queries b = Some qs -> nth_error keys b = Some ks ->
         nth_error qs a = Some q -> nth_error ks c = Some k ->
         exists row x,
           position logits b a = Some row
           /\ nth_error row c = Some x
           /\ (exists r : R, x = Fin r /\ (Rabs (r * t) <= 1)%R)
           /\ (Forall (fun v => v = Fin 0) q \/ Forall (fun v => v = Fin 0) k ->
               x = Fin 0).
Proof.
  intros Ht Hlen Hq Hk.
  rewrite (cosine_logits_eq (Fin t) hdim queries keys Hlen).
  eexists. split; [reflexivity |]. split; [| split].
  - rewrite map_map. apply map_ext. intros [qs ks]. cbn [fst snd].
    unfold QueryKeyMulGlobal.normalize_tensor. rewrite !map_map.
    apply map_ext. intros q. rewrite !length_map. reflexivity.
  - apply Forall_forall. intros rows Hrows.
    apply in_map_iff in Hrows. destruct Hrows as [[qs ks] [<- Hin]].
    cbn [fst snd].
    pose proof (in_combine_l _ _ _ _ Hin) as Hqs.
    pose proof (in_combine_r _ _ _ _ Hin) as Hks.
    rewrite Forall_forall in Hq, Hk.
    specialize (Hq qs Hqs). specialize (Hk ks Hks).
    rewrite Forall_forall in Hq, Hk.
    unfold QueryKeyMulGlobal.normalize_tensor. rewrite !map_map.
    apply Forall_forall. intros row Hrow.
    apply in_map_iff in Hrow. destruct Hrow as [q [<- Hinq]].
    rewrite !map_map. apply Forall_forall. intros x Hx.
    apply in_map_iff in Hx. destruct Hx as [k [<- Hink]].
    exact (cosine_entry t q k Ht (Hq q Hinq) (Hk k Hink)).
  - intros b a c qs ks q k Hqs Hks Hqa Hkc.
    assert (Hfq : Forall finite q).
    { rewrite Forall_forall in Hq.
      specialize (Hq qs (nth_error_In _ _ Hqs)).
      rewrite Forall_forall in Hq. apply Hq. apply (nth_error_In _ _ Hqa). }
    assert (Hfk : Forall finite k).
    { rewrite Forall_forall in Hk.
      specialize (Hk ks (nth_error_In _ _ Hks)).
      rewrite Forall_forall in Hk. apply Hk. apply (nth_error_In _ _ Hkc). }
    set (nrm := fun row : list float =>
                  map (fun v => divide_no_nan v
                         (fsqrt (reduce_sum (map (fun v => fmul v v) row))))
                      row).
    exists (map (fun k' => fdiv (dot (nrm q) k') (Fin t))
                (QueryKeyMulGlobal.normalize_tensor ks)),
           (fdiv (dot (nrm q) (nrm k)) (Fin t)).
    split; [| split; [| split]].
    + unfold position.
      rewrite (nth_error_map_combine _ _ _ _ qs ks Hqs Hks). cbn [fst snd].
      rewrite nth_error_map.
      unfold QueryKeyMulGlobal.normalize_tensor at 2.
      rewrite nth_error_map, Hqa. reflexivity.
    + rewrite nth_error_map.
      unfold QueryKeyMulGlobal.normalize_tensor.
      rewrite nth_error_map, Hkc. reflexivity.
    + exact (cosine_entry t q k Ht Hfq Hfk).
    + intros Hz. exact (cosine_zero_entry t q k Ht Hfq Hfk Hz).
Qed.

Lemma cosine_logits_are_bounded_witness :
  exists logits,
    QueryKeyMulGlobal.call true (Fin 2) 2
      [[[Fin 3; Fin 4]; [Fin 0; Fin 0]]] [[[Fin 1; Fin 0]]]
    = ret logits
    /\ map (map (@length float)) logits = [[1; 1]]
    /\ Forall (Forall (Forall (fun x =>
         exists r : R, x = Fin r /\ (Rabs (r * 2) <= 1)%R))) logits
    /\ exists row, position logits 0 1 = Some row
                   /\ nth_error row 0 = Some (Fin 0).
Proof.
  destruct (cosine_logits_are_bounded 2 2
              [[[Fin 3; Fin 4]; [Fin 0; Fin 0]]] [[[Fin 1; Fin 0]]])
    as [logits [Hcall [Hshape [Hbound Hat]]]].
  - lra.
  - reflexivity.
  - repeat constructor; eexists; reflexivity.
  - repeat constructor; eexists; reflexivity.
  - exists logits. split; [exact Hcall |]. split; [exact Hshape |].
    split; [exact Hbound |].
    destruct (Hat 0 1 0 [[Fin 3; Fin 4]; [Fin 0; Fin 0]] [[Fin 1; Fin 0]]
                [Fin 0; Fin 0] [Fin 1; Fin 0]
                eq_refl eq_refl eq_refl eq_refl)
      as [row [x [Hrow [Hx [_ Hzero]]]]].
    exists row. split; [exact Hrow |]. rewrite Hx. f_equal.
    apply Hzero. left. repeat constructor.
Defined.

(** ** The loss of the local arguments *)

(** On real logits, [log_softmax] adds one constant to every logit: minus
    the logarithm of the sum of their exponentials. *)
Lemma log_softmax_shift_form (l : list float) :
  Forall finite l -> l <> [] ->
  exists c : R,
    log_softmax l = map (fun x => fadd x (Fin c)) l
    /\ (exp c * total_prob l = 1)%R.
Proof.
  intros Hfin Hne.
  assert (Bl : Forall below_inf l)
    by (apply (Forall_impl _ below_inf_finite); exact Hfin).
  assert (Hex : Exists finite l).
  { destruct l as [| x l]; [contradiction |]. left. apply (Forall_inv Hfin). }
  unfold log_softmax.
  destruct (reduce_max_finite l Bl Hex) as [M ->].
  set (sl := map (fun x => fsub x (Fin M)) l).
  assert (Bsl : Forall below_inf sl) by (apply shift_below_inf; exact Bl).
  assert (Hpos : (0 < total_prob sl)%R).
  { apply total_prob_pos. apply (shift_exists_finite (- M)). exact Hex. }
  rewrite (reduce_sum_exp sl Bsl), (flog_pos _ Hpos).
  exists (- M + - ln (total_prob sl))%R. split.
  - unfold sl. rewrite map_map. apply map_ext_in. intros x Hx.
    rewrite Forall_forall in Hfin. destruct (Hfin x Hx) as [a ->].
    simpl. f_equal. ring.
  - rewrite exp_plus, (exp_Ropp (ln _)), (exp_ln _ Hpos).
    unfold sl in Hpos |- *.
    change (fun x => fsub x (Fin M)) with (fun x => fadd x (Fin (- M)))
      in Hpos |- *.
    rewrite (total_prob_shift _ l Bl) in Hpos |- *.
    pose proof (exp_pos (- M)). field. split; [lra |].
    intros H0. rewrite H0 in Hpos. lra.
Qed.

Lemma cross_entropy_entry (label : Z) (row : list float) :
  Forall finite row -> (0 <= label < Z.of_nat (length row))%Z ->
  exists x r,
    lookup row label = ret x
    /\ (y <- lookup (log_softmax row) label ;; ret (fneg y)) = ret (Fin r)
    /\ (0 <= r)%R
    /\ (exp (- r) * total_prob row = prob x)%R.
Proof.
  intros Hfin Hl.
  assert (Hne : row <> []) by (intros ->; simpl in Hl; lia).
  destruct (log_softmax_shift_form row Hfin Hne) as [c [Hc Hone]].
  rewrite Hc. unfold lookup.
  replace (label <? 0)%Z with false by (symmetry; apply Z.ltb_ge; lia).
  rewrite nth_error_map.
  destruct (nth_error row (Z.to_nat label)) as [x |] eqn:E;
    [| apply nth_error_None in E; lia].
  pose proof (nth_error_In _ _ E) as Hin.
  rewrite Forall_forall in Hfin. destruct (Hfin x Hin) as [a ->].
  exists (Fin a), (- (a + c))%R. split; [reflexivity |].
  split; [reflexivity |].
  pose proof (prob_le_total _ _ Hin) as Hle. simpl in Hle.
  pose proof (exp_pos a) as Ha. pose proof (exp_pos c) as Hcp.
  assert (Hexp : (exp (a + c) <= 1)%R).
  { rewrite exp_plus. rewrite <- Hone.
    rewrite (Rmult_comm (exp a)). apply Rmult_le_compat_l; lra. }
  split.
  - destruct (Rle_dec (a + c) 0) as [Hr | Hr]; [lra |].
    exfalso. assert (H0 : (0 < a + c)%R) by lra.
    pose proof (exp_increasing 0 (a + c) H0) as Hi. rewrite exp_0 in Hi. lra.
  - rewrite Ropp_involutive, exp_plus. simpl.
    rewrite Rmult_assoc, Hone. ring.
Qed.

Lemma In_select {A} (labels : list Z) (cells : list A) (c : A) :
  In c (select labels cells) -> In c cells.
Proof.
  unfold select. intros H. apply in_map_iff in H.
  destruct H as [[l c'] [Heq Hin]]. simpl in Heq. subst c'.
  apply filter_In in Hin. destruct Hin as [Hin _].
  apply (in_combine_r _ _ _ _ Hin).
Qed.

Lemma length_filtered (y_true : list (list Z)) (rows : list (list (list float))) :
  Forall2 (fun labels rs => length labels <= length rs) y_true rows ->
  length (concat (map (fun p => select (fst p) (snd p)) (combine y_true rows)))
  = length (concat (map (filter is_valid) y_true)).
Proof.
  induction 1 as [| labels rs y_true rows Hl _ IH]; [reflexivity |].
  simpl. rewrite !length_app, IH, (length_select _ _ Hl). reflexivity.
Qed.

(** X19: on a batch with a context of at least one node, real logits and
    labels that are the sentinel or a context position,
    [LocalArgumentSparseCategoricalCrossentropy.call] returns one loss for
    every label that is not the sentinel, in batch order; the loss is a
    non-negative real number, minus the logarithm of the softmax
    probability of the label among the logits of its argument position. *)
Theorem local_loss_is_cross_entropy (y_true : list (list Z)) (y_pred : Dense3) :
  0 < d_ctx y_pred ->
  Forall2 (fun labels rows => length labels <= length rows)
          y_true (d_data y_pred) ->
  Forall (Forall (fun row => length row = d_ctx y_pred /\ Forall finite row))
         (d_data y_pred) ->
  Forall (Forall (fun label =>
            label = sentinel \/ (0 <= label < Z.of_nat (d_ctx y_pred))%Z))
         y_true ->
  let labels := concat (map (filter is_valid) y_true) in
  let rows := concat (map (fun p => select (fst p) (snd p))
                          (combine y_true (d_data y_pred))) in
  exists losses,
    LocalArgumentSparseCategoricalCrossentropy.call y_true y_pred = ret losses
    /\ length losses = length labels
    /\ Forall2 (fun (p : Z * list float) loss =>
                  exists x r,
                    lookup (snd p) (fst p) = ret x
                    /\ loss = Fin r
                    /\ (0 <= r)%R
                    /\ (exp (- r) * total_prob (snd p) = prob x)%R)
               (combine labels rows) losses.
Proof.
  intros Hctx Hshape Hrows Hlabels labels rows.
  pose proof (length_filtered _ _ Hshape) as Hlen.
  fold labels rows in Hlen.
  unfold LocalArgumentSparseCategoricalCrossentropy.call.
  rewrite (arguments_filter_spec _ _ Hshape), bind_ret.
  fold labels rows.
  destruct (length rows * d_ctx y_pred =? 0) eqn:E.
  - apply Nat.eqb_eq in E.
    assert (Hr : length rows = 0) by nia.
    assert (Hl : length labels = 0) by lia.
    apply length_zero_iff_nil in Hr, Hl. rewrite Hr, Hl.
    exists []. split; [reflexivity |]. split; [reflexivity | constructor].
  - unfold sparse_softmax_cross_entropy_with_logits, zipM.
    rewrite <- Hlen, Nat.eqb_refl.
    destruct (mapM_exists
                (fun p : Z * list float =>
                   x <- lookup (log_softmax (snd p)) (fst p) ;; ret (fneg x))
                (fun (p : Z * list float) loss =>
                   exists x r,
                     lookup (snd p) (fst p) = ret x
                     /\ loss = Fin r
                     /\ (0 <= r)%R
                     /\ (exp (- r) * total_prob (snd p) = prob x)%R)
                (combine labels rows)) as [losses [Hok Hall]].
    + intros [label row] Hin. cbn [fst snd].
      pose proof (in_combine_l _ _ _ _ Hin) as Hil.
      pose proof (in_combine_r _ _ _ _ Hin) as Hir.
      unfold labels in Hil. apply in_concat in Hil.
      destruct Hil as [ls [Hls Hil]]. apply in_map_iff in Hls.
      destruct Hls as [ls0 [<- Hls0]]. apply filter_In in Hil.
      destruct Hil as [Hil Hvalid].
      rewrite Forall_forall in Hlabels. specialize (Hlabels ls0 Hls0).
      rewrite Forall_forall in Hlabels. specialize (Hlabels label Hil).
      assert (Hrange : (0 <= label < Z.of_nat (d_ctx y_pred))%Z).
      { destruct Hlabels as [-> | H]; [| exact H].
        unfold is_valid in Hvalid. rewrite Z.eqb_refl in Hvalid.
        discriminate. }
      unfold rows in Hir. apply in_concat in Hir.
      destruct Hir as [rs [Hrs Hir]]. apply in_map_iff in Hrs.
      destruct Hrs as [[ls1 rs1] [<- Hrs1]]. cbn [fst snd] in Hir.
      apply In_select in Hir. apply in_combine_r in Hrs1.
      rewrite Forall_forall in Hrows. specialize (Hrows rs1 Hrs1).
      rewrite Forall_forall in Hrows. destruct (Hrows row Hir) as [Hw Hfin].
      destruct (cross_entropy_entry label row Hfin) as [x [r [Hx [Hr [H0 He]]]]];
        [rewrite Hw; exact Hrange |].
      exists (Fin r). split; [exact Hr |]. exists x, r.
      repeat split; assumption.
    + exists losses. split; [exact Hok |]. split; [| exact Hall].
      rewrite <- (Forall2_length Hall), length_combine. lia.
Qed.

Lemma local_loss_is_cross_entropy_witness :
  exists losses,
    LocalArgumentSparseCategoricalCrossentropy.call
      [[1%Z; sentinel]; [0%Z]]
      (mkDense3 2 2 [[[Fin 0; Fin 0]; [Fin 0; Fin 0]];
                     [[Fin 1; Fin 2]; [Fin 0; Fin 0]]])
    = ret losses
    /\ length losses = 2.
Proof.
  destruct (local_loss_is_cross_entropy
              [[1%Z; sentinel]; [0%Z]]
              (mkDense3 2 2 [[[Fin 0; Fin 0]; [Fin 0; Fin 0]];
                             [[Fin 1; Fin 2]; [Fin 0; Fin 0]]]))
    as [losses [Hok [Hlen _]]].
  - simpl. lia.
  - repeat constructor.
  - repeat constructor; eexists; reflexivity.
  - repeat (apply Forall_cons || apply Forall_nil);
      solve [left; reflexivity | right; simpl; lia].
  - exists losses. split; [exact Hok | exact Hlen].
Defined.

(** ** The accuracy of the arguments *)

Lemma fgt_ninf (x : float) : fgt NInf x = false.
Proof. destruct x; reflexivity. Qed.

Lemma argmax_from_padding (l : list float) (k : nat) :
  forall i bi bv,
    argmax_from (l ++ repeat NInf k) i bi bv = argmax_from l i bi bv.
Proof.
  induction l as [| x l IH]; intros i bi bv.
  - cbn [app]. revert i. induction k as [| k IHk]; intros i; [reflexivity |].
    cbn [repeat argmax_from]. rewrite fgt_ninf. apply IHk.
  - cbn [app argmax_from]. destruct (fgt x bv); apply IH.
Qed.

Lemma accuracy_padding (label : Z) (row : list float) (k : nat) :
  row <> [] ->
  sparse_categorical_accuracy label (row ++ repeat NInf k)
  = sparse_categorical_accuracy label row.
Proof.
  intros Hne. destruct row as [| x row]; [contradiction |].
  unfold sparse_categorical_accuracy, argmax.
  change ((x :: row) ++ repeat NInf k) with (x :: (row ++ repeat NInf k)).
  cbv iota. rewrite argmax_from_padding. reflexivity.
Qed.

(** X20: [ArgumentSparseCategoricalAccuracy.update_state] hands to the
    accuracy of Keras the labels that are not the sentinel, example by
    example, and the logits of their argument positions, each row filled
    with -inf up to the longest of them; the filling changes the accuracy
    of no row that has a logit.  When no kept position has a logit, nothing
    is handed over. *)
Theorem accuracy_update_state_spec
  (y_true : list (list Z)) (y_pred : list (list (list float))) :
  Forall2 (fun labels rows => length labels <= length rows) y_true y_pred ->
  let labels := map (filter is_valid) y_true in
  let rows := map (fun p => select (fst p) (snd p)) (combine y_true y_pred) in
  let width := max_row_length (concat rows) in
  (width = 0 ->
   ArgumentSparseCategoricalAccuracy.update_state y_true y_pred = ret None)
  /\ (0 < width ->
      exists preds,
        ArgumentSparseCategoricalAccuracy.update_state y_true y_pred
        = ret (Some (labels, preds))
        /\ Forall2 (Forall2 (fun row padded =>
                      padded = row ++ repeat NInf (width - length row)
                      /\ length padded = width
                      /\ (row <> [] ->
                          forall label,
                            sparse_categorical_accuracy label padded
                            = sparse_categorical_accuracy label row)))
                   rows preds).
Proof.
  intros Hshape labels rows width.
  unfold ArgumentSparseCategoricalAccuracy.update_state.
  rewrite (ragged_arguments_filter_spec _ _ Hshape), bind_ret.
  fold labels rows. unfold values. fold width.
  rewrite with_values_ok by (unfold values, to_tensor; apply length_map).
  rewrite bind_ret. unfold to_tensor. fold width.
  rewrite (split_rows_map_concat
             (fun row => row ++ repeat NInf (width - length row)) rows).
  split.
  - intros H0. rewrite H0. reflexivity.
  - intros Hpos.
    replace (0 <? width) with true by (symmetry; apply Nat.ltb_lt; exact Hpos).
    eexists. split; [reflexivity |].
    assert (Hin : forall rs, In rs rows ->
                    forall r, In r rs -> length r <= width).
    { intros rs Hrs r Hr. apply max_row_length_ge.
      apply in_concat. exists rs. split; assumption. }
    clearbody width. clear - Hin.
    induction rows as [| rs rows IH]; simpl; constructor.
    + assert (Hrs : forall r, In r rs -> length r <= width)
        by (intros r Hr; apply (Hin rs (or_introl eq_refl) r Hr)).
      clear - Hrs. induction rs as [| r rs IH]; simpl; constructor.
      * split; [reflexivity |]. split.
        -- rewrite length_app, repeat_length.
           specialize (Hrs r (or_introl eq_refl)). lia.
        -- intros Hne label. apply accuracy_padding. exact Hne.
      * apply IH. intros r' Hr'. apply Hrs. right. exact Hr'.
    + apply IH. intros rs' Hrs' r Hr. apply (Hin rs'); [right |]; assumption.
Qed.

Lemma accuracy_update_state_spec_witness :
  ArgumentSparseCategoricalAccuracy.update_state
    [[1%Z; sentinel]; [0%Z]]
    [[[Fin 1; Fin 2]; [Fin 5]]; [[Fin 3]]]
  = ret (Some ([[1%Z]; [0%Z]], [[[Fin 1; Fin 2]]; [[Fin 3; NInf]]])).
Proof.
  destruct (accuracy_update_state_spec
              [[1%Z; sentinel]; [0%Z]]
              [[[Fin 1; Fin 2]; [Fin 5]]; [[Fin 3]]])
    as [_ Hsome].
  - repeat constructor.
  - assert (Hpos : 0 < max_row_length
                         (concat (map (fun p : list Z * list (list float) =>
                                         select (fst p) (snd p))
                                      (combine [[1%Z; sentinel]; [0%Z]]
                                         [[[Fin 1; Fin 2]; [Fin 5]];
                                          [[Fin 3]]]))))
      by (vm_compute; lia).
    destruct (Hsome Hpos) as [preds [Hok Hrows]].
    rewrite Hok. f_equal. f_equal. f_equal.
    inversion Hrows as [| rs ps rows' preds' H1 Ht]; subst.
    inversion H1 as [| r p rs' ps' [Hp _] Hn]; subst. inversion Hn; subst.
    inversion Ht as [| rs2 ps2 rows2 preds2 H2 Ht2]; subst.
    inversion Ht2; subst.
    inversion H2 as [| r2 p2 rs3 ps3 [Hp2 _] Hn2]; subst.
    inversion Hn2; subst. reflexivity.
Defined.

(** ** The logits of the global arguments *)

(** X21: without cosine similarity, the logits that [QueryKeyMulGlobal]
    computes from the keys of [GlobalEmbeddings] hold, for every argument
    position of every example, the dot product of its query with every
    definition embedding, in the order of the embeddings; of the global
    context ids only the number of examples is read.  Queries and global
    context have the same number of examples. *)
Theorem global_logits_cover_all_embeddings (temp : float) (hdim : nat)
  (all_embeddings : list (list float)) (global_context : list (list Z))
  (queries : list (list (list float))) :
  length queries = length global_context ->
  QueryKeyMulGlobal.call false temp hdim queries
    (GlobalEmbeddings.call all_embeddings global_context)
  = ret (map (map (fun q => map (fun e => dot q e) all_embeddings)) queries).
Proof.
  intros Hlen. unfold QueryKeyMulGlobal.call, GlobalEmbeddings.call.
  rewrite !bind_ret.
  unfold QueryKeyMul.call. cbn [QueryKeyMul.method]. simpl String.eqb.
  cbv iota.
  rewrite mul_broadcast_ragged_spec by (rewrite repeat_length; exact Hlen).
  rewrite bind_ret. f_equal. unfold spec_logits. rewrite <- Hlen.
  clear. induction queries as [| qs queries IH]; [reflexivity |].
  simpl. rewrite IH. reflexivity.
Qed.

Lemma global_logits_cover_all_embeddings_witness :
  QueryKeyMulGlobal.call false (Fin 1) 1 [[[Fin 2]]; []]
    (GlobalEmbeddings.call [[Fin 3]; [Fin 4]] [[7%Z]; []])
  = ret (map (map (fun q => map (fun e => dot q e) [[Fin 3]; [Fin 4]]))
             [[[Fin 2]]; []]).
Proof.
  apply (global_logits_cover_all_embeddings (Fin 1) 1 [[Fin 3]; [Fin 4]]
           [[7%Z]; []] [[[Fin 2]]; []]).
  reflexivity.
Defined.
